(** * FindHALBypass: a shallow embedding of [lib/FindHALBypass.cpp]

    The pass takes the registry of MMIO functions found by [FindMMIOFunc],
    labels every function by a lexical heuristic on its debug metadata
    ([IsHal]), computes direct and transitive in-degrees over LLVM's call
    graph and marks whole source directories as HAL ([IsHal2]).

    Conventions of the embedding:
    - [std::string] is [string]; [npos] is [None];
    - [int] values are [Z]; vector positions and loop counters are [nat];
      signed overflow is undefined behaviour and is a [fault];
    - a null pointer dereference, a failed [assert] and a throwing
      [std::map::at] are [fault]s as well;
    - a map keyed by pointers is a [gmap] keyed by the objects pointed to,
      and a loop over a map visits [map_to_list] of it;
    - [errs()] is the list of chunks written so far;
    - the member [MMIOFuncMap] of the pass object is threaded explicitly;
    - the [MY_DEBUG] traces are left out. *)

From Stdlib Require Import Ascii String ZArith.
From stdpp Require Import gmap strings list fin_maps pretty relations.

(** ** [std::string] operations used by the pass *)

Module StdString.

(** The newline character written by ["\n"]. *)
Definition nl : string := String (ascii_of_nat 10) EmptyString.

(** [std::tolower] on an [unsigned char] in the "C" locale. *)
Definition tolower (c : ascii) : ascii :=
  let n := nat_of_ascii c in
  if (65 <=? n) && (n <=? 90) then ascii_of_nat (n + 32) else c.

(** [std::transform(Str.begin(), Str.end(), Str.begin(), tolower)]. *)
Fixpoint transform_tolower (Str : string) : string :=
  match Str with
  | EmptyString => EmptyString
  | String c rest => String (tolower c) (transform_tolower rest)
  end.

(** [Str.find(pat)]: position of the first occurrence, [None] for [npos]. *)
Fixpoint find (Str pat : string) : option nat :=
  if String.prefix pat Str then Some 0
  else match Str with
       | EmptyString => None
       | String _ rest => S <$> find rest pat
       end.

(** [Str.find_last_of(chars)]: last position holding one of [chars]. *)
Fixpoint find_last_of (Str : string) (chars : list ascii) : option nat :=
  match Str with
  | EmptyString => None
  | String c rest =>
      match find_last_of rest chars with
      | Some i => Some (S i)
      | None => if bool_decide (c ∈ chars) then Some 0 else None
      end
  end.

(** [Str.substr(0, count)], where [count] may be [npos]. *)
Definition substr0 (Str : string) (count : option nat) : string :=
  match count with
  | Some n => String.substring 0 n Str
  | None => Str
  end.

(** [pat] occurs in [Str]. *)
Definition contains (Str pat : string) : Prop :=
  ∃ pre suf, Str = pre +:+ pat +:+ suf.

End StdString.

Import StdString.

(** ** The LLVM objects the pass reads

    Only the accessors used by the source are kept.  A pointer that may be
    null is an [option]. *)

(** [llvm::DIFile]. *)
Record DIFile := {
  DIFile_getFilename : string;
  DIFile_getDirectory : string;
}.

(** [llvm::DISubprogram]; [getFile()] may return null. *)
Record DISubprogram := {
  getName : string;
  getLinkageName : string;
  getFile : option DIFile;
}.

(** [llvm::Function], identified by its address. *)
Record Function := {
  Function_address : N;
  Function_getName : string;
  getSubprogram : option DISubprogram;
}.

(** [llvm::DebugLoc]: null, or a location whose scope gives the directory
    and the file, with the location it was inlined at (null when it was
    not inlined). *)
Inductive DebugLoc :=
| DebugLoc_null
| DebugLoc_at (Scope_getDirectory Scope_getFilename : string)
              (getLine getCol : N) (getInlinedAt : DebugLoc).

(** [llvm::Instruction]. *)
Record Instruction := { getDebugLoc : DebugLoc }.

Global Instance DIFile_eq_dec : EqDecision DIFile.
Proof. solve_decision. Defined.

Global Instance DISubprogram_eq_dec : EqDecision DISubprogram.
Proof. solve_decision. Defined.

Global Instance Function_eq_dec : EqDecision Function.
Proof. solve_decision. Defined.

Global Instance DIFile_countable : Countable DIFile.
Proof.
  apply (inj_countable'
           (λ f, (DIFile_getFilename f, DIFile_getDirectory f))
           (λ p, {| DIFile_getFilename := p.1; DIFile_getDirectory := p.2 |})).
  by intros [].
Defined.

Global Instance DISubprogram_countable : Countable DISubprogram.
Proof.
  apply (inj_countable'
           (λ d, (getName d, getLinkageName d, getFile d))
           (λ p, {| getName := p.1.1; getLinkageName := p.1.2;
                    getFile := p.2 |})).
  by intros [].
Defined.

Global Instance Function_countable : Countable Function.
Proof.
  apply (inj_countable'
           (λ F, (Function_address F, Function_getName F, getSubprogram F))
           (λ p, {| Function_address := p.1.1; Function_getName := p.1.2;
                    getSubprogram := p.2 |})).
  by intros [].
Defined.

(** ** Faults and the outcome of a call *)

Inductive fault :=
| NullPointerDereference   (* a member call through a null pointer *)
| MapAtOutOfRange          (* [std::map::at] on a missing key *)
| FunctionNotInCallGraph   (* the [assert] of [CallGraph::operator[]] *)
| SignedOverflow.          (* an [int] computation leaves the range *)

Inductive outcome (A : Type) :=
| Returns (a : A)
| Faults (e : fault).

Arguments Returns {A} a.
Arguments Faults {A} e.

Global Instance outcome_ret : MRet outcome := λ A a, Returns a.

Global Instance outcome_bind : MBind outcome := λ A B k m,
  match m with
  | Returns a => k a
  | Faults e => Faults e
  end.

(** [for (x : l) acc = body(acc, x)] with a body that may fault. *)
Fixpoint for_each {A S : Type} (body : S → A → outcome S) (l : list A)
    (acc : S) : outcome S :=
  match l with
  | [] => Returns acc
  | x :: rest => acc' ← body acc x; for_each body rest acc'
  end.

(** [INT_MAX] of a 32-bit [int]. *)
Definition INT_MAX : Z := 2147483647.

(** ** Name heuristic *)

Definition found (r : option nat) : bool := bool_decide (r ≠ None).

(** [FindHALBypass::isHalRegexInternal]. *)
Definition isHalRegexInternal (Name : string) : bool :=
  let Str := transform_tolower Name in
  (found (find Str "hal") && negb (found (find Str "halt")))
  || found (find Str "driver")
  || found (find Str "arch")
  || found (find Str "soc")
  || found (find Str "cmsis").

(** A [raw_ostream]: the chunks written so far.  A function that only
    appends to a stream is given by the chunks it writes. *)
Definition raw_ostream := list string.

(** [FindHALBypass::isHalFuncRegex]; [errs] is the stream before the call,
    the result carries the stream after it. *)
Definition isHalFuncRegex (F : Function) (errs : raw_ostream)
    : outcome (bool * raw_ostream) :=
  match getSubprogram F with
  | None =>
      Returns (false,
               errs ++ ["Warning: isHalFunc: DISubprogram not exists." +:+ nl])
  | Some DISub =>
      match getFile DISub with
      | None => Faults NullPointerDereference
      | Some File =>
          let Name := getName DISub in
          let LinkageName := getLinkageName DISub in
          let Filename := DIFile_getFilename File in
          let Dir := DIFile_getDirectory File in
          if isHalRegexInternal Name || isHalRegexInternal LinkageName
             || isHalRegexInternal Filename || isHalRegexInternal Dir
          then Returns (true, errs)
          else Returns (false, errs)
      end
  end.

(** [FindHALBypass::isHalFunc]. *)
Definition isHalFunc (F : Function) (errs : raw_ostream)
    : outcome (bool * raw_ostream) :=
  isHalFuncRegex F errs.

(** ** The registry of MMIO functions *)

(** [FindMMIOFunc::MMIOFunc]: the representative MMIO instruction. *)
Record FindMMIOFunc_MMIOFunc := { MMIOIns : Instruction }.

(** [FindHALBypass::MMIOFunc], which extends [FindMMIOFunc::MMIOFunc]. *)
Record MMIOFunc := {
  Parent : FindMMIOFunc_MMIOFunc;
  IsHal : bool;
  IsHal2 : bool;
  FullPath : string;
  Dirname : string;
  InDegree : Z;
  TransClosureInDeg : Z;
}.

Definition set_IsHal (b : bool) (MF : MMIOFunc) : MMIOFunc :=
  {| Parent := Parent MF; IsHal := b; IsHal2 := IsHal2 MF;
     FullPath := FullPath MF; Dirname := Dirname MF;
     InDegree := InDegree MF; TransClosureInDeg := TransClosureInDeg MF |}.

Definition set_IsHal2 (b : bool) (MF : MMIOFunc) : MMIOFunc :=
  {| Parent := Parent MF; IsHal := IsHal MF; IsHal2 := b;
     FullPath := FullPath MF; Dirname := Dirname MF;
     InDegree := InDegree MF; TransClosureInDeg := TransClosureInDeg MF |}.

Definition set_InDegree (n : Z) (MF : MMIOFunc) : MMIOFunc :=
  {| Parent := Parent MF; IsHal := IsHal MF; IsHal2 := IsHal2 MF;
     FullPath := FullPath MF; Dirname := Dirname MF;
     InDegree := n; TransClosureInDeg := TransClosureInDeg MF |}.

Definition set_TransClosureInDeg (n : Z) (MF : MMIOFunc) : MMIOFunc :=
  {| Parent := Parent MF; IsHal := IsHal MF; IsHal2 := IsHal2 MF;
     FullPath := FullPath MF; Dirname := Dirname MF;
     InDegree := InDegree MF; TransClosureInDeg := n |}.

(** [FindMMIOFunc::Result] and [FindHALBypass::Result]: maps keyed by
    [const Function *].  Every key is dereferenced when its entry is built,
    so keys are functions, never null. *)
Abbreviation FindMMIOFunc_Result := (gmap Function FindMMIOFunc_MMIOFunc).
Abbreviation Result := (gmap Function MMIOFunc).

(** [Map.insert({k, v})]: an existing entry is kept. *)
Definition map_insert_new {V} (k : Function) (v : V) (m : gmap Function V)
    : gmap Function V :=
  match m !! k with
  | Some _ => m
  | None => <[k := v]> m
  end.

(** [FindHALBypass::MMIOFunc::MMIOFunc]. *)
Definition MMIOFunc_ctor (P : FindMMIOFunc_MMIOFunc) (F : Function)
    : outcome MMIOFunc :=
  match getSubprogram F with
  | None => Faults NullPointerDereference
  | Some DISub =>
      match getFile DISub with
      | None => Faults NullPointerDereference
      | Some File =>
          let Filename := DIFile_getFilename File in
          let Dir := DIFile_getDirectory File in
          let FullPath := Dir +:+ "/" +:+ Filename in
          let Found := find_last_of FullPath ["/"%char; "\"%char] in
          Returns {| Parent := P; IsHal := false; IsHal2 := false;
                     FullPath := FullPath;
                     Dirname := substr0 FullPath Found;
                     InDegree := 0; TransClosureInDeg := 0 |}
      end
  end.

(** ** LLVM's call graph *)

(** A [CallGraphNode *]: the node [FunctionMap] stores under the key [F]
    (the key [nullptr] holds the external calling node), or the node
    returned by [getCallsExternalNode()]. *)
Inductive CallGraphNode :=
| NodeOf (F : option Function)
| CallsExternal.

(** [CallGraphNode::getFunction]. *)
Definition CallGraphNode_getFunction (n : CallGraphNode) : option Function :=
  match n with
  | NodeOf F => F
  | CallsExternal => None
  end.

(** [CallGraphNode::CallRecord], a pair of which the pass reads only the
    called node [J.second]. *)
Record CallRecord := { second : CallGraphNode }.

(** [llvm::CallGraph]: [FunctionMap] gives every node its call records. *)
Record CallGraph := { FunctionMap : gmap (option Function) (list CallRecord) }.

Global Instance CallGraphNode_eq_dec : EqDecision CallGraphNode.
Proof. solve_decision. Defined.

Global Instance CallGraphNode_countable : Countable CallGraphNode.
Proof.
  apply (inj_countable'
           (λ n, match n with NodeOf F => Some F | CallsExternal => None end)
           (λ o, match o with Some F => NodeOf F | None => CallsExternal end)).
  by intros [].
Defined.

Global Instance CallGraphNode_inhabited : Inhabited CallGraphNode :=
  populate CallsExternal.

(** [for (auto &I : CG)]: the keys with their call records, in map order. *)
Definition CallGraph_nodes (CG : CallGraph)
    : list (option Function * list CallRecord) :=
  map_to_list (FunctionMap CG).

(** [CG[F]], which asserts that [F] is in the graph. *)
Definition CallGraph_at (CG : CallGraph) (F : Function)
    : outcome CallGraphNode :=
  match FunctionMap CG !! Some F with
  | Some _ => Returns (NodeOf (Some F))
  | None => Faults FunctionNotInCallGraph
  end.

(** [Map.at(k)]. *)
Definition map_at `{Countable K} {V} (m : gmap K V) (k : K) : outcome V :=
  match m !! k with
  | Some v => Returns v
  | None => Faults MapAtOutOfRange
  end.

(** [for (auto &I : Map) I.second = body(I.first, I.second)]. *)
Definition for_each_entry `{Countable K} {V} (body : K → V → outcome V)
    (m : gmap K V) : outcome (gmap K V) :=
  for_each (λ acc I, v ← body I.1 I.2; Returns (<[I.1 := v]> acc))
           (map_to_list m) m.

(** ** Direct in-degrees *)

(** The body of the inner loop of [computeCallGraphInDegrees]:
    [Iter = MMIOFuncMap.find(Callee); if (Iter != end) Iter->second.InDegree++]. *)
Definition count_call (MMIOFuncMap : Result) (J : CallRecord)
    : outcome Result :=
  match CallGraphNode_getFunction (second J) with
  | None => Returns MMIOFuncMap
  | Some Callee =>
      match MMIOFuncMap !! Callee with
      | None => Returns MMIOFuncMap
      | Some MF =>
          if bool_decide (InDegree MF < INT_MAX)%Z
          then Returns (<[Callee := set_InDegree (InDegree MF + 1) MF]>
                          MMIOFuncMap)
          else Faults SignedOverflow
      end
  end.

(** [FindHALBypass::computeCallGraphInDegrees]. *)
Definition computeCallGraphInDegrees (CG : CallGraph) (MMIOFuncMap : Result)
    : outcome Result :=
  let MMIOFuncMap := set_InDegree 0 <$> MMIOFuncMap in
  for_each (λ acc I, for_each count_call I.2 acc)
           (CallGraph_nodes CG) MMIOFuncMap.

(** ** Transitive closure *)

(** The first loop of [computeCallGraphTransClosure]:
    [CGN2Num[I.second.get()] = TotNumOfCGN++]. *)
Definition number_nodes (nodes : list (option Function * list CallRecord))
    : gmap CallGraphNode nat * nat :=
  foldl (λ acc I, (<[NodeOf I.1 := acc.2]> acc.1, S acc.2)) (∅, 0) nodes.

(** A cell of the matrix read as a condition. *)
Definition cell (A : list Z) (i : nat) : bool :=
  bool_decide (A !!! i ≠ 0%Z).

(** A condition stored into an [int]. *)
Definition of_bool (b : bool) : Z := if b then 1 else 0.

(** [AdjMatrix[Caller * N + Callee] = 1] for every call record of [I]. *)
Definition mark_calls (CGN2Num : gmap CallGraphNode nat) (N : nat)
    (A : list Z) (I : option Function * list CallRecord)
    : outcome (list Z) :=
  for_each (λ A J,
      Caller ← map_at CGN2Num (NodeOf I.1);
      Callee ← map_at CGN2Num (second J);
      Returns (<[Caller * N + Callee := 1%Z]> A))
    I.2 A.

(** The body of the triple loop. *)
Definition closure_step (N K I J : nat) (A : list Z) : list Z :=
  <[I * N + J :=
      of_bool (cell A (I * N + J) || (cell A (I * N + K) && cell A (K * N + J)))]>
    A.

(** The triple loop, [K] outermost. *)
Definition closure_loops (N : nat) (A : list Z) : list Z :=
  foldl (λ A K,
    foldl (λ A I,
      foldl (λ A J, closure_step N K I J A) A (seq 0 N))
      A (seq 0 N))
    A (seq 0 N).

(** [std::transform(row, row + N, InDegrees, InDegrees, std::plus<int>())]
    for every row [I].  The cells are 0 or 1, so that a sum stays below the
    number of rows. *)
Definition column_sums (N : nat) (A : list Z) : list Z :=
  foldl (λ InDegrees I,
           zip_with Z.add (take N (drop (I * N) A)) InDegrees)
        (replicate N 0%Z) (seq 0 N).

(** [CGN2Num] once every node of [CG] and the node for external calls
    have their number. *)
Definition CGN2Num (CG : CallGraph) : gmap CallGraphNode nat :=
  let numbered := number_nodes (CallGraph_nodes CG) in
  <[CallsExternal := numbered.2]> numbered.1.

(** [TotNumOfCGN] after these increments. *)
Definition TotNumOfCGN (CG : CallGraph) : nat :=
  S (number_nodes (CallGraph_nodes CG)).2.

(** [AdjMatrix] after the loop over the call records. *)
Definition AdjMatrix (CG : CallGraph) : outcome (list Z) :=
  for_each (mark_calls (CGN2Num CG) (TotNumOfCGN CG))
           (CallGraph_nodes CG)
           (replicate (TotNumOfCGN CG * TotNumOfCGN CG) 0%Z).

(** [AdjMatrix] after the triple loop. *)
Definition reachable (CG : CallGraph) : outcome (list Z) :=
  A ← AdjMatrix CG; Returns (closure_loops (TotNumOfCGN CG) A).

(** [FindHALBypass::computeCallGraphTransClosure]. *)
Definition computeCallGraphTransClosure (CG : CallGraph) (MMIOFuncMap : Result)
    : outcome Result :=
  if bool_decide (Z.of_nat (TotNumOfCGN CG) * Z.of_nat (TotNumOfCGN CG)
                  ≤ INT_MAX)%Z
  then
    A ← reachable CG;
    let InDegrees := column_sums (TotNumOfCGN CG) A in
    for_each_entry (λ F MF,
        Node ← CallGraph_at CG F;
        Num ← map_at (CGN2Num CG) Node;
        Returns (set_TransClosureInDeg (InDegrees !!! Num) MF))
      MMIOFuncMap
  else Faults SignedOverflow.

(** ** Directory inference *)

(** The first loop of [callGraphBasedHalIdent]. *)
Definition collect_HalDirs (MMIOFuncMap : Result) : list string :=
  foldl (λ HalDirs I,
           if bool_decide (10 ≤ TransClosureInDeg I.2)%Z
           then HalDirs ++ [Dirname I.2]
           else HalDirs)
        [] (map_to_list MMIOFuncMap).

(** [FindHALBypass::callGraphBasedHalIdent]. *)
Definition callGraphBasedHalIdent (CG : CallGraph) (MMIOFuncMap : Result)
    : outcome Result :=
  MMIOFuncMap ← computeCallGraphInDegrees CG MMIOFuncMap;
  MMIOFuncMap ← computeCallGraphTransClosure CG MMIOFuncMap;
  let HalDirs := collect_HalDirs MMIOFuncMap in
  Returns ((λ MF, if bool_decide (Dirname MF ∈ HalDirs)
                  then set_IsHal2 true MF else MF) <$> MMIOFuncMap).

(** ** The analysis *)

(** The body of the loop of [runOnModule]. *)
Definition add_MMIOFunc (acc : Result * raw_ostream)
    (Node : Function * FindMMIOFunc_MMIOFunc) : outcome (Result * raw_ostream) :=
  let F := Node.1 in
  MF ← MMIOFunc_ctor Node.2 F;
  r ← isHalFunc F acc.2;
  Returns (map_insert_new F (set_IsHal r.1 MF) acc.1, r.2).

(** [FindHALBypass::runOnModule].  [MMIOFuncMap] is the member of the pass
    object as the previous run left it, [CG] is [CallGraph(M)] and [errs]
    the error stream before the call.  The result is the returned map,
    which is a copy of the member after the call, and the stream. *)
Definition runOnModule (MMIOFuncMap : Result) (CG : CallGraph)
    (MMIOFuncs : FindMMIOFunc_Result) (errs : raw_ostream)
    : outcome (Result * raw_ostream) :=
  let MMIOFuncMap : Result := ∅ in
  st ← for_each add_MMIOFunc (map_to_list MMIOFuncs) (MMIOFuncMap, errs);
  MMIOFuncMap ← callGraphBasedHalIdent CG st.1;
  Returns (MMIOFuncMap, st.2).

(** ** The report *)

(** [DebugLoc::print] of LLVM: [file:line[:col]] and the inlining chain. *)
Fixpoint DebugLoc_print (DL : DebugLoc) : list string :=
  match DL with
  | DebugLoc_null => []
  | DebugLoc_at _ Filename Line Col InlinedAtDL =>
      [Filename; ":"; pretty Line]
      ++ (if bool_decide (Col ≠ 0%N) then [":"; pretty Col] else [])
      ++ match InlinedAtDL with
         | DebugLoc_null => []
         | _ => [" @[ "] ++ DebugLoc_print InlinedAtDL ++ [" ]"]
         end
  end.

(** [printDebugLoc]. *)
Definition printDebugLoc (DL : DebugLoc) : list string :=
  match DL with
  | DebugLoc_null => []
  | DebugLoc_at Directory Filename Line Col InlinedAtDL =>
      [Directory; "/"; Filename; ":"; pretty Line]
      ++ (if bool_decide (Col ≠ 0%N) then [":"; pretty Col] else [])
      ++ match InlinedAtDL with
         | DebugLoc_null => []
         | _ => [" @[ "] ++ DebugLoc_print InlinedAtDL ++ [" ]"]
         end
  end.

(** The line [printFuncs] writes for one entry. *)
Definition print_Node (Node : Function * MMIOFunc) : list string :=
  [Function_getName Node.1; " "]
  ++ printDebugLoc (getDebugLoc (MMIOIns (Parent Node.2)))
  ++ [" "; pretty (InDegree Node.2);
      " "; pretty (TransClosureInDeg Node.2);
      " "; pretty (of_bool (IsHal2 Node.2));
      nl].

(** [printFuncs]. *)
Definition printFuncs (MMIOFuncs : Result) (Str : string) : list string :=
  ["================================================="; nl;
   "LLVM-TUTOR: "; Str; " (# = "; pretty (size MMIOFuncs); ")" +:+ nl;
   "Function, Location of MMIO inst" +:+ nl;
   "-------------------------------------------------"; nl]
  ++ foldl (λ OutS Node, OutS ++ print_Node Node) [] (map_to_list MMIOFuncs)
  ++ ["-------------------------------------------------"; nl +:+ nl].

(** The loop of [printHALBypassResult]: the pair [(AppFuncs, LibHalFuncs)]. *)
Definition split_Result (MMIOFuncs : Result) : Result * Result :=
  foldl (λ acc Node,
           if negb (IsHal Node.2)
           then (map_insert_new Node.1 Node.2 acc.1, acc.2)
           else (acc.1, map_insert_new Node.1 Node.2 acc.2))
        (∅, ∅) (map_to_list MMIOFuncs).

(** [printHALBypassResult]. *)
Definition printHALBypassResult (MMIOFuncs : Result) : list string :=
  let AppFuncs := (split_Result MMIOFuncs).1 in
  let LibHalFuncs := (split_Result MMIOFuncs).2 in
  printFuncs AppFuncs "Application MMIO functions"
  ++ printFuncs LibHalFuncs "Hal MMIO functions".

(** * Vocabulary of the properties *)

(** ** Call records *)

(** Every call record of the graph, node by node. *)
Definition CallGraph_records (CG : CallGraph) : list CallRecord :=
  concat ((CallGraph_nodes CG).*2).

(** The record [J] calls the node of the function [F]. *)
Definition calls_to (F : Function) (J : CallRecord) : Prop :=
  CallGraphNode_getFunction (second J) = Some F.

Global Instance calls_to_dec F J : Decision (calls_to F J).
Proof. unfold calls_to. apply _. Defined.

(** The call records of the functions of the graph: one for every call
    site. *)
Definition call_sites (CG : CallGraph) : list CallRecord :=
  concat ((map_to_list (delete None (FunctionMap CG))).*2).

(** The call records of the external calling node, which the graph stores
    under the null function: one for every function that can be called
    from outside the module.  They stand for no call site. *)
Definition external_calling_records (CG : CallGraph) : list CallRecord :=
  default [] (FunctionMap CG !! None).

(** ** Reachability *)

(** The nodes in the order of their numbers. *)
Definition vertices (CG : CallGraph) : list CallGraphNode :=
  (NodeOf <$> (CallGraph_nodes CG).*1) ++ [CallsExternal].

(** [u] has a call record whose called node is [v]. *)
Definition calls (CG : CallGraph) : relation CallGraphNode :=
  λ u v, ∃ k recs J,
    u = NodeOf k ∧ FunctionMap CG !! k = Some recs ∧ J ∈ recs ∧ second J = v.

(** [reachable[i][j]] of an [N × N] matrix stored row by row. *)
Definition entry (N : nat) (A : list Z) (i j : nat) : bool :=
  cell A (i * N + j).

(** The relation an [N × N] matrix stands for. *)
Definition edge (N : nat) (A : list Z) : relation nat :=
  λ i j, i < N ∧ j < N ∧ entry N A i j = true.

(** A walk from [u] to [v] along [E] whose inner vertices are [via]. *)
Fixpoint walk {V} (E : relation V) (u : V) (via : list V) (v : V) : Prop :=
  match via with
  | [] => E u v
  | w :: via => E u w ∧ walk E w via v
  end.

(** Walks whose inner vertices are below [k]. *)
Definition through (N : nat) (A : list Z) (k i j : nat) : Prop :=
  ∃ via, Forall (λ v, v < k) via ∧ walk (edge N A) i via j.

(** The values a cell of the matrix takes. *)
Definition bit (z : Z) : Prop := z = 0%Z ∨ z = 1%Z.

(** ** Inputs on which the analysis runs to its end *)

(** Every called node is a node of the graph. *)
Definition closed (CG : CallGraph) : Prop :=
  ∀ u v, calls CG u v → v ∈ vertices CG.

(** The matrix can be indexed by [int] and every called node has a number. *)
Definition closure_ok (CG : CallGraph) : bool :=
  bool_decide (Z.of_nat (TotNumOfCGN CG) * Z.of_nat (TotNumOfCGN CG)
               ≤ INT_MAX)%Z
  && forallb (λ I, forallb (λ J, bool_decide (second J ∈ vertices CG)) I.2)
             (CallGraph_nodes CG).

(** The call records can be counted with an [int]. *)
Definition records_ok (CG : CallGraph) : bool :=
  bool_decide (Z.of_nat (length (CallGraph_records CG)) ≤ INT_MAX)%Z.

(** Every function of the map is a function of the graph. *)
Definition in_CallGraph {V} (CG : CallGraph) (m : gmap Function V) : bool :=
  forallb (λ Node, bool_decide (is_Some (FunctionMap CG !! Some Node.1)))
          (map_to_list m).

(** The function has a [DISubprogram] with a [DIFile]. *)
Definition has_debug_info (F : Function) : bool :=
  match getSubprogram F with
  | Some DISub => bool_decide (is_Some (getFile DISub))
  | None => false
  end.

(** The inputs of [runOnModule] on which no fault occurs. *)
Definition inputs_ok (CG : CallGraph) (MMIOFuncs : FindMMIOFunc_Result)
    : bool :=
  closure_ok CG && records_ok CG && in_CallGraph CG MMIOFuncs
  && forallb (λ Node, has_debug_info Node.1) (map_to_list MMIOFuncs).

(** ** Entries of the registry *)

(** The entry [runOnModule] inserts for [F], when building it returns. *)
Definition new_MMIOFunc (P : FindMMIOFunc_MMIOFunc) (F : Function)
    : option MMIOFunc :=
  match MMIOFunc_ctor P F, isHalFunc F [] with
  | Returns MF, Returns r => Some (set_IsHal r.1 MF)
  | _, _ => None
  end.

(** What [f] reads in the entry of [F] of the registry a run returns. *)
Definition read {A} (o : outcome (Result * raw_ostream)) (F : Function)
    (f : MMIOFunc → A) : option A :=
  match o with
  | Returns r => f <$> r.1 !! F
  | Faults _ => None
  end.

(** The map returned by a run, without the stream. *)
Definition registry_of (o : outcome (Result * raw_ostream)) : outcome Result :=
  r ← o; Returns r.1.

(** ** Changes of the graph and scenarios *)

(** The graph with one more call record [J] in the node stored under [k]. *)
Definition add_call (CG : CallGraph) (k : option Function) (J : CallRecord)
    : CallGraph :=
  {| FunctionMap := alter (λ recs, recs ++ [J]) k (FunctionMap CG) |}.

(** [calls], decided. *)
Definition calls_b (CG : CallGraph) (u v : CallGraphNode) : bool :=
  match u with
  | NodeOf k =>
      match FunctionMap CG !! k with
      | Some recs => bool_decide (v ∈ second <$> recs)
      | None => false
      end
  | CallsExternal => false
  end.

(** [walk (calls CG)], decided. *)
Fixpoint walk_b (CG : CallGraph) (u : CallGraphNode) (via : list CallGraphNode)
    (v : CallGraphNode) : bool :=
  match via with
  | [] => calls_b CG u v
  | w :: via => calls_b CG u w && walk_b CG w via v
  end.

(** No function calls [u]: no call site has [u] as its called node.  The
    records of the external calling node are no calls. *)
Definition is_root (CG : CallGraph) (u : CallGraphNode) : bool :=
  forallb (λ J, bool_decide (second J ≠ u)) (call_sites CG).

(** The scenario of a chain [A → B → C]: [roots] are ten distinct
    functions, each with the inner nodes of a walk to [C], and [C] is a
    function of the registry whose [Dirname] is [drv]. *)
Definition chain_scenario (CG : CallGraph) (MMIOFuncs : FindMMIOFunc_Result)
    (A B C : Function) (roots : list (Function * list CallGraphNode))
    (drv : string) : bool :=
  calls_b CG (NodeOf (Some A)) (NodeOf (Some B))
  && calls_b CG (NodeOf (Some B)) (NodeOf (Some C))
  && bool_decide (NoDup roots.*1)
  && bool_decide (length roots = 10)
  && forallb (λ r, walk_b CG (NodeOf (Some r.1)) r.2 (NodeOf (Some C))) roots
  && bool_decide
       (Dirname <$> (MMIOFuncs !! C ≫= λ P, new_MMIOFunc P C) = Some drv).

(** The ten functions of the scenario are roots. *)
Definition all_roots (CG : CallGraph)
    (roots : list (Function * list CallGraphNode)) : bool :=
  forallb (λ r, is_root CG (NodeOf (Some r.1))) roots.

(** [C] is the only function of the registry whose [Dirname] is [drv]. *)
Definition sole_in (MMIOFuncs : FindMMIOFunc_Result) (C : Function)
    (drv : string) : bool :=
  forallb (λ Node,
             bool_decide (Dirname <$> new_MMIOFunc Node.2 Node.1 = Some drv
                          ↔ Node.1 = C))
          (map_to_list MMIOFuncs).

(** ** Vocabulary of the further properties *)

(** The characters of a string. *)
Fixpoint chars_of (s : string) : list ascii :=
  match s with
  | EmptyString => []
  | String c rest => c :: chars_of rest
  end.

(** The separators [find_last_of] looks for in the constructor. *)
Definition separators : list ascii := ["/"%char; "\"%char].

(** [hal(?!t)]: an occurrence of "hal" that no "t" follows. *)
Definition hal_not_t (Str : string) : Prop :=
  ∃ pre suf, Str = pre +:+ "hal" +:+ suf ∧ ∀ suf', suf ≠ String "t" suf'.

(** The regular expression in the comment of [isHalRegexInternal],
    [hal(?!t)|driver|cmsis|arch|soc], searched in [Str]. *)
Definition comment_regex (Str : string) : Prop :=
  hal_not_t Str ∨ contains Str "driver" ∨ contains Str "cmsis"
  ∨ contains Str "arch" ∨ contains Str "soc".

(** [InDegrees[CGN2Num.at(CG[F])]] for the closed matrix [A]. *)
Definition degree_of (CG : CallGraph) (A : list Z) (F : Function) : Z :=
  column_sums (TotNumOfCGN CG) A
    !!! default 0 (CGN2Num CG !! NodeOf (Some F)).

(** The number of call records that call the node of [F]. *)
Definition calls_of (CG : CallGraph) (F : Function) : Z :=
  Z.of_nat (length (filter (calls_to F) (CallGraph_records CG))).

(** What the last loop of [callGraphBasedHalIdent] does to an entry. *)
Definition mark_HalDir (HalDirs : list string) (MF : MMIOFunc) : MMIOFunc :=
  if bool_decide (Dirname MF ∈ HalDirs) then set_IsHal2 true MF else MF.

(** The record [J] calls the node of a function of the map. *)
Definition calls_into {V} (m : gmap Function V) (J : CallRecord) : Prop :=
  match CallGraphNode_getFunction (second J) with
  | Some F => is_Some (m !! F)
  | None => False
  end.

Global Instance calls_into_dec {V} (m : gmap Function V) J :
  Decision (calls_into m J).
Proof. unfold calls_into. destruct (CallGraphNode_getFunction _); apply _. Defined.

(** The sum of the [InDegree]s of a registry. *)
Definition total_InDegree (m : Result) : Z :=
  foldr (λ I s, InDegree I.2 + s)%Z 0%Z (map_to_list m).

(** The record [J] calls the node of a function of the list. *)
Definition calls_among (ks : list Function) (J : CallRecord) : Prop :=
  match CallGraphNode_getFunction (second J) with
  | Some F => F ∈ ks
  | None => False
  end.

Global Instance calls_among_dec ks J : Decision (calls_among ks J).
Proof. unfold calls_among. destruct (CallGraphNode_getFunction _); apply _. Defined.

(** ** The name heuristic in the words of the specification *)

(** The capital letters with their small letters. *)
Definition letters : list (ascii * ascii) :=
  zip (chars_of "ABCDEFGHIJKLMNOPQRSTUVWXYZ")
      (chars_of "abcdefghijklmnopqrstuvwxyz").

Fixpoint small_letter (table : list (ascii * ascii)) (c : ascii) : ascii :=
  match table with
  | [] => c
  | (capital, small) :: table =>
      if decide (c = capital) then small else small_letter table c
  end.

(** "Normalize to lowercase": a capital letter becomes its small letter,
    every other character stays. *)
Fixpoint lowercase (s : string) : string :=
  match s with
  | EmptyString => EmptyString
  | String c s => String (small_letter letters c) (lowercase s)
  end.

(** [isHalByName] of a string. *)
Definition isHalByName (s : string) : Prop :=
  let Str := lowercase s in
  (contains Str "hal" ∧ ¬ contains Str "halt")
  ∨ contains Str "driver" ∨ contains Str "arch"
  ∨ contains Str "soc" ∨ contains Str "cmsis".

(** ** The report as a text *)

(** The text a stream holds: its chunks one after the other. *)
Definition text (OutS : raw_ostream) : string :=
  foldr String.app EmptyString OutS.

(** [:line], and [:col] unless the column is 0. *)
Definition line_col (Line Col : N) : string :=
  ":" +:+ pretty Line
  +:+ (if decide (Col = 0%N) then EmptyString else ":" +:+ pretty Col).

(** The inlining chain of a location inlined at [DL]: [ @[ file:line[:col] ]]
    with, before the closing bracket, the chain of [DL] itself; nothing
    when [DL] is null. *)
Fixpoint inlining_chain (DL : DebugLoc) : string :=
  match DL with
  | DebugLoc_null => EmptyString
  | DebugLoc_at _ Filename Line Col InlinedAt =>
      " @[ " +:+ Filename +:+ line_col Line Col
      +:+ inlining_chain InlinedAt +:+ " ]"
  end.

(** The location string [directory/file:line[:col]] with the inlining
    chain; nothing for an instruction without location. *)
Definition location_text (DL : DebugLoc) : string :=
  match DL with
  | DebugLoc_null => EmptyString
  | DebugLoc_at Directory Filename Line Col InlinedAt =>
      Directory +:+ "/" +:+ Filename +:+ line_col Line Col
      +:+ inlining_chain InlinedAt
  end.

(** The line of a function: name, location, [InDegree],
    [TransClosureInDeg] and [IsHal2] as 0 or 1. *)
Definition function_line (Node : Function * MMIOFunc) : string :=
  Function_getName Node.1
  +:+ " " +:+ location_text (getDebugLoc (MMIOIns (Parent Node.2)))
  +:+ " " +:+ pretty (InDegree Node.2)
  +:+ " " +:+ pretty (TransClosureInDeg Node.2)
  +:+ " " +:+ (if IsHal2 Node.2 then "1" else "0")
  +:+ nl.

(** A section: title, number of functions, one line per function. *)
Definition section_text (title : string) (MMIOFuncs : Result) : string :=
  "=================================================" +:+ nl
  +:+ "LLVM-TUTOR: " +:+ title
  +:+ " (# = " +:+ pretty (size MMIOFuncs) +:+ ")" +:+ nl
  +:+ "Function, Location of MMIO inst" +:+ nl
  +:+ "-------------------------------------------------" +:+ nl
  +:+ text (function_line <$> map_to_list MMIOFuncs)
  +:+ "-------------------------------------------------" +:+ nl +:+ nl.

(** * Concrete inputs *)

(** A chain [A → B → C] whose head [A] is a root, and nine more roots that
    call [B] or [C]; [C] is the only MMIO function of [/drv], [X] is an MMIO
    function nobody calls. *)
Module Chain.

Definition mkFunction (address : N) (name dir file : string) : Function :=
  {| Function_address := address;
     Function_getName := name;
     getSubprogram :=
       Some {| getName := name; getLinkageName := name;
               getFile := Some {| DIFile_getFilename := file;
                                  DIFile_getDirectory := dir |} |} |}.

Definition fA : Function := mkFunction 1 "A" "/app" "a.c".
Definition fB : Function := mkFunction 2 "B" "/app" "b.c".
Definition fC : Function := mkFunction 3 "C" "/drv" "c.c".
Definition fX : Function := mkFunction 4 "X" "/app" "x.c".
Definition fR2 : Function := mkFunction 12 "R2" "/app" "r.c".
Definition fR3 : Function := mkFunction 13 "R3" "/app" "r.c".
Definition fR4 : Function := mkFunction 14 "R4" "/app" "r.c".
Definition fR5 : Function := mkFunction 15 "R5" "/app" "r.c".
Definition fR6 : Function := mkFunction 16 "R6" "/app" "r.c".
Definition fR7 : Function := mkFunction 17 "R7" "/app" "r.c".
Definition fR8 : Function := mkFunction 18 "R8" "/app" "r.c".
Definition fR9 : Function := mkFunction 19 "R9" "/app" "r.c".
Definition fR10 : Function := mkFunction 20 "R10" "/app" "r.c".

Definition node (F : Function) : CallGraphNode := NodeOf (Some F).

Definition call (F : Function) : CallRecord := {| second := node F |}.

Definition CG : CallGraph :=
  {| FunctionMap := list_to_map
       [(None, []);
        (Some fA, [call fB]);
        (Some fB, [call fC]);
        (Some fC, [{| second := CallsExternal |}]);
        (Some fX, []);
        (Some fR2, [call fB]); (Some fR3, [call fB]); (Some fR4, [call fB]);
        (Some fR5, [call fB]); (Some fR6, [call fB]);
        (Some fR7, [call fC]); (Some fR8, [call fC]);
        (Some fR9, [call fB; call fC]);
        (Some fR10, [call fC; call fC])] |}.

Definition ins : FindMMIOFunc_MMIOFunc :=
  {| MMIOIns :=
       {| getDebugLoc :=
            DebugLoc_at "/drv" "c.c" 7 3
              (DebugLoc_at "/app" "a.c" 21 0 DebugLoc_null) |} |}.

Definition MMIOFuncs : FindMMIOFunc_Result :=
  list_to_map [(fC, ins); (fX, ins)].

(** A registry as an earlier run could have left it. *)
Definition stale_entry : MMIOFunc :=
  {| Parent := ins; IsHal := true; IsHal2 := true;
     FullPath := "/drv/c.c"; Dirname := "/drv";
     InDegree := 5; TransClosureInDeg := 42 |}.

Definition stale : Result := {[ fC := stale_entry ]}.

(** The graph after [C] got a call of itself. *)
Definition CG_self_call : CallGraph := add_call CG (Some fC) (call fC).

(** The ten roots with the inner nodes of a walk to [C]. *)
Definition roots : list (Function * list CallGraphNode) :=
  [(fA, [node fB]); (fR2, [node fB]); (fR3, [node fB]); (fR4, [node fB]);
   (fR5, [node fB]); (fR6, [node fB]);
   (fR7, []); (fR8, []); (fR9, [node fB]); (fR10, [])].

End Chain.

(** A registry with a function that has no [DISubprogram]. *)
Module NoDebugInfo.

Definition fN : Function :=
  {| Function_address := 40; Function_getName := "N";
     getSubprogram := None |}.

Definition CG : CallGraph :=
  {| FunctionMap := list_to_map
       [(None, []); (Some fN, []);
        (Some Chain.fA, [{| second := NodeOf (Some fN) |}])] |}.

Definition MMIOFuncs : FindMMIOFunc_Result :=
  list_to_map [(fN, Chain.ins)].

End NoDebugInfo.

(** Graphs and registries on which a stage faults. *)
Module Broken.

(** A closed graph without the function [C]. *)
Definition CG_small : CallGraph :=
  {| FunctionMap := list_to_map [(None, []); (Some Chain.fA, [])] |}.

(** A graph with a call record whose called node is not in the graph. *)
Definition CG_dangling : CallGraph :=
  {| FunctionMap :=
       list_to_map [(None, []); (Some Chain.fA, [Chain.call Chain.fB])] |}.

(** A function whose [DISubprogram] has no [DIFile]. *)
Definition fNoFile : Function :=
  {| Function_address := 41; Function_getName := "hal_nofile";
     getSubprogram := Some {| getName := "hal_nofile";
                              getLinkageName := "hal_nofile";
                              getFile := None |} |}.

Definition MMIOFuncs_NoFile : FindMMIOFunc_Result :=
  list_to_map [(Chain.fC, Chain.ins); (fNoFile, Chain.ins)].

End Broken.

(** The chain with one more function [D] in the directory of [C]; nobody
    calls [D]. *)
Module Shared.

Definition fD : Function := Chain.mkFunction 5 "D" "/drv" "d.c".

Definition CG : CallGraph :=
  {| FunctionMap := <[Some fD := []]> (FunctionMap Chain.CG) |}.

Definition MMIOFuncs : FindMMIOFunc_Result :=
  list_to_map [(Chain.fC, Chain.ins); (fD, Chain.ins)].

End Shared.

(** The chain with [D] as LLVM builds it when [A], the roots and [C] have
    external linkage: the external calling node has a call record for each
    of them. *)
Module Visible.

Definition CG : CallGraph :=
  {| FunctionMap :=
       <[None := Chain.call <$> [Chain.fA; Chain.fR2; Chain.fR3; Chain.fR4;
                                 Chain.fR5; Chain.fR6; Chain.fR7; Chain.fR8;
                                 Chain.fR9; Chain.fR10; Chain.fC]]>
         (FunctionMap Shared.CG) |}.

(** A graph in which no function calls [C]; [C] has external linkage. *)
Definition CG_uncalled : CallGraph :=
  {| FunctionMap :=
       list_to_map [(None, [Chain.call Chain.fC]);
                    (Some Chain.fC, [{| second := CallsExternal |}])] |}.

End Visible.

(** The chain without the calls of [R10]: exactly ten functions reach [C],
    [B] among them. *)
Module Ten.

Definition CG : CallGraph :=
  {| FunctionMap := <[Some Chain.fR10 := []]> (FunctionMap Chain.CG) |}.

Definition reaching : list (Function * list CallGraphNode) :=
  [(Chain.fA, [Chain.node Chain.fB]); (Chain.fB, []);
   (Chain.fR2, [Chain.node Chain.fB]); (Chain.fR3, [Chain.node Chain.fB]);
   (Chain.fR4, [Chain.node Chain.fB]); (Chain.fR5, [Chain.node Chain.fB]);
   (Chain.fR6, [Chain.node Chain.fB]);
   (Chain.fR7, []); (Chain.fR8, []); (Chain.fR9, [Chain.node Chain.fB])].

End Ten.

(** Functions for the name heuristic. *)
Module Names.

(** A function whose file name has a directory part. *)
Definition fHalt : Function := Chain.mkFunction 50 "f" "/src" "hal/halt.c".

(** A function with capital letters in its name. *)
Definition fInit : Function :=
  Chain.mkFunction 51 "HAL_Init" "/app" "main.c".

Definition CG : CallGraph :=
  {| FunctionMap :=
       list_to_map [(None, []); (Some fHalt, []); (Some fInit, [])] |}.

Definition MMIOFuncs : FindMMIOFunc_Result :=
  list_to_map [(fHalt, Chain.ins); (fInit, Chain.ins)].

End Names.

(** * Properties *)

Example isHalRegexInternal_HAL_Init :
  isHalRegexInternal "HAL_Init" = true ∧ isHalRegexInternal "hal_init" = true.
Proof. split; reflexivity. Qed.

Example isHalRegexInternal_UART_HALT_ms :
  isHalRegexInternal "UART_HALT_ms" = false ∧
  isHalRegexInternal "HAL_UART" = true.
Proof. split; reflexivity. Qed.


Example MMIOFunc_ctor_Dirname :
  Dirname <$> new_MMIOFunc Chain.ins
                (Chain.mkFunction 9 "f" "/home/fw" "Drivers/uart/uart.c")
  = Some "/home/fw/Drivers/uart".
Proof. reflexivity. Qed.

Example runOnModule_Chain :
  read (runOnModule ∅ Chain.CG Chain.MMIOFuncs []) Chain.fC
    (λ MF, (InDegree MF, TransClosureInDeg MF, IsHal MF, IsHal2 MF))
  = Some (6%Z, 11%Z, false, true) ∧
  read (runOnModule ∅ Chain.CG Chain.MMIOFuncs []) Chain.fX
    (λ MF, (InDegree MF, TransClosureInDeg MF, IsHal MF, IsHal2 MF))
  = Some (0%Z, 0%Z, false, false).
Proof. split; vm_compute; reflexivity. Qed.

(** ** Strings *)

Lemma append_cons (c : ascii) (s1 s2 : string) :
  String c s1 +:+ s2 = String c (s1 +:+ s2).
Proof. reflexivity. Qed.

Lemma prefix_append (p s : string) :
  String.prefix p s = true ↔ ∃ suf, s = p +:+ suf.
Proof.
  revert p. induction s as [|d s IH]; intros [|c p]; simpl.
  - split; [intros _; by exists EmptyString | done].
  - split; [done | intros [suf Hs]; discriminate].
  - split; [intros _; by exists (String d s) | done].
  - destruct (Ascii.ascii_dec c d) as [->|Hne].
    + rewrite IH. split; intros [suf Hs]; exists suf.
      * by rewrite append_cons, Hs.
      * rewrite append_cons in Hs. congruence.
    + split; [done | intros [suf Hs]].
      rewrite append_cons in Hs. congruence.
Qed.

Lemma find_contains (Str pat : string) :
  found (find Str pat) = true ↔ contains Str pat.
Proof.
  unfold found, contains. rewrite bool_decide_eq_true.
  induction Str as [|c Str IH]; cbn [find].
  - destruct (String.prefix pat EmptyString) eqn:Hp.
    + apply prefix_append in Hp as [suf Hs].
      split; [intros _; by exists EmptyString, suf | done].
    + split; [done |]. intros (pre & suf & Hs). exfalso.
      destruct pre; [|discriminate].
      assert (String.prefix pat EmptyString = true) as Hp'
        by (apply prefix_append; eauto).
      congruence.
  - destruct (String.prefix pat (String c Str)) eqn:Hp.
    + apply prefix_append in Hp as [suf Hs].
      split; [intros _; by exists EmptyString, suf | done].
    + destruct (find Str pat) as [i|] eqn:Hf; simpl.
      * split; [intros _ | done].
        destruct IH as [IH _]. destruct IH as (pre & suf & Hs); [done|].
        exists (String c pre), suf. by rewrite append_cons, Hs.
      * split; [done |]. intros (pre & suf & Hs). exfalso.
        destruct pre as [|d pre].
        -- assert (String.prefix pat (String c Str) = true) as Hp'
             by (apply prefix_append; eauto).
           congruence.
        -- rewrite append_cons in Hs. injection Hs as _ Hs.
           destruct IH as [_ IH]. apply IH; [by exists pre, suf | done].
Qed.

Lemma isHalRegexInternal_contains (Name : string) :
  isHalRegexInternal Name = true ↔
    let Str := transform_tolower Name in
    (contains Str "hal" ∧ ¬ contains Str "halt")
    ∨ contains Str "driver" ∨ contains Str "arch"
    ∨ contains Str "soc" ∨ contains Str "cmsis".
Proof.
  unfold isHalRegexInternal. cbv zeta.
  rewrite !orb_true_iff, andb_true_iff, negb_true_iff.
  rewrite <- !find_contains.
  destruct (found (find (transform_tolower Name) "halt")); intuition congruence.
Qed.

(** ** Loops *)

Lemma for_each_app {A S} (body : S → A → outcome S) l1 l2 acc :
  for_each body (l1 ++ l2) acc =
    (acc' ← for_each body l1 acc; for_each body l2 acc').
Proof.
  revert acc. induction l1 as [|x l1 IH]; intros acc; simpl; [done|].
  destruct (body acc x) as [acc'|e]; simpl; [apply IH | done].
Qed.

Lemma for_each_nested {A B S} (body : S → B → outcome S) (l : list (A * list B))
    acc :
  for_each (λ acc I, for_each body I.2 acc) l acc =
    for_each body (concat (l.*2)) acc.
Proof.
  revert acc. induction l as [|I l IH]; intros acc; simpl; [done|].
  rewrite for_each_app.
  destruct (for_each body I.2 acc) as [acc'|e]; simpl; [apply IH | done].
Qed.

(** ** Direct in-degrees *)

Lemma set_InDegree_id MF : set_InDegree (InDegree MF) MF = MF.
Proof. by destruct MF. Qed.

Lemma count_call_lookup (m : Result) J :
  (∀ F MF, m !! F = Some MF → (InDegree MF < INT_MAX)%Z) →
  ∃ m', count_call m J = Returns m' ∧
    ∀ F, m' !! F =
      (λ MF, set_InDegree
               (InDegree MF + if bool_decide (calls_to F J) then 1 else 0) MF)
      <$> m !! F.
Proof.
  intros Hb. unfold count_call.
  destruct (CallGraphNode_getFunction (second J)) as [Callee|] eqn:HC.
  - destruct (m !! Callee) as [MF|] eqn:Hm.
    + rewrite bool_decide_eq_true_2 by eauto.
      eexists; split; [done|]. intros F.
      destruct (decide (Callee = F)) as [->|Hne].
      * rewrite lookup_insert_eq, Hm. simpl.
        by rewrite bool_decide_eq_true_2 by done.
      * rewrite lookup_insert_ne by done.
        rewrite bool_decide_eq_false_2 by (unfold calls_to; congruence).
        destruct (m !! F) as [MF'|]; simpl; [|done].
        by rewrite Z.add_0_r, set_InDegree_id.
    + eexists; split; [done|]. intros F.
      destruct (m !! F) as [MF'|] eqn:HF; simpl; [|done].
      rewrite bool_decide_eq_false_2 by (unfold calls_to; congruence).
      by rewrite Z.add_0_r, set_InDegree_id.
  - eexists; split; [done|]. intros F.
    destruct (m !! F) as [MF'|] eqn:HF; simpl; [|done].
    rewrite bool_decide_eq_false_2 by (unfold calls_to; congruence).
    by rewrite Z.add_0_r, set_InDegree_id.
Qed.

Lemma for_each_count_call l (m : Result) :
  (∀ F MF, m !! F = Some MF → (InDegree MF + Z.of_nat (length l) ≤ INT_MAX)%Z) →
  ∃ m', for_each count_call l m = Returns m' ∧
    ∀ F, m' !! F =
      (λ MF, set_InDegree
               (InDegree MF + Z.of_nat (length (filter (calls_to F) l))) MF)
      <$> m !! F.
Proof.
  revert m. induction l as [|J l IH]; intros m Hb.
  - eexists; split; [done|]. intros F. simpl.
    destruct (m !! F) as [MF|]; simpl; [|done].
    by rewrite Z.add_0_r, set_InDegree_id.
  - destruct (count_call_lookup m J) as (m1 & Hm1 & Hl1).
    { intros F MF HF. specialize (Hb F MF HF). simpl in Hb. lia. }
    destruct (IH m1) as (m' & Hm' & Hl').
    { intros F MF HF. rewrite Hl1 in HF.
      destruct (m !! F) as [MF0|] eqn:HF0; simplify_eq/=.
      specialize (Hb F MF0 HF0). simpl in Hb. case_bool_decide; lia. }
    exists m'. split; [simpl; by rewrite Hm1|].
    intros F. rewrite Hl', Hl1. destruct (m !! F) as [MF|]; simpl; [|done].
    f_equal. rewrite filter_cons. unfold set_InDegree; simpl.
    f_equal. repeat case_bool_decide; case_decide; simpl; try done; lia.
Qed.

Lemma computeCallGraphInDegrees_lookup CG (m : Result) :
  (Z.of_nat (length (CallGraph_records CG)) ≤ INT_MAX)%Z →
  ∃ m', computeCallGraphInDegrees CG m = Returns m' ∧
    ∀ F, m' !! F =
      set_InDegree
        (Z.of_nat (length (filter (calls_to F) (CallGraph_records CG))))
      <$> m !! F.
Proof.
  intros Hb. unfold computeCallGraphInDegrees. rewrite for_each_nested.
  destruct (for_each_count_call (CallGraph_records CG) (set_InDegree 0 <$> m))
    as (m' & Hm' & Hl').
  { intros F MF. rewrite lookup_fmap. intros HF.
    destruct (m !! F); simplify_eq/=. lia. }
  exists m'. split; [done|]. intros F. rewrite Hl', lookup_fmap.
  by destruct (m !! F).
Qed.

(** ** One pass of the closure *)

Section closure_pass.
Context (N : nat).
Implicit Types A : list Z.

Lemma index_inj i j i' j' :
  j < N → j' < N → i * N + j = i' * N + j' → i = i' ∧ j = j'.
Proof.
  intros Hj Hj' Heq.
  destruct (Nat.lt_trichotomy i i') as [Hlt|[->|Hlt]]; [|lia|].
  - pose proof (Nat.mul_le_mono_r (S i) i' N ltac:(lia)). lia.
  - pose proof (Nat.mul_le_mono_r (S i') i N ltac:(lia)). lia.
Qed.

Lemma index_lt i j : i < N → j < N → i * N + j < N * N.
Proof.
  intros Hi Hj. pose proof (Nat.mul_le_mono_r (S i) N N ltac:(lia)). lia.
Qed.

Lemma foldl_seq_S {S} (f : S → nat → S) (a : S) n :
  foldl f a (seq 0 (Datatypes.S n)) = f (foldl f a (seq 0 n)) n.
Proof. by rewrite seq_S, foldl_app. Qed.

Lemma entry_insert A i j i' j' b :
  i < N → j < N → i' < N → j' < N → length A = N * N →
  entry N (<[i * N + j := of_bool b]> A) i' j' =
    if decide (i = i' ∧ j = j') then b else entry N A i' j'.
Proof.
  intros Hi Hj Hi' Hj' Hlen. unfold entry, cell.
  rewrite list_lookup_total_insert.
  pose proof (index_lt i j Hi Hj).
  destruct (decide (i = i' ∧ j = j')) as [[-> ->]|Hne].
  - rewrite decide_True by (split; [done|lia]). by destruct b.
  - rewrite decide_False; [done|]. intros [Heq _]. apply Hne.
    by apply index_inj.
Qed.

Lemma row_pass K I A n :
  K < N → I < N → n ≤ N → length A = N * N →
  let A' := foldl (λ A J, closure_step N K I J A) A (seq 0 n) in
  length A' = N * N ∧
  ∀ i j, i < N → j < N →
    entry N A' i j =
      if decide (i = I ∧ j < n)
      then entry N A I j || (entry N A I K && entry N A K j)
      else entry N A i j.
Proof.
  intros HK HI Hn Hlen. induction n as [|n IH]; cbv zeta.
  - split; [done|]. intros i j Hi Hj. case_decide; [lia | done].
  - rewrite foldl_seq_S. destruct IH as [IHlen IH]; [lia|].
    set (A' := foldl _ A (seq 0 n)) in *.
    unfold closure_step. split; [by rewrite length_insert|].
    intros i j Hi Hj. fold (entry N A' I n) (entry N A' I K) (entry N A' K n).
    rewrite entry_insert by (done || lia).
    rewrite !IH by (done || lia).
    repeat case_decide; try (exfalso; lia);
      destruct_and?; simplify_eq; try done;
      try (by destruct (entry N A I K), (entry N A K K), (entry N A I n),
                       (entry N A K n));
      try (by destruct (entry N A K K), (entry N A K n)).
    all: by destruct (entry N A I K), (entry N A K K), (entry N A I j),
                     (entry N A K j).
Qed.

Lemma matrix_pass K A n :
  K < N → n ≤ N → length A = N * N →
  let A' := foldl (λ A I, foldl (λ A J, closure_step N K I J A) A (seq 0 N))
                  A (seq 0 n) in
  length A' = N * N ∧
  ∀ i j, i < N → j < N →
    entry N A' i j =
      if decide (i < n)
      then entry N A i j || (entry N A i K && entry N A K j)
      else entry N A i j.
Proof.
  intros HK Hn Hlen. induction n as [|n IH]; cbv zeta.
  - split; [done|]. intros i j Hi Hj. case_decide; [lia | done].
  - rewrite foldl_seq_S. destruct IH as [IHlen IH]; [lia|].
    set (A' := foldl _ A (seq 0 n)) in *.
    destruct (row_pass K n A' N) as [Hlen' Hrow]; [lia..|done|].
    split; [done|]. intros i j Hi Hj.
    rewrite Hrow by done. rewrite !IH by (done || lia).
    repeat case_decide; try lia; destruct_and?; simplify_eq; try done.
    all: by destruct (entry N A K K), (entry N A K j).
Qed.

Lemma closure_step_bits K I J A :
  Forall bit A → Forall bit (closure_step N K I J A).
Proof.
  intros HA. unfold closure_step. apply Forall_insert; [done|].
  unfold bit, of_bool. destruct (_ || _); auto.
Qed.

Lemma foldl_preserves {S X} (P : S → Prop) (f : S → X → S) l a :
  (∀ a x, P a → P (f a x)) → P a → P (foldl f a l).
Proof.
  intros Hf. revert a. induction l as [|x l IH]; intros a Ha; simpl; auto.
Qed.

Lemma closure_loops_bits A : Forall bit A → Forall bit (closure_loops N A).
Proof.
  intros HA. unfold closure_loops.
  apply foldl_preserves; [|done]. intros A1 K HA1.
  apply foldl_preserves; [|done]. intros A2 I HA2.
  apply foldl_preserves; [|done]. intros A3 J HA3.
  by apply closure_step_bits.
Qed.

Lemma walk_app {V} (E : relation V) u l1 w l2 v :
  walk E u l1 w → walk E w l2 v → walk E u (l1 ++ w :: l2) v.
Proof.
  revert u. induction l1 as [|x l1 IH]; intros u; simpl; [done|].
  intros [Hux Hx] Hw. split; [done|]. by apply IH.
Qed.

Lemma through_S A k i j :
  through N A (S k) i j ↔
    through N A k i j ∨ (through N A k i k ∧ through N A k k j).
Proof.
  split.
  - intros (via & Hvia & Hw). revert i Hw.
    induction via as [|v via IH]; intros i Hw.
    + left. by exists [].
    + destruct Hw as [Hiv Hw]. apply Forall_cons in Hvia as [Hv Hvia].
      destruct (decide (v = k)) as [->|Hne].
      * right. split; [by exists []|].
        destruct (IH Hvia k Hw) as [?|[_ ?]]; done.
      * assert (v < k) as Hvk by lia.
        destruct (IH Hvia v Hw) as [(l & Hl & Hwl)|[(l & Hl & Hwl) Hkj]].
        -- left. exists (v :: l). split; [by constructor | done].
        -- right. split; [|done]. exists (v :: l).
           split; [by constructor | done].
  - intros [(via & Hvia & Hw)|[(l1 & Hl1 & Hw1) (l2 & Hl2 & Hw2)]].
    + exists via. split; [|done]. eapply Forall_impl; [done|]. simpl. lia.
    + exists (l1 ++ k :: l2). split; [|by apply walk_app].
      apply Forall_app. split; [eapply Forall_impl; [done|]; simpl; lia|].
      constructor; [lia|]. eapply Forall_impl; [done|]. simpl. lia.
Qed.

Lemma closure_invariant A k :
  k ≤ N → length A = N * N →
  let A' := foldl (λ A K,
              foldl (λ A I,
                foldl (λ A J, closure_step N K I J A) A (seq 0 N))
                A (seq 0 N))
              A (seq 0 k) in
  length A' = N * N ∧
  ∀ i j, i < N → j < N → entry N A' i j = true ↔ through N A k i j.
Proof.
  intros Hk Hlen. induction k as [|k IH]; cbv zeta.
  - split; [done|]. intros i j Hi Hj. split.
    + intros He. exists []. split; [done|]. by repeat split.
    + intros ([|v via] & Hvia & Hw); simpl in Hw.
      * by destruct Hw as (_ & _ & ?).
      * apply Forall_cons in Hvia as [? _]. lia.
  - rewrite foldl_seq_S. destruct IH as [IHlen IH]; [lia|].
    set (A' := foldl _ A (seq 0 k)) in *.
    destruct (matrix_pass k A' N) as [Hlen' Hpass]; [lia..|done|].
    split; [done|]. intros i j Hi Hj.
    rewrite Hpass by done. rewrite decide_True by done.
    rewrite through_S, orb_true_iff, andb_true_iff.
    rewrite !IH by (done || lia). done.
Qed.

Lemma walk_tc {V} (E : relation V) u v :
  tc E u v ↔ ∃ via, walk E u via v.
Proof.
  split.
  - induction 1 as [x y Hxy|x y z Hxy _ [via Hvia]].
    + by exists [].
    + by exists (y :: via).
  - intros [via Hw]. revert u Hw.
    induction via as [|w via IH]; intros u; simpl.
    + apply tc_once.
    + intros [Huw Hw]. eapply tc_l; [done|]. by apply IH.
Qed.

Lemma walk_edge_bound A i via j :
  walk (edge N A) i via j → Forall (λ v, v < N) via.
Proof.
  revert i. induction via as [|v via IH]; intros i; simpl; [done|].
  intros [(_ & Hv & _) Hw]. constructor; [done|]. by eapply IH.
Qed.

(** The triple loop computes the transitive closure of the matrix. *)
Lemma closure_loops_tc A :
  length A = N * N →
  length (closure_loops N A) = N * N ∧
  ∀ i j, i < N → j < N →
    entry N (closure_loops N A) i j = true ↔ tc (edge N A) i j.
Proof.
  intros Hlen. destruct (closure_invariant A N) as [Hlen' Hinv]; [done..|].
  split; [done|]. intros i j Hi Hj. unfold closure_loops.
  rewrite Hinv by done. rewrite walk_tc. split.
  - intros (via & _ & Hw). by exists via.
  - intros [via Hw]. exists via. split; [|done].
    by eapply walk_edge_bound.
Qed.
End closure_pass.

(** ** Column sums *)

Lemma bit_cell A p : Forall bit A → p < length A →
  A !!! p = of_bool (cell A p).
Proof.
  intros HA Hp. destruct (lookup_lt_is_Some_2 A p Hp) as [z Hz].
  rewrite (list_lookup_total_correct _ _ _ Hz).
  unfold cell. rewrite (list_lookup_total_correct _ _ _ Hz).
  rewrite Forall_lookup in HA. destruct (HA p z Hz) as [->| ->]; done.
Qed.

Lemma column_sums_count N A :
  length A = N * N → Forall bit A →
  length (column_sums N A) = N ∧
  ∀ j, j < N →
    column_sums N A !!! j =
      Z.of_nat (length (filter (λ i, entry N A i j = true) (seq 0 N))).
Proof.
  intros Hlen HA. unfold column_sums.
  assert (∀ n, n ≤ N →
    let S := foldl (λ InDegrees I,
                      zip_with Z.add (take N (drop (I * N) A)) InDegrees)
                   (replicate N 0%Z) (seq 0 n) in
    length S = N ∧
    ∀ j, j < N →
      S !!! j = Z.of_nat (length (filter (λ i, entry N A i j = true) (seq 0 n))))
    as Hinv; [|by apply Hinv].
  induction n as [|n IH]; intros Hn; cbv zeta.
  - simpl. split; [by rewrite length_replicate|]. intros j Hj.
    by rewrite lookup_total_replicate_2.
  - rewrite foldl_seq_S. destruct IH as [IHlen IH]; [lia|].
    set (S := foldl _ _ (seq 0 n)) in *.
    assert (n < N) as Hn' by lia.
    assert (length (take N (drop (n * N) A)) = N) as Hrow.
    { rewrite length_take, length_drop, Hlen.
      pose proof (Nat.mul_le_mono_r (Datatypes.S n) N N ltac:(lia)). lia. }
    split; [rewrite length_zip_with; lia|]. intros j Hj.
    pose proof (index_lt N n j Hn' Hj) as Hp.
    destruct (lookup_lt_is_Some_2 A (n * N + j)) as [z Hz]; [lia|].
    destruct (lookup_lt_is_Some_2 S j) as [s Hs]; [lia|].
    assert (zip_with Z.add (take N (drop (n * N) A)) S !! j = Some (z + s)%Z)
      as Hzip.
    { rewrite lookup_zip_with, lookup_take_lt, lookup_drop, Hz by done.
      simpl. by rewrite Hs. }
    rewrite (list_lookup_total_correct _ _ _ Hzip).
    rewrite seq_S, filter_app, length_app, Nat2Z.inj_add, <- IH by done.
    rewrite (list_lookup_total_correct _ _ _ Hs).
    assert (z = of_bool (entry N A n j)) as ->.
    { unfold entry. rewrite <- bit_cell by (done || lia).
      by rewrite (list_lookup_total_correct _ _ _ Hz). }
    simpl. rewrite filter_cons, filter_nil.
    destruct (entry N A n j); case_decide; simpl; try done; lia.
Qed.

(** ** Numbering of the nodes *)

Global Instance NodeOf_inj : Inj (=) (=) NodeOf.
Proof. by intros ?? [=]. Qed.

Lemma number_nodes_snoc nodes I :
  number_nodes (nodes ++ [I]) =
    (<[NodeOf I.1 := (number_nodes nodes).2]> (number_nodes nodes).1,
     S (number_nodes nodes).2).
Proof. unfold number_nodes. by rewrite foldl_app. Qed.

Lemma number_nodes_lookup nodes :
  NoDup nodes.*1 →
  (number_nodes nodes).2 = length nodes ∧
  ∀ u i, (number_nodes nodes).1 !! u = Some i ↔
         (NodeOf <$> nodes.*1) !! i = Some u.
Proof.
  induction nodes as [|I nodes IH] using rev_ind; intros Hnd.
  - split; [done|]. intros u i. simpl. by rewrite lookup_empty, lookup_nil.
  - rewrite fmap_app in Hnd. apply NoDup_app in Hnd as (Hnd & Hfresh & _).
    destruct (IH Hnd) as [IHlen IHl]. rewrite number_nodes_snoc. simpl.
    split; [rewrite length_app; simpl; lia|]. intros u i.
    rewrite !fmap_app. simpl.
    assert (length (NodeOf <$> nodes.*1) = length nodes) as Hlen
      by by rewrite !length_fmap.
    destruct (decide (u = NodeOf I.1)) as [->|Hne].
    + rewrite lookup_insert_eq, IHlen. split.
      * intros [= <-]. rewrite lookup_app_r by lia.
        by rewrite Hlen, Nat.sub_diag.
      * intros Hi. f_equal.
        destruct (decide (i < length nodes)) as [Hlt|Hge].
        -- rewrite lookup_app_l in Hi by lia.
           apply list_elem_of_lookup_2 in Hi.
           apply list_elem_of_fmap in Hi as (k & [= <-] & Hk).
           exfalso. eapply Hfresh; [done|]. simpl. left.
        -- apply lookup_lt_Some in Hi. rewrite length_app in Hi.
           simpl in Hi. lia.
    + rewrite lookup_insert_ne by done. rewrite IHl. split.
      * intros Hi. by apply lookup_app_l_Some.
      * intros Hi. apply lookup_app_Some in Hi as [Hi|[Hge Hi]]; [done|].
        rewrite Hlen in Hi.
        destruct (i - length nodes) as [|n]; simplify_eq/=.
Qed.

Lemma vertices_length CG : length (vertices CG) = TotNumOfCGN CG.
Proof.
  unfold vertices, TotNumOfCGN. rewrite length_app, !length_fmap. simpl.
  destruct (number_nodes_lookup (CallGraph_nodes CG)) as [-> _]; [|lia].
  apply NoDup_fst_map_to_list.
Qed.

Lemma vertices_NoDup CG : NoDup (vertices CG).
Proof.
  unfold vertices. apply NoDup_app. split_and!.
  - apply (NoDup_fmap_2 _). apply NoDup_fst_map_to_list.
  - intros u Hu. apply list_elem_of_fmap in Hu as (k & -> & _).
  by intros ?%list_elem_of_singleton.
  - apply NoDup_singleton.
Qed.

Lemma CGN2Num_lookup CG u i :
  CGN2Num CG !! u = Some i ↔ vertices CG !! i = Some u.
Proof.
  unfold CGN2Num, vertices.
  destruct (number_nodes_lookup (CallGraph_nodes CG)) as [Hlen Hl];
    [apply NoDup_fst_map_to_list|].
  assert (length (NodeOf <$> (CallGraph_nodes CG).*1)
          = length (CallGraph_nodes CG)) as Hlen'
    by by rewrite !length_fmap.
  destruct (decide (u = CallsExternal)) as [->|Hne].
  - rewrite lookup_insert_eq, Hlen. split.
    + intros [= <-]. rewrite lookup_app_r by lia.
      by rewrite Hlen', Nat.sub_diag.
    + intros Hi. f_equal. apply lookup_app_Some in Hi as [Hi|[Hge Hi]].
      * apply list_elem_of_lookup_2, list_elem_of_fmap in Hi
          as (k & [=] & _).
      * apply lookup_lt_Some in Hi. simpl in Hi. lia.
  - rewrite lookup_insert_ne by done. rewrite Hl. split.
    + intros Hi. by apply lookup_app_l_Some.
    + intros Hi. apply lookup_app_Some in Hi as [Hi|[Hge Hi]]; [done|].
      rewrite Hlen' in Hi.
      destruct (i - length (CallGraph_nodes CG)) as [|n]; simplify_eq/=.
Qed.

Lemma CGN2Num_lt CG u i : CGN2Num CG !! u = Some i → i < TotNumOfCGN CG.
Proof.
  rewrite CGN2Num_lookup, <- vertices_length. apply lookup_lt_Some.
Qed.

Lemma CGN2Num_inj CG u v i :
  CGN2Num CG !! u = Some i → CGN2Num CG !! v = Some i → u = v.
Proof. rewrite !CGN2Num_lookup. congruence. Qed.

Lemma CGN2Num_is_Some CG u : u ∈ vertices CG → is_Some (CGN2Num CG !! u).
Proof.
  intros Hu. apply list_elem_of_lookup in Hu as [i Hi].
  exists i. by apply CGN2Num_lookup.
Qed.

(** ** The adjacency matrix *)

Lemma for_each_ind {A S} (P : S → list A → S → Prop)
    (body : S → A → outcome S) :
  (∀ acc, P acc [] acc) →
  (∀ acc x l acc' acc'',
      body acc x = Returns acc' → P acc' l acc'' → P acc (x :: l) acc'') →
  ∀ l acc acc', for_each body l acc = Returns acc' → P acc l acc'.
Proof.
  intros Hnil Hcons l. induction l as [|x l IH]; intros acc acc' Hrun.
  - simplify_eq/=. apply Hnil.
  - simpl in Hrun. destruct (body acc x) as [acc1|e] eqn:Hb; [|done].
    simpl in Hrun. eapply Hcons; [done|]. by apply IH.
Qed.

Lemma map_at_Some `{Countable K} {V} (m : gmap K V) k v :
  m !! k = Some v → map_at m k = Returns v.
Proof. unfold map_at. by intros ->. Qed.

Section adjacency.
Context (num : gmap CallGraphNode nat) (N : nat).
Context (num_lt : ∀ u i, num !! u = Some i → i < N).

Lemma mark_calls_spec A k recs :
  length A = N * N → Forall bit A →
  is_Some (num !! NodeOf k) →
  (∀ J, J ∈ recs → is_Some (num !! second J)) →
  ∃ A', mark_calls num N A (k, recs) = Returns A' ∧
    length A' = N * N ∧ Forall bit A' ∧
    ∀ i j, i < N → j < N →
      entry N A' i j = true ↔
        entry N A i j = true ∨
        ∃ J, J ∈ recs ∧ num !! NodeOf k = Some i ∧ num !! second J = Some j.
Proof.
  intros Hlen Hbit [c Hc] Hrecs. unfold mark_calls, map_at. simpl.
  rewrite Hc. cbn [mbind outcome_bind].
  revert A Hlen Hbit. induction recs as [|J recs IH]; intros A Hlen Hbit.
  - exists A. split_and!; [done..|]. intros i j Hi Hj. split; [auto|].
    intros [?|(J & HJ & _)]; [done|]. by apply elem_of_nil in HJ.
  - destruct (Hrecs J) as [d Hd]; [left|].
    cbn [for_each]. rewrite Hd. cbn [mbind outcome_bind].
    destruct (IH (λ J' HJ', Hrecs J' (list_elem_of_further _ _ _ HJ'))
                 (<[c * N + d := 1%Z]> A)) as (A' & HA' & Hlen' & Hbit' & HA'e).
    { by rewrite length_insert. }
    { apply Forall_insert; [done|]. by right. }
    exists A'. split_and!; [done..|]. intros i j Hi Hj.
    rewrite HA'e by done.
    change 1%Z with (of_bool true).
    rewrite entry_insert by eauto.
    split.
    + intros [He|(J' & HJ' & Hi' & Hj')].
      * case_decide as Hij; [|by left]. destruct Hij as [<- <-].
        right. exists J. split; [left|done].
      * right. exists J'. split; [by right|done].
    + intros [He|(J' & HJ' & Hi' & Hj')].
      * left. case_decide; done.
      * apply elem_of_cons in HJ' as [->|HJ'].
        -- left. rewrite decide_True; [done|]. split; congruence.
        -- right. by exists J'.
Qed.

Lemma mark_all_calls_spec nodes A :
  length A = N * N → Forall bit A →
  (∀ k recs, (k, recs) ∈ nodes →
     is_Some (num !! NodeOf k) ∧ ∀ J, J ∈ recs → is_Some (num !! second J)) →
  ∃ A', for_each (mark_calls num N) nodes A = Returns A' ∧
    length A' = N * N ∧ Forall bit A' ∧
    ∀ i j, i < N → j < N →
      entry N A' i j = true ↔
        entry N A i j = true ∨
        ∃ k recs J, (k, recs) ∈ nodes ∧ J ∈ recs ∧
          num !! NodeOf k = Some i ∧ num !! second J = Some j.
Proof.
  revert A. induction nodes as [|[k recs] nodes IH]; intros A Hlen Hbit Hok.
  - exists A. split_and!; [done..|]. intros i j Hi Hj. split; [auto|].
    intros [?|(k & recs & J & HI & _)]; [done|]. by apply elem_of_nil in HI.
  - destruct (Hok k recs) as [Hk Hrecs]; [left|].
    destruct (mark_calls_spec A k recs) as (A1 & HA1 & Hlen1 & Hbit1 & He1);
      [done..|].
    destruct (IH A1) as (A' & HA' & Hlen' & Hbit' & He'); [done..| |].
    { intros k' recs' HI. apply Hok. by right. }
    exists A'. split_and!; [simpl; by rewrite HA1|done..|].
    intros i j Hi Hj. rewrite He', He1 by done. split.
    + intros [[He|(J & HJ & Hi' & Hj')]|(k' & recs' & J & HI & HJ & Hi' & Hj')].
      * by left.
      * right. exists k, recs, J. split; [left|done].
      * right. exists k', recs', J. split; [by right|done].
    + intros [He|(k' & recs' & J & HI & HJ & Hi' & Hj')]; [by do 2 left|].
      apply elem_of_cons in HI as [[= -> ->]|HI].
      * left. right. by exists J.
      * right. by exists k', recs', J.
Qed.
End adjacency.

Lemma key_vertex CG k recs :
  FunctionMap CG !! k = Some recs → NodeOf k ∈ vertices CG.
Proof.
  intros Hk. unfold vertices.
  apply elem_of_app. left. apply list_elem_of_fmap. exists k. split; [done|].
  apply list_elem_of_fmap. exists (k, recs). split; [done|].
  by apply elem_of_map_to_list.
Qed.

Lemma calls_vertex_l CG u v : calls CG u v → u ∈ vertices CG.
Proof. intros (k & recs & J & -> & Hk & _). by eapply key_vertex. Qed.

Lemma cell_replicate n p : p < n → cell (replicate n 0%Z) p = false.
Proof. intros Hp. unfold cell. by rewrite lookup_total_replicate_2. Qed.

Lemma AdjMatrix_calls CG :
  closed CG →
  ∃ A, AdjMatrix CG = Returns A ∧
    length A = TotNumOfCGN CG * TotNumOfCGN CG ∧ Forall bit A ∧
    ∀ i j u v, vertices CG !! i = Some u → vertices CG !! j = Some v →
      entry (TotNumOfCGN CG) A i j = true ↔ calls CG u v.
Proof.
  intros Hclosed. unfold AdjMatrix.
  set (N := TotNumOfCGN CG).
  destruct (mark_all_calls_spec (CGN2Num CG) N (CGN2Num_lt CG)
              (CallGraph_nodes CG) (replicate (N * N) 0%Z))
    as (A & HA & Hlen & Hbit & He).
  { by rewrite length_replicate. }
  { apply Forall_replicate. by left. }
  { intros k recs HI. apply elem_of_map_to_list in HI. split.
    - apply CGN2Num_is_Some. by eapply key_vertex.
    - intros J HJ. apply CGN2Num_is_Some, (Hclosed (NodeOf k)).
      by exists k, recs, J. }
  exists A. split_and!; [done..|]. intros i j u v Hu Hv.
  assert (i < N ∧ j < N) as [Hi Hj].
  { unfold N. rewrite <- vertices_length. split; by eapply lookup_lt_Some. }
  rewrite He by done. unfold entry at 1.
  rewrite cell_replicate by by apply index_lt. split.
  - intros [?|(k & recs & J & HI & HJ & Hk & HJn)]; [done|].
    apply elem_of_map_to_list in HI.
    apply CGN2Num_lookup in Hk, HJn. exists k, recs, J.
    split_and!; [congruence|done..|congruence].
  - intros (k & recs & J & -> & Hk & HJ & <-). right.
    exists k, recs, J. split_and!; [by apply elem_of_map_to_list|done|..];
      by apply CGN2Num_lookup.
Qed.

Lemma reachable_calls CG :
  closed CG →
  ∃ A, reachable CG = Returns A ∧
    length A = TotNumOfCGN CG * TotNumOfCGN CG ∧ Forall bit A ∧
    ∀ i j u v, vertices CG !! i = Some u → vertices CG !! j = Some v →
      entry (TotNumOfCGN CG) A i j = true ↔ tc (calls CG) u v.
Proof.
  intros Hclosed. destruct (AdjMatrix_calls CG Hclosed)
    as (A0 & HA0 & Hlen0 & Hbit0 & He0).
  unfold reachable. rewrite HA0. simpl.
  set (N := TotNumOfCGN CG) in *.
  destruct (closure_loops_tc N A0 Hlen0) as [Hlen Htc].
  eexists. split_and!; [done|done|by apply closure_loops_bits|].
  intros i j u v Hu Hv.
  assert (∀ i u, vertices CG !! i = Some u → i < N) as Hlt.
  { intros i' u' Hu'. unfold N. rewrite <- vertices_length.
    by eapply lookup_lt_Some. }
  rewrite Htc by eauto. split.
  - intros Hij. revert u v Hu Hv.
    induction Hij as [i j (Hi & Hj & He)|i m j (Hi & Hm & He) _ IH];
      intros u v Hu Hv.
    + apply tc_once. by apply (He0 i j).
    + destruct (lookup_lt_is_Some_2 (vertices CG) m) as [w Hw].
      { by rewrite vertices_length. }
      eapply tc_l; [by apply (He0 i m)|]. by apply IH.
  - intros Huv. revert i j Hu Hv.
    induction Huv as [u v Hc|u w v Hc _ IH]; intros i j Hu Hv.
    + apply tc_once. split_and!; [by eauto..|]. by apply (He0 i j u v).
    + destruct (proj1 (list_elem_of_lookup _ _) (Hclosed u w Hc)) as [m Hw].
      eapply tc_l; [|by apply IH].
      split_and!; [by eauto..|]. by apply (He0 i m u w).
Qed.

(** ** Loops over a map *)

Lemma for_each_entry_lookup `{Countable K} {V} (body : K → V → outcome V)
    (g : K → V → V) (m : gmap K V) :
  (∀ k v, m !! k = Some v → body k v = Returns (g k v)) →
  ∃ m', for_each_entry body m = Returns m' ∧
    ∀ k, m' !! k = (λ v, g k v) <$> m !! k.
Proof.
  intros Hbody. unfold for_each_entry.
  assert (∀ (l : list (K * V)) (acc : gmap K V),
    NoDup l.*1 →
    (∀ k v, (k, v) ∈ l → body k v = Returns (g k v)) →
    ∃ m' : gmap K V, for_each (λ acc I, v ← body I.1 I.2; Returns (<[I.1 := v]> acc))
            l acc = Returns m' ∧
      ∀ k, m' !! k = match (list_to_map l : gmap K V) !! k with
                     | Some v => Some (g k v)
                     | None => acc !! k
                     end) as Hgen.
  { induction l as [|[k0 v0] l IH]; intros acc Hnd Hl.
    - exists acc. split; [done|]. intros k. simpl. by rewrite lookup_empty.
    - apply NoDup_cons in Hnd as [Hfresh Hnd]. simpl.
      rewrite (Hl k0 v0) by left. simpl.
      destruct (IH (<[k0 := g k0 v0]> acc) Hnd) as (m' & Hm' & Hlook).
      { intros k v Hkv. apply Hl. by right. }
      exists m'. split; [done|]. intros k. rewrite Hlook. simpl.
      destruct (decide (k0 = k)) as [->|Hne].
      + rewrite lookup_insert_eq.
        by rewrite (not_elem_of_list_to_map_1 _ _ Hfresh), lookup_insert_eq.
      + by rewrite !lookup_insert_ne by done. }
  destruct (Hgen (map_to_list m) m) as (m' & Hm' & Hlook).
  { apply NoDup_fst_map_to_list. }
  { intros k v Hkv. apply Hbody. by apply elem_of_map_to_list. }
  exists m'. split; [done|]. intros k. rewrite Hlook, list_to_map_to_list.
  by destruct (m !! k).
Qed.

(** ** Transitive in-degrees *)

Lemma computeCallGraphTransClosure_lookup CG (m : Result) :
  (Z.of_nat (TotNumOfCGN CG) * Z.of_nat (TotNumOfCGN CG) ≤ INT_MAX)%Z →
  closed CG →
  (∀ F MF, m !! F = Some MF → is_Some (FunctionMap CG !! Some F)) →
  ∃ A m', reachable CG = Returns A ∧
    computeCallGraphTransClosure CG m = Returns m' ∧
    ∀ F, m' !! F =
      (λ MF, set_TransClosureInDeg
               (column_sums (TotNumOfCGN CG) A
                  !!! default 0 (CGN2Num CG !! NodeOf (Some F))) MF)
      <$> m !! F.
Proof.
  intros Hguard Hclosed Hreg.
  destruct (reachable_calls CG Hclosed) as (A & HA & _).
  unfold computeCallGraphTransClosure.
  rewrite bool_decide_eq_true_2 by done. rewrite HA. simpl.
  edestruct (for_each_entry_lookup
    (λ F MF, Node ← CallGraph_at CG F; Num ← map_at (CGN2Num CG) Node;
             Returns (set_TransClosureInDeg
                        (column_sums (TotNumOfCGN CG) A !!! Num) MF))
    (λ F MF, set_TransClosureInDeg
               (column_sums (TotNumOfCGN CG) A
                  !!! default 0 (CGN2Num CG !! NodeOf (Some F))) MF) m)
    as (m' & Hm' & Hlook).
  { intros F MF HF. destruct (Hreg F MF HF) as [recs Hrecs].
    unfold CallGraph_at. rewrite Hrecs. simpl.
    destruct (CGN2Num_is_Some CG (NodeOf (Some F))) as [i Hi].
    { by eapply key_vertex. }
    by rewrite (map_at_Some _ _ _ Hi), Hi. }
  by exists A, m'.
Qed.

(** ** Reflection of the input checks *)

Lemma closure_ok_spec CG :
  closure_ok CG = true →
  (Z.of_nat (TotNumOfCGN CG) * Z.of_nat (TotNumOfCGN CG) ≤ INT_MAX)%Z
  ∧ closed CG.
Proof.
  unfold closure_ok. rewrite andb_true_iff, bool_decide_eq_true.
  intros [Hguard Hall]. split; [done|].
  intros u v (k & recs & J & -> & Hk & HJ & <-).
  rewrite forallb_forall in Hall.
  specialize (Hall (k, recs)). rewrite <- list_elem_of_In in Hall.
  specialize (Hall (proj2 (elem_of_map_to_list _ _ _) Hk)).
  rewrite forallb_forall in Hall. specialize (Hall J).
  rewrite <- list_elem_of_In in Hall. specialize (Hall HJ).
  by apply bool_decide_eq_true in Hall.
Qed.

Lemma in_CallGraph_spec {V} CG (m : gmap Function V) F v :
  in_CallGraph CG m = true → m !! F = Some v →
  is_Some (FunctionMap CG !! Some F).
Proof.
  unfold in_CallGraph. rewrite forallb_forall. intros Hall HF.
  specialize (Hall (F, v)). rewrite <- list_elem_of_In in Hall.
  specialize (Hall (proj2 (elem_of_map_to_list _ _ _) HF)).
  by apply bool_decide_eq_true in Hall.
Qed.

(** ** The nodes that reach a function *)

Lemma column_count_nodes CG A idx v :
  (∀ i j u v, vertices CG !! i = Some u → vertices CG !! j = Some v →
      entry (TotNumOfCGN CG) A i j = true ↔ tc (calls CG) u v) →
  closed CG →
  vertices CG !! idx = Some v →
  ∃ l, NoDup l ∧ (∀ u, u ∈ l ↔ tc (calls CG) u v) ∧
    length l =
      length (filter (λ i, entry (TotNumOfCGN CG) A i idx = true)
                     (seq 0 (TotNumOfCGN CG))).
Proof.
  intros He Hclosed Hv. set (N := TotNumOfCGN CG) in *.
  set (idxs := filter (λ i, entry N A i idx = true) (seq 0 N)).
  exists ((λ i, vertices CG !!! i) <$> idxs).
  assert (∀ i, i ∈ idxs → ∃ u, vertices CG !! i = Some u ∧
                              vertices CG !!! i = u ∧ tc (calls CG) u v)
    as His.
  { intros i Hi. apply list_elem_of_filter in Hi as [Hi1 Hi2].
    apply elem_of_seq in Hi2.
    destruct (lookup_lt_is_Some_2 (vertices CG) i) as [u Hu].
    { rewrite vertices_length. fold N. lia. }
    exists u. split_and!; [done|by apply list_lookup_total_correct|].
    by apply (He i idx). }
  split_and!.
  - apply NoDup_fmap_2_strong; [|apply NoDup_filter, NoDup_seq].
    intros i j Hi Hj Heq.
    destruct (His i Hi) as (u & Hu & Hu' & _).
    destruct (His j Hj) as (w & Hw & Hw' & _).
    eapply NoDup_lookup; [apply vertices_NoDup|done|]. congruence.
  - intros u. rewrite list_elem_of_fmap. split.
    + intros (i & -> & Hi). by destruct (His i Hi) as (u & _ & -> & ?).
    + intros Hu.
      assert (u ∈ vertices CG) as Hin.
      { inversion Hu; subst; by eapply calls_vertex_l. }
      apply list_elem_of_lookup in Hin as [i Hi]. exists i.
      split; [symmetry; by apply list_lookup_total_correct|].
      apply list_elem_of_filter. split; [by apply (He i idx u v)|].
      apply elem_of_seq. apply lookup_lt_Some in Hi.
      rewrite vertices_length in Hi. fold N in Hi. lia.
  - by rewrite length_fmap.
Qed.

(** The transitive in-degree of a function is the number of the nodes
    that reach its node. *)
Lemma computeCallGraphTransClosure_reaching CG (m : Result) :
  closure_ok CG = true →
  (∀ F MF, m !! F = Some MF → is_Some (FunctionMap CG !! Some F)) →
  ∃ m', computeCallGraphTransClosure CG m = Returns m' ∧
    (∀ F, m !! F = None → m' !! F = None) ∧
    ∀ F MF, m !! F = Some MF →
      ∃ l, NoDup l ∧ (∀ u, u ∈ l ↔ tc (calls CG) u (NodeOf (Some F))) ∧
        m' !! F = Some (set_TransClosureInDeg (Z.of_nat (length l)) MF).
Proof.
  intros [Hguard Hclosed]%closure_ok_spec Hreg.
  destruct (computeCallGraphTransClosure_lookup CG m Hguard Hclosed Hreg)
    as (A & m' & HA & Hm' & Hlook).
  destruct (reachable_calls CG Hclosed) as (A' & HA' & Hlen & Hbit & He).
  assert (A' = A) as -> by congruence.
  exists m'. split; [done|]. split.
  { intros F HF. by rewrite Hlook, HF. }
  intros F MF HF.
  destruct (Hreg F MF HF) as [recs Hrecs].
  destruct (CGN2Num_is_Some CG (NodeOf (Some F))) as [idx Hidx].
  { by eapply key_vertex. }
  pose proof (CGN2Num_lt _ _ _ Hidx) as Hlt.
  destruct (column_count_nodes CG A idx (NodeOf (Some F)) He Hclosed)
    as (l & Hnd & Hl & Hcount).
  { by apply CGN2Num_lookup. }
  exists l. split_and!; [done..|].
  rewrite Hlook, HF, Hidx. simpl. do 2 f_equal.
  destruct (column_sums_count (TotNumOfCGN CG) A Hlen Hbit) as [_ Hcol].
  by rewrite Hcol, Hcount.
Qed.

(** ** Building the registry *)

Lemma isHalFunc_stream F errs :
  has_debug_info F = true →
  ∃ b, isHalFunc F [] = Returns (b, []) ∧ isHalFunc F errs = Returns (b, errs).
Proof.
  unfold has_debug_info, isHalFunc, isHalFuncRegex.
  destruct (getSubprogram F) as [DISub|]; [|done].
  intros [File ->]%bool_decide_eq_true.
  destruct (_ || _); eauto.
Qed.

Lemma MMIOFunc_ctor_returns P F :
  has_debug_info F = true → ∃ MF, MMIOFunc_ctor P F = Returns MF.
Proof.
  unfold has_debug_info, MMIOFunc_ctor.
  destruct (getSubprogram F) as [DISub|]; [|done].
  intros [File ->]%bool_decide_eq_true. eauto.
Qed.

Lemma add_MMIOFunc_returns acc errs F P :
  has_debug_info F = true →
  ∃ MF, new_MMIOFunc P F = Some MF ∧
    add_MMIOFunc (acc, errs) (F, P) = Returns (map_insert_new F MF acc, errs).
Proof.
  intros Hdbg. unfold add_MMIOFunc, new_MMIOFunc. simpl.
  destruct (MMIOFunc_ctor_returns P F Hdbg) as [MF ->].
  destruct (isHalFunc_stream F errs Hdbg) as (b & -> & ->). simpl. eauto.
Qed.

Lemma map_insert_new_lookup {V} (m : gmap Function V) F v G :
  map_insert_new F v m !! G =
    match m !! G with
    | Some w => Some w
    | None => if decide (F = G) then Some v else None
    end.
Proof.
  unfold map_insert_new. destruct (m !! F) as [w|] eqn:HF.
  - destruct (m !! G) eqn:HG; [done|]. case_decide; congruence.
  - destruct (decide (F = G)) as [->|Hne].
    + by rewrite lookup_insert_eq, HF.
    + rewrite lookup_insert_ne by done. by destruct (m !! G).
Qed.

Lemma add_MMIOFunc_loop (l : list (Function * FindMMIOFunc_MMIOFunc))
    (acc : Result) errs :
  NoDup l.*1 →
  (∀ F P, (F, P) ∈ l → has_debug_info F = true) →
  ∃ m' : Result, for_each add_MMIOFunc l (acc, errs) = Returns (m', errs) ∧
    ∀ F, m' !! F =
      match acc !! F with
      | Some MF => Some MF
      | None => (list_to_map l : FindMMIOFunc_Result) !! F
                  ≫= λ P, new_MMIOFunc P F
      end.
Proof.
  revert acc. induction l as [|[F0 P0] l IH]; intros acc Hnd Hdbg.
  - exists acc. split; [done|]. intros F. simpl. rewrite lookup_empty.
    by destruct (acc !! F).
  - apply NoDup_cons in Hnd as [Hfresh Hnd].
    destruct (add_MMIOFunc_returns acc errs F0 P0) as (MF0 & Hnew & Hadd).
    { apply (Hdbg F0 P0). left. }
    destruct (IH (map_insert_new F0 MF0 acc) Hnd) as (m' & Hm' & Hlook).
    { intros F P HFP. apply (Hdbg F P). by right. }
    exists m'. split; [simpl; by rewrite Hadd|]. intros F.
    rewrite Hlook, map_insert_new_lookup. simpl.
    destruct (acc !! F) as [MF|]; [done|].
    destruct (decide (F0 = F)) as [->|Hne].
    + rewrite lookup_insert_eq. simpl. by rewrite Hnew.
    + by rewrite lookup_insert_ne.
Qed.

Lemma new_MMIOFunc_fields P F MF :
  new_MMIOFunc P F = Some MF →
  ∃ DISub File,
    getSubprogram F = Some DISub ∧ getFile DISub = Some File ∧
    Parent MF = P ∧
    IsHal MF =
      (isHalRegexInternal (getName DISub)
       || isHalRegexInternal (getLinkageName DISub)
       || isHalRegexInternal (DIFile_getFilename File)
       || isHalRegexInternal (DIFile_getDirectory File)) ∧
    IsHal2 MF = false ∧
    FullPath MF =
      DIFile_getDirectory File +:+ "/" +:+ DIFile_getFilename File ∧
    Dirname MF =
      substr0 (FullPath MF) (find_last_of (FullPath MF) ["/"%char; "\"%char]).
Proof.
  unfold new_MMIOFunc, MMIOFunc_ctor, isHalFunc, isHalFuncRegex.
  destruct (getSubprogram F) as [DISub|] eqn:HDISub; [|done].
  destruct (getFile DISub) as [File|] eqn:HFile; [|done].
  intros HMF. exists DISub, File.
  destruct (_ || _) eqn:Hb; simplify_eq/=; by split_and!.
Qed.

(** ** Directory inference *)

Lemma collect_HalDirs_elem (m : Result) d :
  d ∈ collect_HalDirs m ↔
    ∃ G MG, m !! G = Some MG ∧ (10 ≤ TransClosureInDeg MG)%Z ∧ Dirname MG = d.
Proof.
  unfold collect_HalDirs.
  assert (∀ (l : list (Function * MMIOFunc)) acc,
    d ∈ foldl (λ HalDirs I,
                 if bool_decide (10 ≤ TransClosureInDeg I.2)%Z
                 then HalDirs ++ [Dirname I.2] else HalDirs) acc l ↔
      d ∈ acc ∨ ∃ G MG, (G, MG) ∈ l ∧ (10 ≤ TransClosureInDeg MG)%Z
                         ∧ Dirname MG = d) as Hgen.
  { induction l as [|[G0 MG0] l IH]; intros acc; simpl.
    - split; [auto|]. intros [?|(G & MG & HI & _)]; [done|].
      by apply elem_of_nil in HI.
    - rewrite IH. case_bool_decide as Hge.
      + rewrite elem_of_app, list_elem_of_singleton. split.
        * intros [[?| ->]|(G & MG & HI & ?)]; [by left| |].
          -- right. exists G0, MG0. split; [left|done].
          -- right. exists G, MG. split; [by right|done].
        * intros [?|(G & MG & HI & Hten & Hd)]; [by do 2 left|].
          apply elem_of_cons in HI as [[= -> ->]|HI].
          -- left. by right.
          -- right. by exists G, MG.
      + split.
        * intros [?|(G & MG & HI & ?)]; [by left|].
          right. exists G, MG. split; [by right|done].
        * intros [?|(G & MG & HI & Hten & Hd)]; [by left|].
          apply elem_of_cons in HI as [[= -> ->]|HI]; [done|].
          right. by exists G, MG. }
  rewrite Hgen. split.
  - intros [HI|(G & MG & HI & ?)]; [by apply elem_of_nil in HI|].
    exists G, MG. by rewrite <- elem_of_map_to_list.
  - intros (G & MG & HG & ?). right. exists G, MG.
    by rewrite elem_of_map_to_list.
Qed.

(** ** The stages of a run *)

Lemma inputs_ok_spec CG (regs : FindMMIOFunc_Result) :
  inputs_ok CG regs = true →
  closure_ok CG = true ∧
  (Z.of_nat (length (CallGraph_records CG)) ≤ INT_MAX)%Z ∧
  ∀ F P, regs !! F = Some P →
    is_Some (FunctionMap CG !! Some F) ∧ has_debug_info F = true.
Proof.
  unfold inputs_ok, records_ok. rewrite !andb_true_iff, bool_decide_eq_true.
  intros [[[Hclo Hrec] Hin] Hdbg]. split_and!; [done..|].
  intros F P HF. split; [by eapply in_CallGraph_spec|].
  rewrite forallb_forall in Hdbg. apply (Hdbg (F, P)).
  apply list_elem_of_In. by apply elem_of_map_to_list.
Qed.

Lemma bind_Returns {A B} (a : A) (k : A → outcome B) :
  (Returns a ≫= k) = k a.
Proof. reflexivity. Qed.

Lemma callGraphBasedHalIdent_unfold CG (m : Result) :
  callGraphBasedHalIdent CG m =
    (m2 ← computeCallGraphInDegrees CG m;
     m3 ← computeCallGraphTransClosure CG m2;
     Returns ((λ MF, if bool_decide (Dirname MF ∈ collect_HalDirs m3)
                     then set_IsHal2 true MF else MF) <$> m3)).
Proof. reflexivity. Qed.

Lemma runOnModule_unfold (m0 : Result) CG (regs : FindMMIOFunc_Result) errs :
  runOnModule m0 CG regs errs =
    (st ← for_each add_MMIOFunc (map_to_list regs) (∅, errs);
     MMIOFuncMap ← callGraphBasedHalIdent CG st.1;
     Returns (MMIOFuncMap, st.2)).
Proof. reflexivity. Qed.

Lemma runOnModule_stages (m0 : Result) CG (regs : FindMMIOFunc_Result) errs
    (m1 m2 m3 : Result) errs' :
  for_each add_MMIOFunc (map_to_list regs) (∅, errs) = Returns (m1, errs') →
  computeCallGraphInDegrees CG m1 = Returns m2 →
  computeCallGraphTransClosure CG m2 = Returns m3 →
  runOnModule m0 CG regs errs =
    Returns ((λ MF, if bool_decide (Dirname MF ∈ collect_HalDirs m3)
                    then set_IsHal2 true MF else MF) <$> m3, errs').
Proof.
  intros Hm1 Hm2 Hm3.
  rewrite runOnModule_unfold, Hm1, bind_Returns.
  rewrite callGraphBasedHalIdent_unfold. cbn [fst snd].
  rewrite Hm2, bind_Returns, Hm3, !bind_Returns. reflexivity.
Qed.

(** What a run stores for a function of the registry. *)
Lemma runOnModule_entries (m0 : Result) CG (regs : FindMMIOFunc_Result) errs :
  inputs_ok CG regs = true →
  ∃ R : Result, runOnModule m0 CG regs errs = Returns (R, errs) ∧
    (∀ F, regs !! F = None → R !! F = None) ∧
    ∀ F P, regs !! F = Some P →
      ∃ MF0 l MF,
        new_MMIOFunc P F = Some MF0 ∧
        NoDup l ∧ (∀ u, u ∈ l ↔ tc (calls CG) u (NodeOf (Some F))) ∧
        R !! F = Some MF ∧
        Parent MF = Parent MF0 ∧ IsHal MF = IsHal MF0 ∧
        FullPath MF = FullPath MF0 ∧ Dirname MF = Dirname MF0 ∧
        InDegree MF =
          Z.of_nat (length (filter (calls_to F) (CallGraph_records CG))) ∧
        TransClosureInDeg MF = Z.of_nat (length l) ∧
        (IsHal2 MF = true ↔
           ∃ G MG, R !! G = Some MG ∧ Dirname MG = Dirname MF
                   ∧ (10 ≤ TransClosureInDeg MG)%Z).
Proof.
  intros (Hclo & Hrec & Hregs)%inputs_ok_spec.
  destruct (add_MMIOFunc_loop (map_to_list regs) ∅ errs)
    as (m1 & Hm1 & Hl1).
  { apply NoDup_fst_map_to_list. }
  { intros F P HFP%elem_of_map_to_list. by apply (Hregs F P). }
  assert (∀ F, m1 !! F = regs !! F ≫= λ P, new_MMIOFunc P F) as Hl1'.
  { intros F. by rewrite Hl1, lookup_empty, list_to_map_to_list. }
  clear Hl1.
  destruct (computeCallGraphInDegrees_lookup CG m1 Hrec) as (m2 & Hm2 & Hl2).
  destruct (computeCallGraphTransClosure_reaching CG m2 Hclo)
    as (m3 & Hm3 & Hl3n & Hl3).
  { intros F MF. rewrite Hl2, Hl1'.
    destruct (regs !! F) as [P|] eqn:HF; [|done]. intros _.
    by apply (Hregs F P). }
  set (R := (λ MF, if bool_decide (Dirname MF ∈ collect_HalDirs m3)
                   then set_IsHal2 true MF else MF) <$> m3).
  exists R. split.
  { by apply (runOnModule_stages m0 CG regs errs m1 m2 m3). }
  split.
  { intros F HF. unfold R. rewrite lookup_fmap, Hl3n; [done|].
    by rewrite Hl2, Hl1', HF. }
  assert (∀ G MG, R !! G = Some MG →
            ∃ MG3, m3 !! G = Some MG3 ∧ Dirname MG = Dirname MG3 ∧
                   TransClosureInDeg MG = TransClosureInDeg MG3) as HR3.
  { intros G MG. unfold R. rewrite lookup_fmap.
    destruct (m3 !! G) as [MG3|]; [|done]. simpl. intros [= <-].
    exists MG3. split; [done|]. by case_bool_decide. }
  intros F P HF.
  destruct (add_MMIOFunc_returns ∅ errs F P) as (MF0 & Hnew & _).
  { by apply (Hregs F P). }
  assert (m2 !! F = Some (set_InDegree
            (Z.of_nat (length (filter (calls_to F) (CallGraph_records CG))))
            MF0)) as HF2.
  { by rewrite Hl2, Hl1', HF; simpl; rewrite Hnew. }
  destruct (Hl3 F _ HF2) as (l & Hnd & Hl & HF3).
  destruct (new_MMIOFunc_fields P F MF0 Hnew)
    as (_ & _ & _ & _ & _ & _ & HIsHal2 & _).
  set (MF3 := set_TransClosureInDeg (Z.of_nat (length l)) (set_InDegree
         (Z.of_nat (length (filter (calls_to F) (CallGraph_records CG))))
         MF0)) in *.
  exists MF0, l, (if bool_decide (Dirname MF3 ∈ collect_HalDirs m3)
                  then set_IsHal2 true MF3 else MF3).
  split_and!; [done|done|done| |by case_bool_decide..|].
  { unfold R. by rewrite lookup_fmap, HF3. }
  split.
  - case_bool_decide as Hdir; simpl; [intros _|by rewrite HIsHal2].
    apply collect_HalDirs_elem in Hdir as (G & MG & HG & Hten & Hd).
    exists G, (if bool_decide (Dirname MG ∈ collect_HalDirs m3)
               then set_IsHal2 true MG else MG).
    split_and!.
    + unfold R. by rewrite lookup_fmap, HG.
    + by case_bool_decide.
    + by case_bool_decide.
  - intros (G & MG & HG & Hd & Hten).
    destruct (HR3 G MG HG) as (MG3 & HG3 & Hd3 & Ht3).
    assert (Dirname MF3 ∈ collect_HalDirs m3) as Hin.
    { apply collect_HalDirs_elem. exists G, MG3.
      split_and!; [done|lia|]. rewrite <- Hd3, Hd. by case_bool_decide. }
    by rewrite bool_decide_eq_true_2.
Qed.

(** ** Running the code on a concrete input *)

Lemma Returns_elim {A} (P : A → Prop) (o : outcome A) (a : A) :
  o = Returns a →
  match o with Returns x => P x | Faults _ => False end → P a.
Proof. by intros ->. Qed.

Lemma Returns_elim_fst {A B} (P : A → Prop) (o : outcome (A * B)) a b :
  o = Returns (a, b) →
  match o with Returns x => P x.1 | Faults _ => False end → P a.
Proof. by intros ->. Qed.

(** Turns a goal about the value [a] of [H : run = Returns a] into the goal
    about the value [run] computes. *)
Ltac by_running H :=
  lazymatch type of H with
  | _ = Returns (?a, _) =>
      pattern a; apply (Returns_elim_fst _ _ _ _ H); vm_compute
  | _ = Returns ?a =>
      pattern a; apply (Returns_elim _ _ _ H); vm_compute
  end.

(** ** Paths *)

Lemma substring_0_S c s n :
  String.substring 0 (S n) (String c s) = String c (String.substring 0 n s).
Proof. reflexivity. Qed.

Lemma substring_0_0 s : String.substring 0 0 s = EmptyString.
Proof. by destruct s. Qed.

Lemma find_last_of_None s chars :
  find_last_of s chars = None ↔ Forall (λ c, c ∉ chars) (chars_of s).
Proof.
  induction s as [|c s IH]; simpl.
  - split; [constructor|done].
  - rewrite Forall_cons, <- IH.
    destruct (find_last_of s chars) as [i|].
    + split; [done|]. by intros [_ ?].
    + case_bool_decide; split; try done; try (by intros [? _]); by split.
Qed.

Lemma find_last_of_Some s chars i :
  find_last_of s chars = Some i →
  ∃ c rest, c ∈ chars ∧ s = String.substring 0 i s +:+ String c rest ∧
            Forall (λ c, c ∉ chars) (chars_of rest).
Proof.
  revert i. induction s as [|a s IH]; intros i; simpl; [done|].
  destruct (find_last_of s chars) as [j|] eqn:Hs.
  - intros [= <-]. destruct (IH j eq_refl) as (c & rest & Hc & Heq & Hrest).
    exists c, rest. split_and!; [done| |done].
    rewrite ?substring_0_S, append_cons. by rewrite <- Heq.
  - case_bool_decide as Ha; [|done]. intros [= <-].
    exists a, s. split_and!; [done| |by apply find_last_of_None].
    by rewrite ?substring_0_0.
Qed.

Lemma find_last_of_app_sep pre c suf chars :
  c ∈ chars → Forall (λ c, c ∉ chars) (chars_of suf) →
  find_last_of (pre +:+ String c suf) chars = Some (String.length pre).
Proof.
  intros Hc Hsuf. induction pre as [|a pre IH].
  - change (EmptyString +:+ String c suf) with (String c suf). simpl.
    rewrite (proj2 (find_last_of_None suf chars) Hsuf).
    by rewrite bool_decide_eq_true_2.
  - rewrite append_cons. simpl. by rewrite IH.
Qed.

Lemma find_last_of_app_is_Some pre c suf chars :
  c ∈ chars → is_Some (find_last_of (pre +:+ String c suf) chars).
Proof.
  intros Hc. destruct (find_last_of _ _) eqn:Hf; [done|].
  apply find_last_of_None in Hf. exfalso. clear -Hf Hc.
  induction pre as [|a pre IH].
  - change (EmptyString +:+ String c suf) with (String c suf) in Hf.
    simpl in Hf. by apply Forall_cons in Hf as [? _].
  - rewrite append_cons in Hf. simpl in Hf.
    apply Forall_cons in Hf as [_ Hf]. by apply IH.
Qed.

Lemma substring_0_length_app pre suf :
  String.substring 0 (String.length pre) (pre +:+ suf) = pre.
Proof.
  induction pre as [|a pre IH].
  - apply substring_0_0.
  - rewrite append_cons. simpl. by rewrite IH.
Qed.


(** * The claims *)

(** ** C4: the name heuristic *)

Lemma isHalFunc_debug_info F DISub File errs :
  getSubprogram F = Some DISub → getFile DISub = Some File →
  isHalFunc F errs =
    Returns (isHalRegexInternal (getName DISub)
             || isHalRegexInternal (getLinkageName DISub)
             || isHalRegexInternal (DIFile_getFilename File)
             || isHalRegexInternal (DIFile_getDirectory File), errs).
Proof.
  intros HDISub HFile. unfold isHalFunc, isHalFuncRegex.
  rewrite HDISub, HFile. by destruct (_ || _).
Qed.

Lemma tolower_small_letter c : tolower c = small_letter letters c.
Proof. by destruct c as [[] [] [] [] [] [] [] []]. Qed.

Lemma transform_tolower_lowercase s : transform_tolower s = lowercase s.
Proof.
  induction s as [|c s IH]; [done|]. simpl.
  by rewrite IH, tolower_small_letter.
Qed.

Lemma isHalRegexInternal_isHalByName s :
  isHalRegexInternal s = true ↔ isHalByName s.
Proof.
  rewrite isHalRegexInternal_contains. unfold isHalByName. cbv zeta.
  by rewrite transform_tolower_lowercase.
Qed.

(** The counterexample to C4 as stated: for the function [f] of the file
    [hal/halt.c] in the directory [/src], the derived source directory
    [Dirname] is [/src/hal], on which the predicate holds, while it fails
    on the name, the linkage name, the file name, the full path and the
    directory of the metadata: [IsHal] is false. *)
Lemma isHalFunc_derived_directory_differs :
  ∃ R MF,
    runOnModule ∅ Names.CG Names.MMIOFuncs [] = Returns (R, []) ∧
    R !! Names.fHalt = Some MF ∧
    FullPath MF = "/src/hal/halt.c" ∧ Dirname MF = "/src/hal" ∧
    IsHal MF = false ∧
    IsHal MF ≠ (isHalRegexInternal "f" || isHalRegexInternal "f"
                || isHalRegexInternal "hal/halt.c"
                || isHalRegexInternal (Dirname MF)) ∧
    IsHal MF ≠ (isHalRegexInternal "f" || isHalRegexInternal "f"
                || isHalRegexInternal (FullPath MF)
                || isHalRegexInternal (Dirname MF)).
Proof.
  destruct (runOnModule_entries ∅ Names.CG Names.MMIOFuncs [])
    as (R & HR & _); [vm_compute; reflexivity|].
  exists R.
  assert (∃ MF, R !! Names.fHalt = Some MF ∧
            FullPath MF = "/src/hal/halt.c" ∧ Dirname MF = "/src/hal" ∧
            IsHal MF = false) as (MF & HMF & Hpath & Hdir & HIsHal).
  { by_running HR. eexists. split_and!; reflexivity. }
  exists MF. rewrite Hpath, Hdir, HIsHal.
  split_and!; [done..| |]; vm_compute; discriminate.
Qed.

(** C4, amended.  The predicate on a string holds iff the string, with its
    capital letters made small, contains "hal" but not "halt", or contains
    one of "driver", "arch", "soc", "cmsis".  For a function with debug
    metadata, [isHalFunc] and the field [IsHal] a run stores are the
    disjunction of the predicate on the name, the linkage name, the file
    name and the directory, the last two as the [DIFile] of the metadata
    records them.  This directory is the derived [Dirname] when the
    recorded file name has no separator. *)
Theorem isHalFunc_name_heuristic (m0 : Result) CG
    (MMIOFuncs : FindMMIOFunc_Result) errs F P DISub File :
  inputs_ok CG MMIOFuncs = true →
  MMIOFuncs !! F = Some P →
  getSubprogram F = Some DISub →
  getFile DISub = Some File →
  (∀ s, isHalRegexInternal s = true ↔ isHalByName s) ∧
  ∃ R MF, runOnModule m0 CG MMIOFuncs errs = Returns (R, errs) ∧
    R !! F = Some MF ∧
    isHalFunc F errs = Returns (IsHal MF, errs) ∧
    (IsHal MF = true ↔
       isHalByName (getName DISub) ∨ isHalByName (getLinkageName DISub)
       ∨ isHalByName (DIFile_getFilename File)
       ∨ isHalByName (DIFile_getDirectory File)) ∧
    (Forall (λ c, c ∉ separators) (chars_of (DIFile_getFilename File)) →
     Dirname MF = DIFile_getDirectory File).
Proof.
  intros Hok HF HDISub HFile.
  split; [apply isHalRegexInternal_isHalByName|].
  destruct (runOnModule_entries m0 CG MMIOFuncs errs Hok) as (R & HR & _ & Hent).
  destruct (Hent F P HF)
    as (MF0 & l & MF & Hnew & _ & _ & HRF & _ & HIsHal & _ & Hdir & _).
  destruct (new_MMIOFunc_fields P F MF0 Hnew)
    as (DISub' & File' & HDISub' & HFile' & _ & HIsHal0 & _ & Hpath0 & Hdir0).
  assert (DISub' = DISub) as -> by congruence.
  assert (File' = File) as -> by congruence.
  exists R, MF. split_and!; [done..| | |].
  - rewrite (isHalFunc_debug_info F DISub File errs HDISub HFile).
    by rewrite HIsHal, HIsHal0.
  - rewrite HIsHal, HIsHal0, !orb_true_iff, !isHalRegexInternal_isHalByName.
    tauto.
  - intros Hbase. rewrite Hdir, Hdir0, Hpath0.
    change (DIFile_getDirectory File +:+ "/" +:+ DIFile_getFilename File)
      with (DIFile_getDirectory File
            +:+ String "/" (DIFile_getFilename File)).
    fold separators.
    rewrite (find_last_of_app_sep _ "/" _ separators); [|by left|done].
    simpl. apply substring_0_length_app.
Qed.

Lemma isHalFunc_name_heuristic_witness :
  ∃ R MF, runOnModule ∅ Names.CG Names.MMIOFuncs [] = Returns (R, []) ∧
    R !! Names.fInit = Some MF ∧ IsHal MF = true ∧ Dirname MF = "/app".
Proof.
  destruct (isHalFunc_name_heuristic ∅ Names.CG Names.MMIOFuncs []
              Names.fInit Chain.ins
              {| getName := "HAL_Init"; getLinkageName := "HAL_Init";
                 getFile := Some {| DIFile_getFilename := "main.c";
                                    DIFile_getDirectory := "/app" |} |}
              {| DIFile_getFilename := "main.c";
                 DIFile_getDirectory := "/app" |})
    as (Hpred & R & MF & HR & HMF & _ & HIsHal & Hdir);
    [vm_compute; reflexivity..|].
  exists R, MF. split_and!; [exact HR|exact HMF| |].
  - apply HIsHal. left. apply Hpred. vm_compute. reflexivity.
  - apply Hdir. apply (bool_decide_unpack _). vm_compute. exact I.
Defined.

(** ** C2: a function without debug metadata *)

Lemma add_MMIOFunc_faults acc Node e :
  add_MMIOFunc acc Node = Faults e → e = NullPointerDereference.
Proof.
  unfold add_MMIOFunc, MMIOFunc_ctor, isHalFunc, isHalFuncRegex.
  destruct (getSubprogram Node.1) as [DISub|]; [|by intros [= <-]].
  destruct (getFile DISub) as [File|]; [|by intros [= <-]].
  simpl. by destruct (_ || _).
Qed.

Lemma add_MMIOFunc_no_DISubprogram acc Node :
  getSubprogram Node.1 = None →
  add_MMIOFunc acc Node = Faults NullPointerDereference.
Proof. intros HNone. unfold add_MMIOFunc, MMIOFunc_ctor. by rewrite HNone. Qed.

Lemma for_each_add_MMIOFunc_faults l acc :
  (∃ Node, Node ∈ l ∧ getSubprogram Node.1 = None) →
  for_each add_MMIOFunc l acc = Faults NullPointerDereference.
Proof.
  revert acc. induction l as [|Node l IH]; intros acc (Bad & Hin & HNone).
  - by apply elem_of_nil in Hin.
  - simpl. destruct (add_MMIOFunc acc Node) as [acc'|e] eqn:Hadd.
    + rewrite bind_Returns. apply IH. exists Bad. split; [|done].
      apply elem_of_cons in Hin as [->|Hin]; [|done].
      by rewrite add_MMIOFunc_no_DISubprogram in Hadd.
    + by rewrite (add_MMIOFunc_faults _ _ _ Hadd).
Qed.

(** A registry that holds a function without [DISubprogram] makes the run
    fault in the constructor of its entry. *)
Lemma runOnModule_no_DISubprogram (m0 : Result) CG
    (MMIOFuncs : FindMMIOFunc_Result) errs F P :
  MMIOFuncs !! F = Some P → getSubprogram F = None →
  runOnModule m0 CG MMIOFuncs errs = Faults NullPointerDereference.
Proof.
  intros HF HNone. rewrite runOnModule_unfold.
  rewrite for_each_add_MMIOFunc_faults; [done|].
  exists (F, P). split; [by apply elem_of_map_to_list|done].
Qed.

(** C2.  On a registry whose function [N] has no [DISubprogram],
    [isHalFunc] alone warns and answers [false], but the constructor of the
    entry dereferences the null [DISubprogram] first: the run faults and
    returns no registry. *)
Theorem runOnModule_missing_debug_info_faults :
  getSubprogram NoDebugInfo.fN = None ∧
  isHalFunc NoDebugInfo.fN [] =
    Returns (false, ["Warning: isHalFunc: DISubprogram not exists." +:+ nl]) ∧
  MMIOFunc_ctor Chain.ins NoDebugInfo.fN = Faults NullPointerDereference ∧
  ∀ m0 errs,
    runOnModule m0 NoDebugInfo.CG NoDebugInfo.MMIOFuncs errs
    = Faults NullPointerDereference.
Proof.
  split_and!; [reflexivity..|]. intros m0 errs.
  by apply (runOnModule_no_DISubprogram m0 _ _ errs NoDebugInfo.fN Chain.ins).
Qed.

(** ** C5: direct in-degrees *)

Lemma concat_Permutation {A} (l1 l2 : list (list A)) :
  l1 ≡ₚ l2 → concat l1 ≡ₚ concat l2.
Proof.
  induction 1 as [|x l1 l2 _ IH|x y l|l1 l2 l3 _ IH1 _ IH2]; simpl.
  - done.
  - by rewrite IH.
  - rewrite !(assoc_L (++)). by rewrite (Permutation_app_comm y x).
  - by rewrite IH1.
Qed.

Lemma CallGraph_records_split CG :
  CallGraph_records CG ≡ₚ external_calling_records CG ++ call_sites CG.
Proof.
  unfold CallGraph_records, CallGraph_nodes, external_calling_records,
    call_sites.
  destruct (FunctionMap CG !! None) as [recs|] eqn:Hnone; simpl.
  - change (recs ++ concat (map_to_list (delete None (FunctionMap CG))).*2)
      with (concat (((None, recs)
                     :: map_to_list (delete None (FunctionMap CG))).*2)).
    apply concat_Permutation, fmap_Permutation.
    symmetry. by apply map_to_list_delete.
  - by rewrite delete_id.
Qed.

Lemma calls_to_split CG F :
  length (filter (calls_to F) (CallGraph_records CG))
  = length (filter (calls_to F) (call_sites CG))
    + length (filter (calls_to F) (external_calling_records CG)).
Proof.
  rewrite (CallGraph_records_split CG), filter_app, length_app. lia.
Qed.

(** The counterexample to C5 as stated: no call site calls [C], and its
    [InDegree] is 1, from the call record the external calling node has
    for it; on the chain with externally visible functions the [InDegree]
    of [C] is 7 for 6 call sites. *)
Lemma computeCallGraphInDegrees_counts_external_calling_node :
  filter (calls_to Chain.fC) (call_sites Visible.CG_uncalled) = [] ∧
  computeCallGraphInDegrees Visible.CG_uncalled Chain.stale
    ≫= (λ m' : Result, Returns (InDegree <$> m' !! Chain.fC))
  = Returns (Some 1%Z) ∧
  length (filter (calls_to Chain.fC) (call_sites Visible.CG)) = 6 ∧
  computeCallGraphInDegrees Visible.CG Chain.stale
    ≫= (λ m' : Result, Returns (InDegree <$> m' !! Chain.fC))
  = Returns (Some 7%Z).
Proof. split_and!; vm_compute; reflexivity. Qed.

(** C5, amended.  After [computeCallGraphInDegrees] the [InDegree] of every
    function of the registry is the number of call sites of the whole graph
    whose called node is the node of that function, each call site counted
    once, so that repeated calls of one caller count repeatedly, plus the
    number of call records the external calling node has for the function;
    it is the number of call sites when the external calling node has no
    record for the function.  A record whose called node is the node for
    external calls, as a call through a function pointer has it, changes
    no entry. *)
Theorem computeCallGraphInDegrees_counts_call_records CG (m : Result) :
  records_ok CG = true →
  ∃ m' : Result, computeCallGraphInDegrees CG m = Returns m' ∧
    (∀ F, m' !! F =
       set_InDegree
         (Z.of_nat (length (filter (calls_to F) (call_sites CG)))
          + Z.of_nat (length (filter (calls_to F)
                                (external_calling_records CG))))
       <$> m !! F) ∧
    (∀ F MF', m' !! F = Some MF' →
       filter (calls_to F) (external_calling_records CG) = [] →
       InDegree MF'
       = Z.of_nat (length (filter (calls_to F) (call_sites CG)))) ∧
    (∀ F J, second J = CallsExternal → ¬ calls_to F J) ∧
    (∀ (m0 : Result) J, second J = CallsExternal → count_call m0 J = Returns m0).
Proof.
  intros Hrec%bool_decide_eq_true.
  destruct (computeCallGraphInDegrees_lookup CG m Hrec) as (m' & Hm' & Hlook).
  assert (∀ F, m' !! F =
    set_InDegree
      (Z.of_nat (length (filter (calls_to F) (call_sites CG)))
       + Z.of_nat (length (filter (calls_to F)
                             (external_calling_records CG))))
    <$> m !! F) as Hsplit.
  { intros F. by rewrite Hlook, calls_to_split, Nat2Z.inj_add. }
  exists m'. split_and!; [done..| | |].
  - intros F MF' HF Hext. rewrite Hsplit, Hext in HF.
    destruct (m !! F) as [MF|]; [|done]. injection HF as <-.
    simpl. lia.
  - intros F J HJ. unfold calls_to. by rewrite HJ.
  - intros m0 J HJ. unfold count_call. by rewrite HJ.
Qed.

Lemma computeCallGraphInDegrees_counts_call_records_witness :
  ∃ m' : Result,
    computeCallGraphInDegrees Visible.CG Chain.stale = Returns m' ∧
    InDegree <$> m' !! Chain.fC = Some (6 + 1)%Z.
Proof.
  destruct (computeCallGraphInDegrees_counts_call_records Visible.CG
              Chain.stale)
    as (m' & Hm' & Hlook & _); [vm_compute; reflexivity|].
  exists m'. split; [exact Hm'|]. rewrite Hlook. vm_compute. reflexivity.
Defined.

(** ** C3: the transitive closure *)

(** The closure stage in full: the matrix after the triple loop and the
    degree every function of the registry gets. *)
Lemma computeCallGraphTransClosure_nodes CG (m : Result) :
  closure_ok CG = true → in_CallGraph CG m = true →
  ∃ A m', reachable CG = Returns A ∧
    computeCallGraphTransClosure CG m = Returns m' ∧
    dom m' = dom m ∧
    (∀ i j u v,
       vertices CG !! i = Some u → vertices CG !! j = Some v →
       entry (TotNumOfCGN CG) A i j = true ↔ tc (calls CG) u v) ∧
    ∀ F MF, m !! F = Some MF →
      ∃ idx l,
        CGN2Num CG !! NodeOf (Some F) = Some idx ∧
        vertices CG !! idx = Some (NodeOf (Some F)) ∧
        NoDup l ∧ (∀ u, u ∈ l ↔ tc (calls CG) u (NodeOf (Some F))) ∧
        length l =
          length (filter (λ i, entry (TotNumOfCGN CG) A i idx = true)
                         (seq 0 (TotNumOfCGN CG))) ∧
        m' !! F = Some (set_TransClosureInDeg (Z.of_nat (length l)) MF).
Proof.
  intros Hclo Hin.
  destruct (closure_ok_spec CG Hclo) as [Hguard Hclosed].
  assert (∀ F MF, m !! F = Some MF → is_Some (FunctionMap CG !! Some F))
    as Hreg by (intros F MF; by apply in_CallGraph_spec).
  destruct (computeCallGraphTransClosure_lookup CG m Hguard Hclosed Hreg)
    as (A & m' & HA & Hm' & Hlook).
  destruct (reachable_calls CG Hclosed) as (A' & HA' & Hlen & Hbit & He).
  assert (A' = A) as -> by congruence.
  exists A, m'. split_and!; [done..| |done|].
  { apply set_eq. intros F. rewrite !elem_of_dom, Hlook.
    by rewrite fmap_is_Some. }
  intros F MF HF. destruct (Hreg F MF HF) as [recs Hrecs].
  destruct (CGN2Num_is_Some CG (NodeOf (Some F))) as [idx Hidx].
  { by eapply key_vertex. }
  pose proof (proj1 (CGN2Num_lookup _ _ _) Hidx) as Hv.
  destruct (column_count_nodes CG A idx (NodeOf (Some F)) He Hclosed Hv)
    as (l & Hnd & Hl & Hcount).
  exists idx, l. split_and!; [done..|].
  rewrite Hlook, HF, Hidx. simpl. do 2 f_equal.
  destruct (column_sums_count (TotNumOfCGN CG) A Hlen Hbit) as [_ Hcol].
  rewrite Hcol, Hcount; [done|]. by eapply CGN2Num_lt.
Qed.


(** ** C1: directory inference *)

(** C1.  A run on inputs it accepts returns a registry with the functions
    of the MMIO registry, where [IsHal2] of a function [F] holds iff some
    function [G] of the registry has the [Dirname] of [F] and a
    [TransClosureInDeg] of at least 10. *)
Theorem runOnModule_IsHal2_iff (m0 : Result) CG
    (MMIOFuncs : FindMMIOFunc_Result) errs :
  inputs_ok CG MMIOFuncs = true →
  ∃ R : Result, runOnModule m0 CG MMIOFuncs errs = Returns (R, errs) ∧
    dom R = dom MMIOFuncs ∧
    ∀ F MF, R !! F = Some MF →
      (IsHal2 MF = true ↔
         ∃ G MG, R !! G = Some MG ∧ Dirname MG = Dirname MF
                 ∧ (10 ≤ TransClosureInDeg MG)%Z).
Proof.
  intros Hok.
  destruct (runOnModule_entries m0 CG MMIOFuncs errs Hok)
    as (R & HR & Hnone & Hent).
  exists R. split_and!; [done| |].
  - apply set_eq. intros F. rewrite !elem_of_dom.
    destruct (MMIOFuncs !! F) as [P|] eqn:HF.
    + destruct (Hent F P HF) as (MF0 & l & MF & _ & _ & _ & HRF & _).
      rewrite HRF. split; eauto.
    + rewrite (Hnone F HF). split; by intros [? ?].
  - intros F MF HRF.
    destruct (MMIOFuncs !! F) as [P|] eqn:HF.
    + destruct (Hent F P HF)
        as (MF0 & l & MF' & _ & _ & _ & HRF' & _ & _ & _ & _ & _ & _ & Hiff).
      by simplify_eq.
    + by rewrite (Hnone F HF) in HRF.
Qed.

Lemma runOnModule_IsHal2_iff_witness :
  ∃ R : Result,
    runOnModule Chain.stale Chain.CG Chain.MMIOFuncs [] = Returns (R, []) ∧
    IsHal2 <$> R !! Chain.fC = Some true ∧
    IsHal2 <$> R !! Chain.fX = Some false.
Proof.
  destruct (runOnModule_IsHal2_iff Chain.stale Chain.CG Chain.MMIOFuncs [])
    as (R & HR & _ & _); [vm_compute; reflexivity|].
  exists R. split; [exact HR|].
  by_running HR. split; reflexivity.
Defined.

(** C3.  One pass of the two inner loops for an intermediate index [K]
    sets every [reachable[i][j]] to
    [reachable[i][j] OR (reachable[i][K] AND reachable[K][j])] of the matrix
    before the pass.  On a graph whose called nodes are all numbered, the
    passes for all [K], in index order, leave in [reachable[i][j]] whether
    the node numbered [i] reaches the node numbered [j] by one or more call
    records, and every function of the registry gets as [TransClosureInDeg]
    the number of indices [i] with [reachable[i][idx]], [idx] being the
    number of its node, which is the number of distinct nodes that reach its
    node. *)
Theorem computeCallGraphTransClosure_counts_reaching_nodes CG (m : Result) :
  closure_ok CG = true → in_CallGraph CG m = true →
  (∀ N A K, K < N → length A = N * N →
     let A' := foldl (λ A I, foldl (λ A J, closure_step N K I J A) A (seq 0 N))
                     A (seq 0 N) in
     ∀ i j, i < N → j < N →
       entry N A' i j = entry N A i j || (entry N A i K && entry N A K j)) ∧
  ∃ A m', reachable CG = Returns A ∧
    computeCallGraphTransClosure CG m = Returns m' ∧
    dom m' = dom m ∧
    (∀ i j u v,
       vertices CG !! i = Some u → vertices CG !! j = Some v →
       entry (TotNumOfCGN CG) A i j = true ↔ tc (calls CG) u v) ∧
    ∀ F MF, m !! F = Some MF →
      ∃ idx l,
        CGN2Num CG !! NodeOf (Some F) = Some idx ∧
        vertices CG !! idx = Some (NodeOf (Some F)) ∧
        NoDup l ∧ (∀ u, u ∈ l ↔ tc (calls CG) u (NodeOf (Some F))) ∧
        length l =
          length (filter (λ i, entry (TotNumOfCGN CG) A i idx = true)
                         (seq 0 (TotNumOfCGN CG))) ∧
        m' !! F = Some (set_TransClosureInDeg (Z.of_nat (length l)) MF).
Proof.
  intros Hclo Hin. split.
  - intros N A K HK Hlen A' i j Hi Hj. subst A'.
    destruct (matrix_pass N K A N) as [_ Hpass]; [lia..|done|].
    cbv zeta in Hpass. rewrite (Hpass i j Hi Hj). by rewrite decide_True.
  - by apply computeCallGraphTransClosure_nodes.
Qed.

Lemma computeCallGraphTransClosure_counts_reaching_nodes_witness :
  ∃ m', computeCallGraphTransClosure Chain.CG Chain.stale = Returns m' ∧
    TransClosureInDeg <$> m' !! Chain.fC = Some 11%Z.
Proof.
  destruct (computeCallGraphTransClosure_counts_reaching_nodes
              Chain.CG Chain.stale)
    as (_ & A & m' & _ & Hm' & _); [vm_compute; reflexivity..|].
  exists m'. split; [exact Hm'|].
  by_running Hm'. reflexivity.
Defined.

(** ** C10: functions on a cycle *)

(** C10.  A function of the registry whose node reaches itself, as after a
    direct self-call, has [reachable[idx][idx]] set and counts itself: its
    [TransClosureInDeg] is one more than the number of the other nodes that
    reach it; a function whose node does not reach itself counts the other
    nodes only. *)
Theorem computeCallGraphTransClosure_self_on_cycle CG (m : Result) F MF :
  closure_ok CG = true → in_CallGraph CG m = true → m !! F = Some MF →
  let f := NodeOf (Some F) in
  ∃ A m' MF' idx others,
    reachable CG = Returns A ∧
    computeCallGraphTransClosure CG m = Returns m' ∧
    m' !! F = Some MF' ∧
    vertices CG !! idx = Some f ∧
    (entry (TotNumOfCGN CG) A idx idx = true ↔ tc (calls CG) f f) ∧
    NoDup others ∧
    (∀ u, u ∈ others ↔ u ≠ f ∧ tc (calls CG) u f) ∧
    (calls CG f f → tc (calls CG) f f) ∧
    (tc (calls CG) f f →
       TransClosureInDeg MF' = (Z.of_nat (length others) + 1)%Z) ∧
    (¬ tc (calls CG) f f →
       TransClosureInDeg MF' = Z.of_nat (length others)).
Proof.
  intros Hclo Hin HF f.
  destruct (computeCallGraphTransClosure_nodes CG m Hclo Hin)
    as (A & m' & HA & Hm' & _ & He & Hent).
  destruct (Hent F MF HF) as (idx & l & _ & Hidx & Hnd & Hl & _ & HF').
  fold f in Hidx, Hl.
  assert (∃ others, NoDup others ∧
            (∀ u, u ∈ others ↔ u ≠ f ∧ u ∈ l) ∧
            length l = length others + (if decide (f ∈ l) then 1 else 0))
    as (others & Hnd' & Hothers & Hlen).
  { destruct (decide (f ∈ l)) as [Hf|Hf].
    - apply elem_of_Permutation in Hf as [k Hk]. exists k.
      rewrite Hk in Hnd. apply NoDup_cons in Hnd as [Hfk Hndk].
      split_and!; [done| |rewrite Hk; simpl; lia].
      intros u. rewrite Hk, elem_of_cons. split.
      + intros Hu. split; [|by right]. by intros ->.
      + by intros [Hne [?|?]].
    - exists l. split_and!; [done| |lia].
      intros u. split; [|by intros [_ ?]].
      intros Hu. split; [|done]. by intros ->. }
  exists A, m', (set_TransClosureInDeg (Z.of_nat (length l)) MF), idx, others.
  split_and!; [done..|by apply (He idx idx)|done| |apply tc_once| |].
  - intros u. by rewrite Hothers, Hl.
  - intros Hcyc%Hl. simpl. rewrite Hlen, decide_True by done. lia.
  - intros Hcyc. simpl. rewrite Hlen, decide_False; [lia|].
    by rewrite Hl.
Qed.

Lemma computeCallGraphTransClosure_self_on_cycle_witness :
  ∃ m', computeCallGraphTransClosure Chain.CG_self_call Chain.stale
        = Returns m' ∧
    TransClosureInDeg <$> m' !! Chain.fC = Some 12%Z.
Proof.
  destruct (computeCallGraphTransClosure_self_on_cycle
              Chain.CG_self_call Chain.stale Chain.fC Chain.stale_entry)
    as (A & m' & MF' & idx & others & _ & Hm' & _);
    [vm_compute; reflexivity..|].
  exists m'. split; [exact Hm'|].
  by_running Hm'. reflexivity.
Defined.

(** ** C7: more call records *)

Lemma closure_ok_intro CG :
  (Z.of_nat (TotNumOfCGN CG) * Z.of_nat (TotNumOfCGN CG) ≤ INT_MAX)%Z →
  closed CG → closure_ok CG = true.
Proof.
  intros Hguard Hclosed. unfold closure_ok.
  rewrite andb_true_iff, bool_decide_eq_true. split; [done|].
  apply forallb_forall. intros [k recs] HI%list_elem_of_In.
  apply elem_of_map_to_list in HI.
  apply forallb_forall. intros J HJ%list_elem_of_In.
  apply bool_decide_eq_true. apply (Hclosed (NodeOf k)).
  by exists k, recs, J.
Qed.

Lemma vertices_elem CG v :
  v ∈ vertices CG ↔
    v = CallsExternal ∨ ∃ k, v = NodeOf k ∧ is_Some (FunctionMap CG !! k).
Proof.
  unfold vertices. rewrite elem_of_app, list_elem_of_singleton. split.
  - intros [Hv|Hv]; [right|by left].
    apply list_elem_of_fmap in Hv as (k & -> & Hk).
    apply list_elem_of_fmap in Hk as ([k' recs] & -> & HI).
    apply elem_of_map_to_list in HI. exists k'. by split; [|eexists].
  - intros [ ->|(k & -> & [recs Hk])]; [by right|left].
    apply list_elem_of_fmap. exists k. split; [done|].
    apply list_elem_of_fmap. exists (k, recs).
    split; [done|by apply elem_of_map_to_list].
Qed.

Lemma TotNumOfCGN_size CG : TotNumOfCGN CG = S (size (FunctionMap CG)).
Proof.
  unfold TotNumOfCGN.
  destruct (number_nodes_lookup (CallGraph_nodes CG)) as [-> _].
  - apply NoDup_fst_map_to_list.
  - unfold CallGraph_nodes. by rewrite length_map_to_list.
Qed.

Lemma add_call_lookup CG k J k' :
  FunctionMap (add_call CG k J) !! k' =
    (λ recs, if decide (k = k') then recs ++ [J] else recs)
    <$> FunctionMap CG !! k'.
Proof.
  unfold add_call. simpl. destruct (decide (k = k')) as [->|Hne].
  - by rewrite lookup_alter_eq.
  - rewrite lookup_alter_ne by done. by destruct (FunctionMap CG !! k').
Qed.

Lemma add_call_vertices CG k J v :
  v ∈ vertices (add_call CG k J) ↔ v ∈ vertices CG.
Proof.
  rewrite !vertices_elem. setoid_rewrite add_call_lookup.
  by setoid_rewrite fmap_is_Some.
Qed.

Lemma add_call_calls CG k J u v :
  calls CG u v → calls (add_call CG k J) u v.
Proof.
  intros (k' & recs & J' & -> & Hk' & HJ' & <-).
  exists k', (if decide (k = k') then recs ++ [J] else recs), J'.
  split_and!; [done| |by case_decide; [apply elem_of_app; left|]|done].
  by rewrite add_call_lookup, Hk'.
Qed.

Lemma add_call_closure_ok CG k J :
  closure_ok CG = true → second J ∈ vertices CG →
  closure_ok (add_call CG k J) = true.
Proof.
  intros [Hguard Hclosed]%closure_ok_spec HJ. apply closure_ok_intro.
  - rewrite TotNumOfCGN_size in *. unfold add_call. simpl.
    assert (size (alter (λ recs, recs ++ [J]) k (FunctionMap CG))
            = size (FunctionMap CG)) as ->; [|done].
    rewrite <- !size_dom. by rewrite dom_alter_L.
  - intros u v (k' & recs' & J' & -> & Hk' & HJ' & <-).
    apply add_call_vertices. rewrite add_call_lookup in Hk'.
    destruct (FunctionMap CG !! k') as [recs|] eqn:Hk; [|done].
    simpl in Hk'. injection Hk' as <-.
    case_decide as Hkk; [|by apply (Hclosed (NodeOf k')); exists k', recs, J'].
    apply elem_of_app in HJ' as [HJ'| ->%list_elem_of_singleton]; [|done].
    apply (Hclosed (NodeOf k')). by exists k', recs, J'.
Qed.

Lemma add_call_in_CallGraph {V} CG k J (m : gmap Function V) :
  in_CallGraph CG m = true → in_CallGraph (add_call CG k J) m = true.
Proof.
  unfold in_CallGraph. rewrite !forallb_forall. intros Hall Node HNode.
  specialize (Hall Node HNode). rewrite bool_decide_eq_true in *.
  by rewrite add_call_lookup, fmap_is_Some.
Qed.

Lemma tc_mono {V} (R R' : relation V) u v :
  (∀ x y, R x y → R' x y) → tc R u v → tc R' u v.
Proof.
  intros Hsub. induction 1 as [x y Hxy|x y z Hxy _ IH].
  - by apply tc_once, Hsub.
  - eapply tc_l; [by apply Hsub|done].
Qed.

(** C7.  Adding a call record to a node of the graph never lowers the
    [TransClosureInDeg] the closure stage gives to a function of the
    registry. *)
Theorem TransClosureInDeg_monotone CG k J (m : Result) :
  closure_ok CG = true → in_CallGraph CG m = true →
  second J ∈ vertices CG →
  ∃ m1 m2,
    computeCallGraphTransClosure CG m = Returns m1 ∧
    computeCallGraphTransClosure (add_call CG k J) m = Returns m2 ∧
    dom m1 = dom m ∧ dom m2 = dom m ∧
    ∀ F MF1 MF2, m1 !! F = Some MF1 → m2 !! F = Some MF2 →
      (TransClosureInDeg MF1 ≤ TransClosureInDeg MF2)%Z.
Proof.
  intros Hclo Hin HJ.
  pose proof (add_call_closure_ok CG k J Hclo HJ) as Hclo'.
  pose proof (add_call_in_CallGraph CG k J m Hin) as Hin'.
  destruct (computeCallGraphTransClosure_nodes CG m Hclo Hin)
    as (A1 & m1 & _ & Hm1 & Hdom1 & _ & Hent1).
  destruct (computeCallGraphTransClosure_nodes
              (add_call CG k J) m Hclo' Hin')
    as (A2 & m2 & _ & Hm2 & Hdom2 & _ & Hent2).
  exists m1, m2. split_and!; [done..|].
  intros F MF1 MF2 HF1 HF2.
  assert (is_Some (m !! F)) as [MF HF].
  { apply elem_of_dom. rewrite <- Hdom1. apply elem_of_dom. eauto. }
  destruct (Hent1 F MF HF) as (_ & l1 & _ & _ & Hnd1 & Hl1 & _ & HF1').
  destruct (Hent2 F MF HF) as (_ & l2 & _ & _ & Hnd2 & Hl2 & _ & HF2').
  simplify_eq/=. apply inj_le, submseteq_length, NoDup_submseteq; [done|].
  intros u Hu%Hl1. apply Hl2.
  eapply tc_mono; [|done]. intros ??. apply add_call_calls.
Qed.

Lemma TransClosureInDeg_monotone_witness :
  ∃ m1 m2,
    computeCallGraphTransClosure Chain.CG Chain.stale = Returns m1 ∧
    computeCallGraphTransClosure
      (add_call Chain.CG (Some Chain.fX) (Chain.call Chain.fA)) Chain.stale
    = Returns m2 ∧
    TransClosureInDeg <$> m1 !! Chain.fC = Some 11%Z ∧
    TransClosureInDeg <$> m2 !! Chain.fC = Some 12%Z.
Proof.
  destruct (TransClosureInDeg_monotone Chain.CG (Some Chain.fX)
              (Chain.call Chain.fA) Chain.stale)
    as (m1 & m2 & Hm1 & Hm2 & _).
  - vm_compute. reflexivity.
  - vm_compute. reflexivity.
  - apply (bool_decide_unpack _). vm_compute. exact I.
  - exists m1, m2. split; [exact Hm1|]. split; [exact Hm2|]. split.
    + by_running Hm1. reflexivity.
    + by_running Hm2. reflexivity.
Defined.

(** ** C6: the chain scenario *)

Lemma calls_b_calls CG u v : calls_b CG u v = true → calls CG u v.
Proof.
  unfold calls_b. destruct u as [k|]; [|done].
  destruct (FunctionMap CG !! k) as [recs|] eqn:Hk; [|done].
  intros (J & -> & HJ)%bool_decide_eq_true%list_elem_of_fmap.
  by exists k, recs, J.
Qed.

Lemma walk_b_tc CG u via v : walk_b CG u via v = true → tc (calls CG) u v.
Proof.
  intros Hw. apply walk_tc. exists via. revert u Hw.
  induction via as [|w via IH]; intros u; simpl.
  - apply calls_b_calls.
  - intros [Huw Hw]%andb_true_iff. split; [by apply calls_b_calls|by apply IH].
Qed.

Lemma is_root_no_caller CG u G :
  is_root CG u = true → ¬ calls CG (NodeOf (Some G)) u.
Proof.
  unfold is_root. rewrite forallb_forall.
  intros Hroot (k & recs & J & [= <-] & Hk & HJ & Hu).
  assert (J ∈ call_sites CG) as HJ'.
  { unfold call_sites. apply list_elem_of_In, in_concat. exists recs.
    rewrite <- !list_elem_of_In. split; [|done].
    apply list_elem_of_fmap. exists (Some G, recs). split; [done|].
    apply elem_of_map_to_list. by rewrite lookup_delete_ne. }
  apply list_elem_of_In, Hroot, bool_decide_eq_true in HJ'. done.
Qed.

(** When the ten functions are all the nodes that reach [C], and so are
    not all roots, the transitive in-degree of [C] is 10. *)
Example chain_scenario_ten_reaching_nodes :
  inputs_ok Ten.CG Chain.MMIOFuncs = true ∧
  chain_scenario Ten.CG Chain.MMIOFuncs Chain.fA Chain.fB Chain.fC
    Ten.reaching "/drv" = true ∧
  all_roots Ten.CG Ten.reaching = false ∧
  read (runOnModule ∅ Ten.CG Chain.MMIOFuncs []) Chain.fC TransClosureInDeg
    = Some 10%Z ∧
  read (runOnModule ∅ Ten.CG Chain.MMIOFuncs []) Chain.fC IsHal2
    = Some true.
Proof. split_and!; vm_compute; reflexivity. Qed.

(** The counterexample to C6 as stated: in a chain scenario whose ten
    functions are roots, the transitive in-degree of [C] is 11, as [B]
    reaches [C] as well, and it is 12 when the external calling node has
    call records for the roots. *)
Lemma chain_scenario_TransClosureInDeg_is_11 :
  inputs_ok Chain.CG Chain.MMIOFuncs = true ∧
  chain_scenario Chain.CG Chain.MMIOFuncs Chain.fA Chain.fB Chain.fC
    Chain.roots "/drv" = true ∧
  all_roots Chain.CG Chain.roots = true ∧
  sole_in Chain.MMIOFuncs Chain.fC "/drv" = true ∧
  read (runOnModule ∅ Chain.CG Chain.MMIOFuncs []) Chain.fC TransClosureInDeg
    = Some 11%Z ∧
  read (runOnModule ∅ Chain.CG Chain.MMIOFuncs []) Chain.fC TransClosureInDeg
    ≠ Some 10%Z ∧
  inputs_ok Visible.CG Chain.MMIOFuncs = true ∧
  chain_scenario Visible.CG Chain.MMIOFuncs Chain.fA Chain.fB Chain.fC
    Chain.roots "/drv" = true ∧
  all_roots Visible.CG Chain.roots = true ∧
  read (runOnModule ∅ Visible.CG Chain.MMIOFuncs []) Chain.fC
    TransClosureInDeg = Some 12%Z.
Proof.
  split_and!; try (vm_compute; reflexivity). vm_compute. discriminate.
Qed.

(** C6, amended.  In the scenario of a chain [A → B → C] with ten distinct
    functions that each reach [C], a function of the registry whose
    [Dirname] is [drv], the [TransClosureInDeg] of [C] is the number of all
    distinct nodes that reach [C]: it is at least 10, it is 10 exactly when
    the ten functions are the only nodes that reach [C], and it is at least
    11 when the ten functions are roots, as [B] is none of them.  The
    [Dirname] of [C] is collected as a HAL directory and every function of
    the registry with this [Dirname] has [IsHal2] set, whatever its
    [InDegree]. *)
Theorem chain_scenario_IsHal2 (m0 : Result) CG
    (MMIOFuncs : FindMMIOFunc_Result) errs A B C roots drv :
  inputs_ok CG MMIOFuncs = true →
  chain_scenario CG MMIOFuncs A B C roots drv = true →
  ∃ R MC l,
    runOnModule m0 CG MMIOFuncs errs = Returns (R, errs) ∧
    R !! C = Some MC ∧ Dirname MC = drv ∧
    NoDup l ∧ (∀ u, u ∈ l ↔ tc (calls CG) u (NodeOf (Some C))) ∧
    TransClosureInDeg MC = Z.of_nat (length l) ∧
    (10 ≤ TransClosureInDeg MC)%Z ∧
    (TransClosureInDeg MC = 10%Z ↔
       ∀ u, tc (calls CG) u (NodeOf (Some C)) →
            ∃ r, r ∈ roots.*1 ∧ u = NodeOf (Some r)) ∧
    (all_roots CG roots = true → (11 ≤ TransClosureInDeg MC)%Z) ∧
    drv ∈ collect_HalDirs R ∧
    ∀ G MG, R !! G = Some MG → Dirname MG = drv → IsHal2 MG = true.
Proof.
  intros Hok Hsc. unfold chain_scenario in Hsc.
  rewrite !andb_true_iff, !bool_decide_eq_true in Hsc.
  destruct Hsc as [[[[[HAB HBC] Hnd] Hten] Hwalks] HdirC].
  rewrite forallb_forall in Hwalks.
  destruct (MMIOFuncs !! C) as [P|] eqn:HP; [|done]. simpl in HdirC.
  destruct (runOnModule_entries m0 CG MMIOFuncs errs Hok)
    as (R & HR & Hnone & Hent).
  destruct (Hent C P HP)
    as (MC0 & l & MC & Hnew & Hndl & Hl & HRC & _ & _ & _ & Hdir & _ & Htc
        & Hiff).
  assert (Dirname MC = drv) as Hdrv.
  { rewrite Hnew in HdirC. simpl in HdirC. congruence. }
  set (L := (λ r, NodeOf (Some r)) <$> roots.*1).
  assert (length L = 10) as HlenL.
  { unfold L. by rewrite !length_fmap. }
  assert (NoDup L) as HndL.
  { apply NoDup_fmap_2_strong; [|done]. by intros ?? _ _ [=]. }
  assert (∀ u, u ∈ L → u ∈ l) as HLl.
  { intros u (r & -> & Hr)%list_elem_of_fmap. apply Hl.
    apply list_elem_of_fmap in Hr as ([r' via] & -> & Hr).
    apply list_elem_of_In, Hwalks in Hr. by eapply walk_b_tc. }
  assert (10 ≤ length l) as Hlen.
  { rewrite <- HlenL. by apply submseteq_length, NoDup_submseteq. }
  assert (∃ G MG, R !! G = Some MG ∧ Dirname MG = drv
                  ∧ (10 ≤ TransClosureInDeg MG)%Z) as Hhal.
  { exists C, MC. split_and!; [done..|lia]. }
  exists R, MC, l. split_and!; [done..|lia| | | |].
  - rewrite Htc. split.
    + intros Hl10 u Hu%Hl.
      assert (L ≡ₚ l) as Hperm.
      { apply submseteq_length_Permutation; [by apply NoDup_submseteq|lia]. }
      rewrite <- Hperm in Hu.
      apply list_elem_of_fmap in Hu as (r & -> & Hr). by exists r.
    + intros Hall. assert (length l ≤ length L); [|lia].
      apply submseteq_length, NoDup_submseteq; [done|].
      intros u (r & Hr & ->)%Hl%Hall. unfold L.
      apply list_elem_of_fmap. by exists r.
  - intros Hroots. unfold all_roots in Hroots.
    rewrite forallb_forall in Hroots.
    assert (length (NodeOf (Some B) :: L) ≤ length l); [|simpl in *; lia].
    apply submseteq_length, NoDup_submseteq.
    + apply NoDup_cons. split; [|done].
      intros (r & [= <-] & Hr)%list_elem_of_fmap.
      apply list_elem_of_fmap in Hr as ([r via] & -> & Hr).
      apply list_elem_of_In, Hroots in Hr.
      by eapply is_root_no_caller, calls_b_calls.
    + intros u [->|Hu]%elem_of_cons; [|by apply HLl].
      by apply Hl, tc_once, calls_b_calls.
  - apply collect_HalDirs_elem. destruct Hhal as (G & MG & ? & ? & ?).
    by exists G, MG.
  - intros G MG HG HdG.
    destruct (MMIOFuncs !! G) as [PG|] eqn:HPG.
    + destruct (Hent G PG HPG)
        as (_ & _ & MG' & _ & _ & _ & HRG & _ & _ & _ & _ & _ & _ & HiffG).
      simplify_eq. apply HiffG. destruct Hhal as (G' & MG' & ? & ? & ?).
      exists G', MG'. split_and!; [done|congruence|done].
    + by rewrite (Hnone G HPG) in HG.
Qed.

Lemma chain_scenario_IsHal2_witness :
  ∃ R MC MD,
    runOnModule Chain.stale Visible.CG Shared.MMIOFuncs []
    = Returns (R, []) ∧
    R !! Chain.fC = Some MC ∧ (11 ≤ TransClosureInDeg MC)%Z ∧
    IsHal2 MC = true ∧
    R !! Shared.fD = Some MD ∧ InDegree MD = 0%Z ∧ IsHal2 MD = true.
Proof.
  destruct (chain_scenario_IsHal2 Chain.stale Visible.CG Shared.MMIOFuncs []
              Chain.fA Chain.fB Chain.fC Chain.roots "/drv")
    as (R & MC & l & HR & HMC & Hdrv & _ & _ & _ & _ & _ & Hge & _ & Hall);
    [vm_compute; reflexivity..|].
  assert (∃ MD, R !! Shared.fD = Some MD ∧ InDegree MD = 0%Z
                ∧ Dirname MD = "/drv") as (MD & HMD & Hin & HdD).
  { by_running HR. eexists. split_and!; reflexivity. }
  exists R, MC, MD. split_and!; [exact HR|exact HMC| | |exact HMD|exact Hin|].
  - apply Hge. vm_compute. reflexivity.
  - exact (Hall Chain.fC MC HMC Hdrv).
  - exact (Hall Shared.fD MD HMD HdD).
Defined.

(** ** C8: runs do not depend on earlier runs *)

Lemma add_MMIOFunc_stream acc e1 e2 Node :
  match add_MMIOFunc (acc, e1) Node, add_MMIOFunc (acc, e2) Node with
  | Returns r1, Returns r2 => r1.1 = r2.1
  | Faults f1, Faults f2 => f1 = f2
  | _, _ => False
  end.
Proof.
  unfold add_MMIOFunc, MMIOFunc_ctor, isHalFunc, isHalFuncRegex.
  destruct (getSubprogram Node.1) as [DISub|]; [|done].
  destruct (getFile DISub) as [File|]; [|done].
  simpl. by destruct (_ || _).
Qed.

Lemma for_each_add_MMIOFunc_stream l acc e1 e2 :
  match for_each add_MMIOFunc l (acc, e1), for_each add_MMIOFunc l (acc, e2)
  with
  | Returns r1, Returns r2 => r1.1 = r2.1
  | Faults f1, Faults f2 => f1 = f2
  | _, _ => False
  end.
Proof.
  revert acc e1 e2. induction l as [|Node l IH]; intros acc e1 e2; [done|].
  cbn [for_each]. pose proof (add_MMIOFunc_stream acc e1 e2 Node) as Hstep.
  destruct (add_MMIOFunc (acc, e1) Node) as [[acc1 e1']|f1],
           (add_MMIOFunc (acc, e2) Node) as [[acc2 e2']|f2];
    try done; rewrite ?bind_Returns.
  simpl in Hstep. subst acc2. apply IH.
Qed.

(** C8.  The outcome of a run is a function of the call graph, the MMIO
    registry and the error stream alone: the member map an earlier run left
    is cleared.  The registry returned does not depend on the stream
    either, so that a second run on the same inputs, started from the
    state the first one left, returns the same registry. *)
Theorem runOnModule_stateless (m1 m2 : Result) CG
    (MMIOFuncs : FindMMIOFunc_Result) (e1 e2 : raw_ostream) :
  runOnModule m1 CG MMIOFuncs e1 = runOnModule m2 CG MMIOFuncs e1 ∧
  registry_of (runOnModule m1 CG MMIOFuncs e1)
  = registry_of (runOnModule m2 CG MMIOFuncs e2) ∧
  ∀ R e', runOnModule m1 CG MMIOFuncs e1 = Returns (R, e') →
    registry_of (runOnModule R CG MMIOFuncs e') = Returns R.
Proof.
  assert (∀ (m m' : Result) e e',
            registry_of (runOnModule m CG MMIOFuncs e)
            = registry_of (runOnModule m' CG MMIOFuncs e')) as Hreg.
  { intros m m' e e'. rewrite !runOnModule_unfold. unfold registry_of.
    pose proof (for_each_add_MMIOFunc_stream (map_to_list MMIOFuncs) ∅ e e')
      as Hst.
    destruct (for_each add_MMIOFunc (map_to_list MMIOFuncs) (∅, e))
      as [[acc1 s1]|f1],
             (for_each add_MMIOFunc (map_to_list MMIOFuncs) (∅, e'))
      as [[acc2 s2]|f2]; try done; [|by subst].
    simpl in Hst. subst acc2. rewrite !bind_Returns. cbn [fst snd].
    by destruct (callGraphBasedHalIdent CG acc1). }
  split_and!; [reflexivity|apply Hreg|].
  intros R e' HR. rewrite (Hreg R m1 e' e1), HR. reflexivity.
Qed.

Lemma runOnModule_stateless_witness :
  registry_of (runOnModule Chain.stale Chain.CG Chain.MMIOFuncs [])
  = registry_of (runOnModule ∅ Chain.CG Chain.MMIOFuncs ["earlier output"]) ∧
  read (runOnModule Chain.stale Chain.CG Chain.MMIOFuncs []) Chain.fC
    TransClosureInDeg = Some 11%Z.
Proof.
  split.
  - exact (proj1 (proj2 (runOnModule_stateless Chain.stale ∅ Chain.CG
                           Chain.MMIOFuncs [] ["earlier output"]))).
  - vm_compute. reflexivity.
Defined.

(** ** C9: the report *)

Lemma split_Result_lookup (R : Result) F :
  (split_Result R).1 !! F =
    (R !! F ≫= λ MF, if IsHal MF then None else Some MF) ∧
  (split_Result R).2 !! F =
    (R !! F ≫= λ MF, if IsHal MF then Some MF else None).
Proof.
  unfold split_Result.
  assert (∀ (l : list (Function * MMIOFunc)) (a1 a2 : Result),
    NoDup l.*1 →
    let r := foldl (λ acc Node,
               if negb (IsHal Node.2)
               then (map_insert_new Node.1 Node.2 acc.1, acc.2)
               else (acc.1, map_insert_new Node.1 Node.2 acc.2))
             (a1, a2) l in
    r.1 !! F = match a1 !! F with
               | Some MF => Some MF
               | None => (list_to_map l : Result) !! F
                           ≫= λ MF, if IsHal MF then None else Some MF
               end ∧
    r.2 !! F = match a2 !! F with
               | Some MF => Some MF
               | None => (list_to_map l : Result) !! F
                           ≫= λ MF, if IsHal MF then Some MF else None
               end) as Hgen.
  { induction l as [|[F0 MF0] l IH]; intros a1 a2 Hnd; cbv zeta.
    - simpl. rewrite lookup_empty. by destruct (a1 !! F), (a2 !! F).
    - apply NoDup_cons in Hnd as [Hfresh Hnd]. simpl in Hfresh.
      apply (not_elem_of_list_to_map_1 (M:=gmap Function)) in Hfresh.
      assert ((list_to_map ((F0, MF0) :: l) : Result) !! F =
                if decide (F0 = F) then Some MF0
                else (list_to_map l : Result) !! F) as ->.
      { cbn [list_to_map foldr]. simpl. case_decide as Heq.
        - subst. apply lookup_insert_eq.
        - by apply lookup_insert_ne. }
      cbn [foldl fst snd]. destruct (IsHal MF0) eqn:HH; cbn [negb].
      + destruct (IH a1 (map_insert_new F0 MF0 a2) Hnd) as [-> ->].
        rewrite map_insert_new_lookup.
        destruct (decide (F0 = F)) as [->|Hne]; simpl;
          [rewrite Hfresh, HH|]; by destruct (a1 !! F), (a2 !! F).
      + destruct (IH (map_insert_new F0 MF0 a1) a2 Hnd) as [-> ->].
        rewrite map_insert_new_lookup.
        destruct (decide (F0 = F)) as [->|Hne]; simpl;
          [rewrite Hfresh, HH|]; by destruct (a1 !! F), (a2 !! F). }
  destruct (Hgen (map_to_list R) ∅ ∅) as [H1 H2];
    [apply NoDup_fst_map_to_list|].
  cbv zeta in H1, H2.
  by rewrite H1, H2, !lookup_empty, list_to_map_to_list.
Qed.

Lemma split_Result_filter (R : Result) :
  split_Result R =
    (filter (λ I, IsHal I.2 = false) R, filter (λ I, IsHal I.2 = true) R).
Proof.
  destruct (split_Result R) as [App Hal] eqn:Hsplit. f_equal.
  - apply map_eq. intros F. destruct (split_Result_lookup R F) as [H1 _].
    rewrite Hsplit in H1. simpl in H1. rewrite H1, map_lookup_filter.
    destruct (R !! F) as [MF|]; simpl; [|done].
    destruct (IsHal MF); by simplify_option_eq.
  - apply map_eq. intros F. destruct (split_Result_lookup R F) as [_ H2].
    rewrite Hsplit in H2. simpl in H2. rewrite H2, map_lookup_filter.
    destruct (R !! F) as [MF|]; simpl; [|done].
    destruct (IsHal MF); by simplify_option_eq.
Qed.

Lemma foldl_print_Node (l : list (Function * MMIOFunc)) OutS :
  foldl (λ OutS Node, OutS ++ print_Node Node) OutS l =
    OutS ++ concat (print_Node <$> l).
Proof.
  revert OutS. induction l as [|Node l IH]; intros OutS.
  - simpl. by rewrite app_nil_r.
  - cbn [foldl]. rewrite IH, fmap_cons. cbn [concat].
    by rewrite <- app_assoc.
Qed.

Lemma string_app_nil_r s : s +:+ EmptyString = s.
Proof. induction s as [|c s IH]; [done|]. by rewrite append_cons, IH. Qed.

Lemma string_app_assoc s1 s2 s3 : (s1 +:+ s2) +:+ s3 = s1 +:+ s2 +:+ s3.
Proof.
  induction s1 as [|c s1 IH]; [done|]. by rewrite !append_cons, IH.
Qed.

Lemma text_nil : text [] = EmptyString.
Proof. reflexivity. Qed.

Lemma text_cons s OutS : text (s :: OutS) = s +:+ text OutS.
Proof. reflexivity. Qed.

Lemma text_app OutS1 OutS2 : text (OutS1 ++ OutS2) = text OutS1 +:+ text OutS2.
Proof.
  induction OutS1 as [|s OutS1 IH]; [done|].
  by rewrite <- app_comm_cons, !text_cons, IH, string_app_assoc.
Qed.

Ltac text_chunks :=
  repeat first
    [ rewrite text_app | rewrite text_cons | rewrite text_nil
    | rewrite string_app_assoc | rewrite string_app_nil_r ].

Lemma text_col (Col : N) :
  text (if bool_decide (Col ≠ 0%N) then [":"; pretty Col] else [])
  = if decide (Col = 0%N) then EmptyString else ":" +:+ pretty Col.
Proof.
  case_bool_decide; case_decide; try done; by text_chunks.
Qed.

Lemma text_DebugLoc_print Directory Filename Line Col InlinedAt :
  text (DebugLoc_print (DebugLoc_at Directory Filename Line Col InlinedAt))
  = Filename +:+ line_col Line Col +:+ inlining_chain InlinedAt.
Proof.
  revert Directory Filename Line Col.
  induction InlinedAt as [|Directory' Filename' Line' Col' InlinedAt' IH];
    intros Directory Filename Line Col.
  - cbn [DebugLoc_print inlining_chain]. unfold line_col. text_chunks.
    by rewrite text_col.
  - change (DebugLoc_print
              (DebugLoc_at Directory Filename Line Col
                 (DebugLoc_at Directory' Filename' Line' Col' InlinedAt')))
      with ([Filename; ":"; pretty Line]
            ++ (if bool_decide (Col ≠ 0%N) then [":"; pretty Col] else [])
            ++ [" @[ "]
            ++ DebugLoc_print
                 (DebugLoc_at Directory' Filename' Line' Col' InlinedAt')
            ++ [" ]"]).
    cbn [inlining_chain]. unfold line_col at 1. text_chunks.
    by rewrite text_col, IH, !string_app_assoc.
Qed.

Lemma text_printDebugLoc DL : text (printDebugLoc DL) = location_text DL.
Proof.
  destruct DL as [|Directory Filename Line Col InlinedAt]; [done|].
  cbn [printDebugLoc location_text]. unfold line_col. text_chunks.
  rewrite text_col. do 5 f_equal.
  destruct InlinedAt as [|Directory' Filename' Line' Col' InlinedAt'];
    [done|].
  text_chunks. rewrite text_DebugLoc_print. cbn [inlining_chain].
  by rewrite !string_app_assoc.
Qed.

Lemma text_print_Node Node : text (print_Node Node) = function_line Node.
Proof.
  unfold print_Node, function_line. text_chunks.
  rewrite text_printDebugLoc. by destruct (IsHal2 Node.2).
Qed.

Lemma text_print_Nodes (l : list (Function * MMIOFunc)) :
  text (concat (print_Node <$> l)) = text (function_line <$> l).
Proof.
  induction l as [|Node l IH]; [done|].
  rewrite !fmap_cons. cbn [concat].
  by rewrite text_app, text_cons, text_print_Node, IH.
Qed.

Lemma text_printFuncs (MMIOFuncs : Result) Str :
  text (printFuncs MMIOFuncs Str) = section_text Str MMIOFuncs.
Proof.
  unfold printFuncs, section_text. rewrite foldl_print_Node, app_nil_l.
  text_chunks. by rewrite text_print_Nodes.
Qed.

(** C9.  The report is the text of two sections, "Application MMIO
    functions" with the functions whose [IsHal] is false and "Hal MMIO
    functions" with those whose [IsHal] is true, whatever [IsHal2] is;
    every function of the registry is in exactly one of them.  A section
    gives its title, the number of its functions and one line per
    function, with the name, the location of the MMIO instruction,
    [InDegree], [TransClosureInDeg] and [IsHal2]; the location is
    [directory/file:line[:col]], followed by the inlining chain when the
    instruction was inlined, and empty when the instruction has no
    location. *)
Theorem printHALBypassResult_sections (R : Result) :
  let AppFuncs : Result := filter (λ I, IsHal I.2 = false) R in
  let LibHalFuncs : Result := filter (λ I, IsHal I.2 = true) R in
  text (printHALBypassResult R) =
    section_text "Application MMIO functions" AppFuncs
    +:+ section_text "Hal MMIO functions" LibHalFuncs ∧
  (∀ F MF, R !! F = Some MF →
     if IsHal MF
     then LibHalFuncs !! F = Some MF ∧ AppFuncs !! F = None
     else AppFuncs !! F = Some MF ∧ LibHalFuncs !! F = None) ∧
  (∀ F MF, AppFuncs !! F = Some MF ∨ LibHalFuncs !! F = Some MF →
     R !! F = Some MF) ∧
  (∀ F MF, getDebugLoc (MMIOIns (Parent MF)) = DebugLoc_null →
     text (print_Node (F, MF)) =
       Function_getName F +:+ "  " +:+ pretty (InDegree MF)
       +:+ " " +:+ pretty (TransClosureInDeg MF)
       +:+ " " +:+ (if IsHal2 MF then "1" else "0") +:+ nl).
Proof.
  cbv zeta. split_and!.
  - unfold printHALBypassResult. cbv zeta.
    by rewrite split_Result_filter, text_app, !text_printFuncs.
  - intros F MF HF. rewrite !map_lookup_filter, HF. simpl.
    destruct (IsHal MF); by simplify_option_eq.
  - intros F MF [[HF _]%map_lookup_filter_Some|[HF _]%map_lookup_filter_Some];
      done.
  - intros F MF Hnull. rewrite text_print_Node. unfold function_line.
    simpl. by rewrite Hnull.
Qed.

Lemma printHALBypassResult_sections_witness :
  text (printHALBypassResult Chain.stale) =
    "=================================================" +:+ nl
    +:+ "LLVM-TUTOR: Application MMIO functions (# = 0)" +:+ nl
    +:+ "Function, Location of MMIO inst" +:+ nl
    +:+ "-------------------------------------------------" +:+ nl
    +:+ "-------------------------------------------------" +:+ nl +:+ nl
    +:+ "=================================================" +:+ nl
    +:+ "LLVM-TUTOR: Hal MMIO functions (# = 1)" +:+ nl
    +:+ "Function, Location of MMIO inst" +:+ nl
    +:+ "-------------------------------------------------" +:+ nl
    +:+ "C /drv/c.c:7:3 @[ a.c:21 ] 5 42 1" +:+ nl
    +:+ "-------------------------------------------------" +:+ nl +:+ nl.
Proof.
  rewrite (proj1 (printHALBypassResult_sections Chain.stale)).
  vm_compute. reflexivity.
Defined.

(** * Further properties *)

(** ** The constructor *)

(** X1.  For a function with debug metadata the constructor always finds a
    separator in [FullPath], which is [Dirname], the separator and a last
    component without separators; when the file name of the metadata has no
    separator, [Dirname] is the directory of the metadata. *)
Theorem MMIOFunc_ctor_splits_FullPath P F DISub File :
  getSubprogram F = Some DISub → getFile DISub = Some File →
  ∃ MF, MMIOFunc_ctor P F = Returns MF ∧
    FullPath MF =
      DIFile_getDirectory File +:+ "/" +:+ DIFile_getFilename File ∧
    (∃ c base, c ∈ separators ∧
       FullPath MF = Dirname MF +:+ String c base ∧
       Forall (λ c, c ∉ separators) (chars_of base)) ∧
    (Forall (λ c, c ∉ separators) (chars_of (DIFile_getFilename File)) →
     Dirname MF = DIFile_getDirectory File).
Proof.
  intros HDISub HFile. unfold MMIOFunc_ctor. rewrite HDISub, HFile.
  eexists. split; [done|]. simpl. split; [done|].
  set (Dir := DIFile_getDirectory File). set (Filename := DIFile_getFilename File).
  change (Dir +:+ "/" +:+ Filename) with (Dir +:+ String "/" Filename).
  split.
  - destruct (find_last_of_app_is_Some Dir "/" Filename separators)
      as [i Hi]; [by left|].
    fold separators. rewrite Hi. simpl.
    destruct (find_last_of_Some _ _ _ Hi) as (c & base & Hc & Heq & Hbase).
    by exists c, base.
  - intros Hbase. fold separators.
    rewrite (find_last_of_app_sep Dir "/" Filename separators); [|by left|done].
    simpl. apply substring_0_length_app.
Qed.

Lemma MMIOFunc_ctor_splits_FullPath_witness :
  ∃ MF, MMIOFunc_ctor Chain.ins Chain.fC = Returns MF ∧ Dirname MF = "/drv".
Proof.
  destruct (MMIOFunc_ctor_splits_FullPath Chain.ins Chain.fC
              {| getName := "C"; getLinkageName := "C";
                 getFile := Some {| DIFile_getFilename := "c.c";
                                    DIFile_getDirectory := "/drv" |} |}
              {| DIFile_getFilename := "c.c"; DIFile_getDirectory := "/drv" |})
    as (MF & HMF & _ & _ & Hdir); [reflexivity..|].
  exists MF. split; [exact HMF|]. apply Hdir.
  apply (bool_decide_unpack _). vm_compute. exact I.
Defined.

(** ** The name heuristic and its comment *)

Lemma hal_not_t_contains Str :
  contains Str "hal" → ¬ contains Str "halt" → hal_not_t Str.
Proof.
  intros (pre & suf & Heq) Hhalt. exists pre, suf. split; [done|].
  intros suf' ->. apply Hhalt. by exists pre, suf'.
Qed.

(** X2.  [isHalRegexInternal] is stricter than the regular expression of
    its comment: it holds iff the expression matches the lowercased string
    and, when "halt" occurs anywhere in it, one of "driver", "arch", "soc",
    "cmsis" occurs as well. *)
Theorem isHalRegexInternal_comment_regex s :
  let Str := transform_tolower s in
  isHalRegexInternal s = true ↔
    comment_regex Str ∧
    (contains Str "halt" →
     contains Str "driver" ∨ contains Str "arch"
     ∨ contains Str "soc" ∨ contains Str "cmsis").
Proof.
  intros Str. rewrite isHalRegexInternal_contains. fold Str.
  unfold comment_regex. split.
  - intros [[Hhal Hhalt]|Hother].
    + split; [left; by apply hal_not_t_contains|]. by intros ?.
    + split; [|by intros _]. right. tauto.
  - intros [[(pre & suf & Heq & _)|Hother] Hhalt]; [|tauto].
    assert (contains Str "hal") as Hhal by by exists pre, suf.
    destruct (found (find Str "halt")) eqn:Hf; [apply find_contains in Hf as Hc|assert (¬ contains Str "halt") as Hc by (rewrite <- find_contains; congruence)]; [right; by apply Hhalt|].
    left. by split.
Qed.

Lemma isHalRegexInternal_comment_regex_witness :
  comment_regex "hal_init".
Proof.
  exact (proj1 (proj1 (isHalRegexInternal_comment_regex "HAL_Init") eq_refl)).
Defined.

Example isHalRegexInternal_hal_halt :
  comment_regex "hal_halt" ∧ isHalRegexInternal "HAL_halt" = false.
Proof.
  split; [|reflexivity]. left. exists EmptyString, "_halt".
  split; [reflexivity|]. by intros suf' [=].
Qed.

Lemma tolower_idemp c : tolower (tolower c) = tolower c.
Proof. by destruct c as [[] [] [] [] [] [] [] []]. Qed.

Lemma transform_tolower_idemp s :
  transform_tolower (transform_tolower s) = transform_tolower s.
Proof.
  induction s as [|c s IH]; simpl; [done|]. by rewrite tolower_idemp, IH.
Qed.

(** X3.  The answer of [isHalRegexInternal] does not change when the
    string is lowercased first, and two strings with the same lowercase
    form get the same answer. *)
Theorem isHalRegexInternal_ignores_case s t :
  isHalRegexInternal (transform_tolower s) = isHalRegexInternal s ∧
  (transform_tolower s = transform_tolower t →
   isHalRegexInternal s = isHalRegexInternal t).
Proof.
  split.
  - unfold isHalRegexInternal. by rewrite transform_tolower_idemp.
  - intros Heq. unfold isHalRegexInternal. by rewrite Heq.
Qed.

Lemma isHalRegexInternal_ignores_case_witness :
  isHalRegexInternal "HAL_Init" = isHalRegexInternal "hal_INIT".
Proof.
  apply (isHalRegexInternal_ignores_case "HAL_Init" "hal_INIT"). reflexivity.
Defined.

(** ** Faults *)

Lemma for_each_Faults {A S} (body : S → A → outcome S) l acc e :
  for_each body l acc = Faults e →
  ∃ acc' x, x ∈ l ∧ body acc' x = Faults e.
Proof.
  revert acc. induction l as [|x l IH]; intros acc; simpl; [done|].
  destruct (body acc x) as [acc1|e1] eqn:Hb.
  - rewrite bind_Returns. intros (acc' & y & Hy & Hf)%IH.
    exists acc', y. split; [by right|done].
  - intros [= <-]. exists acc, x. split; [left|done].
Qed.

Lemma for_each_faults_with {A S} (body : S → A → outcome S) e0 l acc :
  (∀ acc x e, x ∈ l → body acc x = Faults e → e = e0) →
  (∃ x, x ∈ l ∧ ∀ acc, ∃ e, body acc x = Faults e) →
  for_each body l acc = Faults e0.
Proof.
  intros Honly (bad & Hin & Hbad).
  destruct (for_each body l acc) as [acc'|e] eqn:Hrun.
  - exfalso. revert acc Hrun. induction l as [|x l IH]; intros acc Hrun.
    + by apply elem_of_nil in Hin.
    + simpl in Hrun. destruct (body acc x) as [acc1|e1] eqn:Hb; [|done].
      rewrite bind_Returns in Hrun.
      apply elem_of_cons in Hin as [->|Hin].
      * destruct (Hbad acc) as [e He]. congruence.
      * eapply IH; [|done|done]. intros ?????. eapply Honly; [by right|done].
  - apply for_each_Faults in Hrun as (acc' & x & Hx & Hf).
    f_equal. by eapply Honly.
Qed.

Lemma forallb_false {A} (f : A → bool) l :
  forallb f l = false → ∃ x, x ∈ l ∧ f x = false.
Proof.
  induction l as [|x l IH]; simpl; [done|].
  destruct (f x) eqn:Hx; simpl.
  - intros (y & Hy & Hfy)%IH. exists y. split; [by right|done].
  - intros _. exists x. split; [left|done].
Qed.

(** *** Null pointers *)

Lemma add_MMIOFunc_no_debug_info acc Node :
  has_debug_info Node.1 = false →
  add_MMIOFunc acc Node = Faults NullPointerDereference.
Proof.
  unfold has_debug_info, add_MMIOFunc, MMIOFunc_ctor.
  destruct (getSubprogram Node.1) as [DISub|]; [|done].
  destruct (getFile DISub) as [File|]; [|done].
  intros Hf. apply bool_decide_eq_false in Hf. by destruct Hf.
Qed.

Lemma add_MMIOFunc_stream_kept acc e Node acc' e' :
  add_MMIOFunc (acc, e) Node = Returns (acc', e') → e' = e.
Proof.
  unfold add_MMIOFunc, MMIOFunc_ctor, isHalFunc, isHalFuncRegex.
  destruct (getSubprogram Node.1) as [DISub|]; [|done].
  destruct (getFile DISub) as [File|]; [|done].
  simpl. destruct (_ || _); by intros [= _ <-].
Qed.

Lemma for_each_add_MMIOFunc_stream_kept l acc e acc' e' :
  for_each add_MMIOFunc l (acc, e) = Returns (acc', e') → e' = e.
Proof.
  revert acc. induction l as [|Node l IH]; intros acc; simpl.
  - by intros [= _ <-].
  - destruct (add_MMIOFunc (acc, e) Node) as [[acc1 e1]|f] eqn:Hadd; [|done].
    rewrite bind_Returns. apply add_MMIOFunc_stream_kept in Hadd as ->.
    apply IH.
Qed.

Lemma runOnModule_Returns_inv (m0 : Result) CG
    (MMIOFuncs : FindMMIOFunc_Result) errs R errs' :
  runOnModule m0 CG MMIOFuncs errs = Returns (R, errs') →
  ∃ m1, for_each add_MMIOFunc (map_to_list MMIOFuncs) (∅, errs)
        = Returns (m1, errs') ∧
    callGraphBasedHalIdent CG m1 = Returns R.
Proof.
  rewrite runOnModule_unfold.
  destruct (for_each add_MMIOFunc _ _) as [[m1 e1]|f] eqn:Hm1; [|done].
  rewrite bind_Returns. cbn [fst snd].
  destruct (callGraphBasedHalIdent CG m1) as [R'|f] eqn:Hcg; [|done].
  rewrite bind_Returns. intros [= <- <-]. by exists m1.
Qed.

(** X4.  A run that returns leaves the error stream as it was: the warning
    of [isHalFuncRegex] is never written by [runOnModule], since the
    constructor of the entry has dereferenced the [DISubprogram] before. *)
Theorem runOnModule_never_warns (m0 : Result) CG
    (MMIOFuncs : FindMMIOFunc_Result) errs R errs' :
  runOnModule m0 CG MMIOFuncs errs = Returns (R, errs') → errs' = errs.
Proof.
  intros (m1 & Hm1 & _)%runOnModule_Returns_inv.
  by eapply for_each_add_MMIOFunc_stream_kept.
Qed.

Lemma runOnModule_never_warns_witness :
  ∃ R e, runOnModule ∅ Chain.CG Chain.MMIOFuncs ["earlier output"]
         = Returns (R, e) ∧ e = ["earlier output"].
Proof.
  destruct (runOnModule_entries ∅ Chain.CG Chain.MMIOFuncs ["earlier output"])
    as (R & HR & _); [vm_compute; reflexivity|].
  exists R, ["earlier output"]. split; [exact HR|].
  exact (runOnModule_never_warns _ _ _ _ _ _ HR).
Defined.

(** *** The faults of the graph stages *)

Lemma count_call_Faults (m : Result) J e :
  count_call m J = Faults e → e = SignedOverflow.
Proof.
  unfold count_call.
  destruct (CallGraphNode_getFunction (second J)) as [Callee|]; [|done].
  destruct (m !! Callee) as [MF|]; [|done].
  case_bool_decide; [done|]. by intros [= <-].
Qed.

Lemma computeCallGraphInDegrees_Faults CG (m : Result) e :
  computeCallGraphInDegrees CG m = Faults e → e = SignedOverflow.
Proof.
  unfold computeCallGraphInDegrees. rewrite for_each_nested.
  intros (acc & J & _ & Hf)%for_each_Faults. by eapply count_call_Faults.
Qed.

Lemma map_at_Faults `{Countable K} {V} (m : gmap K V) k e :
  map_at m k = Faults e → e = MapAtOutOfRange.
Proof. unfold map_at. destruct (m !! k); [done|]. by intros [= <-]. Qed.

Lemma mark_calls_Faults num N A I e :
  mark_calls num N A I = Faults e → e = MapAtOutOfRange.
Proof.
  unfold mark_calls. intros (acc & J & _ & Hf)%for_each_Faults.
  destruct (map_at num (NodeOf I.1)) as [c|e1] eqn:Hc.
  - rewrite bind_Returns in Hf.
    destruct (map_at num (second J)) as [d|e2] eqn:Hd; [done|].
    injection Hf as <-. by eapply map_at_Faults.
  - injection Hf as <-. by eapply map_at_Faults.
Qed.

Lemma reachable_Faults CG e : reachable CG = Faults e → e = MapAtOutOfRange.
Proof.
  unfold reachable, AdjMatrix.
  destruct (for_each _ _ _) as [A|e1] eqn:Hrun; [done|].
  intros [= <-]. apply for_each_Faults in Hrun as (acc & I & _ & Hf).
  by eapply mark_calls_Faults.
Qed.

Lemma computeCallGraphTransClosure_Faults CG (m : Result) e :
  computeCallGraphTransClosure CG m = Faults e →
  e ≠ NullPointerDereference.
Proof.
  unfold computeCallGraphTransClosure. case_bool_decide; [|by intros [= <-]].
  destruct (reachable CG) as [A|e1] eqn:HA.
  - rewrite bind_Returns. unfold for_each_entry.
    intros (acc & I & _ & Hf)%for_each_Faults.
    unfold CallGraph_at in Hf.
    destruct (FunctionMap CG !! Some I.1); [|by injection Hf as <-].
    rewrite bind_Returns in Hf.
    destruct (map_at (CGN2Num CG) (NodeOf (Some I.1))) as [n|e2] eqn:Hn;
      [done|].
    injection Hf as <-. by rewrite (map_at_Faults _ _ _ Hn).
  - intros [= <-]. by rewrite (reachable_Faults _ _ HA).
Qed.

Lemma callGraphBasedHalIdent_Faults CG (m : Result) e :
  callGraphBasedHalIdent CG m = Faults e → e ≠ NullPointerDereference.
Proof.
  rewrite callGraphBasedHalIdent_unfold.
  destruct (computeCallGraphInDegrees CG m) as [m2|e1] eqn:H2.
  - rewrite bind_Returns.
    destruct (computeCallGraphTransClosure CG m2) as [m3|e2] eqn:H3; [done|].
    intros [= <-]. by eapply computeCallGraphTransClosure_Faults.
  - intros [= <-]. by rewrite (computeCallGraphInDegrees_Faults _ _ _ H2).
Qed.

(** X5.  A run faults on a null pointer exactly when a function of the
    registry lacks a [DISubprogram] or its [DISubprogram] lacks a [DIFile],
    whatever the call graph is. *)
Theorem runOnModule_NullPointerDereference_iff (m0 : Result) CG
    (MMIOFuncs : FindMMIOFunc_Result) errs :
  runOnModule m0 CG MMIOFuncs errs = Faults NullPointerDereference ↔
    ∃ F P, MMIOFuncs !! F = Some P ∧ has_debug_info F = false.
Proof.
  rewrite runOnModule_unfold. split.
  - intros Hrun.
    destruct (forallb (λ Node, has_debug_info Node.1) (map_to_list MMIOFuncs))
      eqn:Hall.
    + exfalso. rewrite forallb_forall in Hall.
      destruct (add_MMIOFunc_loop (map_to_list MMIOFuncs) ∅ errs)
        as (m1 & Hm1 & _).
      { apply NoDup_fst_map_to_list. }
      { intros F P HFP%list_elem_of_In. by apply (Hall (F, P)). }
      rewrite Hm1, bind_Returns in Hrun. cbn [fst snd] in Hrun.
      destruct (callGraphBasedHalIdent CG m1) as [R|e] eqn:Hcg; [done|].
      injection Hrun as ->. by eapply callGraphBasedHalIdent_Faults.
    + apply forallb_false in Hall as ([F P] & HFP & Hdbg).
      exists F, P. by apply elem_of_map_to_list in HFP.
  - intros (F & P & HF & Hdbg).
    rewrite (for_each_faults_with add_MMIOFunc NullPointerDereference);
      [done| |].
    + intros acc Node e _. apply add_MMIOFunc_faults.
    + exists (F, P). split; [by apply elem_of_map_to_list|].
      intros acc. exists NullPointerDereference.
      by apply add_MMIOFunc_no_debug_info.
Qed.

Lemma runOnModule_NullPointerDereference_iff_witness :
  runOnModule ∅ Chain.CG Broken.MMIOFuncs_NoFile []
  = Faults NullPointerDereference.
Proof.
  apply runOnModule_NullPointerDereference_iff.
  exists Broken.fNoFile, Chain.ins. split; vm_compute; reflexivity.
Defined.

(** *** Missing nodes *)

Lemma closure_ok_false CG :
  (Z.of_nat (TotNumOfCGN CG) * Z.of_nat (TotNumOfCGN CG) ≤ INT_MAX)%Z →
  closure_ok CG = false →
  ∃ k recs J, FunctionMap CG !! k = Some recs ∧ J ∈ recs ∧
              second J ∉ vertices CG.
Proof.
  intros Hguard. unfold closure_ok.
  rewrite bool_decide_eq_true_2 by done. simpl.
  intros ([k recs] & HI & Hrecs)%forallb_false.
  apply forallb_false in Hrecs as (J & HJ & Hv).
  apply bool_decide_eq_false in Hv. apply elem_of_map_to_list in HI.
  by exists k, recs, J.
Qed.

Lemma mark_calls_dangling CG A k recs J :
  FunctionMap CG !! k = Some recs → J ∈ recs → second J ∉ vertices CG →
  mark_calls (CGN2Num CG) (TotNumOfCGN CG) A (k, recs)
  = Faults MapAtOutOfRange.
Proof.
  intros Hk HJ Hv. unfold mark_calls. cbn [fst snd].
  apply for_each_faults_with.
  - intros acc J' e _ Hf.
    destruct (map_at (CGN2Num CG) (NodeOf k)) as [c|e1] eqn:Hc.
    + rewrite bind_Returns in Hf.
      destruct (map_at (CGN2Num CG) (second J')) as [d|e2] eqn:Hd; [done|].
      injection Hf as <-. by eapply map_at_Faults.
    + injection Hf as <-. by eapply map_at_Faults.
  - exists J. split; [done|]. intros acc. exists MapAtOutOfRange.
    destruct (CGN2Num_is_Some CG (NodeOf k)) as [c Hc];
      [by eapply key_vertex|].
    rewrite (map_at_Some _ _ _ Hc), bind_Returns. unfold map_at.
    destruct (CGN2Num CG !! second J) as [d|] eqn:Hd; [|done].
    exfalso. apply Hv. apply CGN2Num_lookup in Hd.
    by eapply list_elem_of_lookup_2.
Qed.

Lemma computeCallGraphTransClosure_unfold CG (m : Result) :
  computeCallGraphTransClosure CG m =
    if bool_decide (Z.of_nat (TotNumOfCGN CG) * Z.of_nat (TotNumOfCGN CG)
                    ≤ INT_MAX)%Z
    then A ← reachable CG;
         for_each_entry (λ F MF,
             Node ← CallGraph_at CG F;
             Num ← map_at (CGN2Num CG) Node;
             Returns (set_TransClosureInDeg
                        (column_sums (TotNumOfCGN CG) A !!! Num) MF)) m
    else Faults SignedOverflow.
Proof. reflexivity. Qed.

Lemma set_degree_outcome CG (A : list Z) F (MF : MMIOFunc) :
  (Node ← CallGraph_at CG F;
   Num ← map_at (CGN2Num CG) Node;
   Returns (set_TransClosureInDeg
              (column_sums (TotNumOfCGN CG) A !!! Num) MF)) =
  match FunctionMap CG !! Some F with
  | Some _ =>
      Returns (set_TransClosureInDeg
                 (column_sums (TotNumOfCGN CG) A
                    !!! default 0 (CGN2Num CG !! NodeOf (Some F))) MF)
  | None => Faults FunctionNotInCallGraph
  end.
Proof.
  unfold CallGraph_at.
  destruct (FunctionMap CG !! Some F) as [recs|] eqn:HF; [|done].
  rewrite bind_Returns.
  destruct (CGN2Num_is_Some CG (NodeOf (Some F))) as [c Hc];
    [by eapply key_vertex|].
  by rewrite (map_at_Some _ _ _ Hc), bind_Returns, Hc.
Qed.

Lemma for_each_entry_Faults `{Countable K} {V} (body : K → V → outcome V)
    (m : gmap K V) e :
  for_each_entry body m = Faults e →
  ∃ k v, m !! k = Some v ∧ body k v = Faults e.
Proof.
  unfold for_each_entry. intros (acc & [k v] & Hin & Hf)%for_each_Faults.
  exists k, v. split; [by apply elem_of_map_to_list|].
  cbn [fst snd] in Hf.
  destruct (body k v) as [v'|e'] eqn:Hb; cbn [mbind outcome_bind] in Hf;
    [done|congruence].
Qed.

Lemma for_each_entry_faults_with `{Countable K} {V}
    (body : K → V → outcome V) e0 (m : gmap K V) :
  (∀ k v e, body k v = Faults e → e = e0) →
  (∃ k v e, m !! k = Some v ∧ body k v = Faults e) →
  for_each_entry body m = Faults e0.
Proof.
  intros Honly (k & v & e & Hk & Hbad). unfold for_each_entry.
  apply for_each_faults_with.
  - intros acc [k' v'] e' _ Hf. cbn [fst snd] in Hf.
    destruct (body k' v') as [v''|e''] eqn:Hb; cbn [mbind outcome_bind] in Hf;
      [done|].
    injection Hf as <-. by eapply Honly.
  - exists (k, v). split; [by apply elem_of_map_to_list|].
    intros acc. exists e. cbn [fst snd]. by rewrite Hbad.
Qed.

(** X6.  When the matrix fits the range of [int], the closure stage throws
    the [out_of_range] of [std::map::at] exactly when some call record
    calls a node the graph does not hold, whatever the registry is, also
    when it is empty. *)
Theorem computeCallGraphTransClosure_dangling_record CG (m : Result) :
  (Z.of_nat (TotNumOfCGN CG) * Z.of_nat (TotNumOfCGN CG) ≤ INT_MAX)%Z →
  computeCallGraphTransClosure CG m = Faults MapAtOutOfRange ↔
    ∃ k recs J, FunctionMap CG !! k = Some recs ∧ J ∈ recs ∧
                second J ∉ vertices CG.
Proof.
  intros Hguard. rewrite computeCallGraphTransClosure_unfold.
  rewrite bool_decide_eq_true_2 by done. split.
  - intros Hrun.
    destruct (closure_ok CG) eqn:Hclo; [|by apply closure_ok_false].
    exfalso. destruct (closure_ok_spec CG Hclo) as [_ Hclosed].
    destruct (reachable_calls CG Hclosed) as (A & HA & _).
    rewrite HA, bind_Returns in Hrun.
    apply for_each_entry_Faults in Hrun as (F & MF & _ & Hf).
    rewrite set_degree_outcome in Hf.
    by destruct (FunctionMap CG !! Some F).
  - intros (k & recs & J & Hk & HJ & Hv).
    assert (AdjMatrix CG = Faults MapAtOutOfRange) as HA.
    { unfold AdjMatrix. apply for_each_faults_with.
      - intros acc I e _. apply mark_calls_Faults.
      - exists (k, recs). split; [by apply elem_of_map_to_list|].
        intros acc. exists MapAtOutOfRange. by eapply mark_calls_dangling. }
    unfold reachable. by rewrite HA.
Qed.

Lemma computeCallGraphTransClosure_dangling_record_witness :
  computeCallGraphTransClosure Broken.CG_dangling ∅ = Faults MapAtOutOfRange.
Proof.
  apply computeCallGraphTransClosure_dangling_record.
  - vm_compute. discriminate.
  - exists (Some Chain.fA), [Chain.call Chain.fB], (Chain.call Chain.fB).
    split; [vm_compute; reflexivity|]. split; [left|].
    apply (bool_decide_unpack _). vm_compute. exact I.
Defined.

(** X7.  On a graph whose called nodes are all nodes of the graph, the
    closure stage returns iff every function of the registry is a node of
    the graph; otherwise the assertion of [CG[F]] fails. *)
Theorem computeCallGraphTransClosure_missing_function CG (m : Result) :
  closure_ok CG = true →
  (in_CallGraph CG m = true →
   ∃ m', computeCallGraphTransClosure CG m = Returns m') ∧
  (in_CallGraph CG m = false →
   computeCallGraphTransClosure CG m = Faults FunctionNotInCallGraph).
Proof.
  intros Hclo. split.
  - intros Hin.
    destruct (computeCallGraphTransClosure_nodes CG m Hclo Hin)
      as (A & m' & _ & Hm' & _). by exists m'.
  - intros Hin. destruct (closure_ok_spec CG Hclo) as [Hguard Hclosed].
    destruct (reachable_calls CG Hclosed) as (A & HA & _).
    rewrite computeCallGraphTransClosure_unfold.
    rewrite bool_decide_eq_true_2, HA, bind_Returns by done.
    unfold in_CallGraph in Hin.
    apply forallb_false in Hin as ([F MF] & HF & Hnot).
    apply bool_decide_eq_false in Hnot. cbn [fst] in Hnot.
    apply eq_None_not_Some in Hnot. apply elem_of_map_to_list in HF.
    apply for_each_entry_faults_with.
    + intros F' MF' e. rewrite set_degree_outcome.
      destruct (FunctionMap CG !! Some F'); [done|]. by intros [= <-].
    + exists F, MF, FunctionNotInCallGraph. split; [done|].
      by rewrite set_degree_outcome, Hnot.
Qed.

Lemma computeCallGraphTransClosure_missing_function_witness :
  computeCallGraphTransClosure Broken.CG_small Chain.stale
  = Faults FunctionNotInCallGraph ∧
  ∃ m', computeCallGraphTransClosure Chain.CG Chain.stale = Returns m'.
Proof.
  split.
  - apply (computeCallGraphTransClosure_missing_function
             Broken.CG_small Chain.stale); vm_compute; reflexivity.
  - apply (computeCallGraphTransClosure_missing_function
             Chain.CG Chain.stale); vm_compute; reflexivity.
Defined.

(** *** The empty registry *)

Lemma for_each_count_call_empty l :
  for_each count_call l (∅ : Result) = Returns ∅.
Proof.
  induction l as [|J l IH]; [done|]. simpl.
  assert (count_call ∅ J = Returns ∅) as ->; [|by rewrite bind_Returns].
  unfold count_call.
  destruct (CallGraphNode_getFunction (second J)) as [Callee|]; [|done].
  by rewrite lookup_empty.
Qed.

(** X8.  With an empty MMIO registry a run returns the empty registry and
    leaves the stream alone, provided the graph can be closed at all: its
    matrix fits [int] and every called node is a node of the graph.  The
    number of call records does not matter. *)
Theorem runOnModule_empty_registry (m0 : Result) CG errs :
  closure_ok CG = true →
  runOnModule m0 CG ∅ errs = Returns (∅, errs).
Proof.
  intros Hclo.
  destruct (computeCallGraphTransClosure_reaching CG ∅ Hclo)
    as (m3 & Hm3 & Hnone & _); [by intros F MF; rewrite lookup_empty|].
  assert (m3 = ∅) as ->.
  { apply map_eq. intros F. rewrite lookup_empty. apply Hnone.
    apply lookup_empty. }
  rewrite (runOnModule_stages m0 CG ∅ errs ∅ ∅ ∅ errs).
  - by rewrite fmap_empty.
  - by rewrite map_to_list_empty.
  - unfold computeCallGraphInDegrees. rewrite fmap_empty, for_each_nested.
    apply for_each_count_call_empty.
  - done.
Qed.

Lemma runOnModule_empty_registry_witness :
  runOnModule Chain.stale Chain.CG ∅ ["earlier output"]
  = Returns (∅, ["earlier output"]).
Proof.
  apply runOnModule_empty_registry. vm_compute. reflexivity.
Defined.

(** ** The closure as an operation on matrices *)

Lemma tc_tc {V} (R : relation V) u v : tc (tc R) u v → tc R u v.
Proof.
  induction 1 as [x y Hxy|x y z Hxy _ IH]; [done|]. by eapply tc_trans.
Qed.

Lemma tc_edge_bound N A i j : tc (edge N A) i j → i < N ∧ j < N.
Proof.
  induction 1 as [x y (Hx & Hy & _)|x y z (Hx & _ & _) _ [_ Hz]]; by split.
Qed.

(** X9.  On every [N × N] matrix the triple loop keeps the set cells, its
    result is transitive, and running it on its own result changes no
    cell. *)
Theorem closure_loops_closure N (A : list Z) :
  length A = N * N →
  let C := closure_loops N A in
  (∀ i j, i < N → j < N → entry N A i j = true → entry N C i j = true) ∧
  (∀ i k j, i < N → k < N → j < N →
     entry N C i k = true → entry N C k j = true → entry N C i j = true) ∧
  (∀ i j, i < N → j < N →
     entry N (closure_loops N C) i j = entry N C i j).
Proof.
  intros Hlen C. destruct (closure_loops_tc N A Hlen) as [HlenC HC].
  destruct (closure_loops_tc N C HlenC) as [_ HCC]. fold C in HC.
  split_and!.
  - intros i j Hi Hj He. apply (HC i j Hi Hj). apply tc_once. by split_and!.
  - intros i k j Hi Hk Hj Hik Hkj. apply (HC i j Hi Hj).
    eapply tc_trans; [by apply (HC i k Hi Hk)|by apply (HC k j Hk Hj)].
  - intros i j Hi Hj. apply Bool.eq_iff_eq_true.
    rewrite HCC, HC by done. split.
    + intros Htc. apply tc_tc. eapply tc_mono; [|done].
      intros x y (Hx & Hy & He). by apply (HC x y Hx Hy).
    + intros Htc. apply tc_once. split_and!; [done..|].
      by apply (HC i j Hi Hj).
Qed.

Lemma closure_loops_closure_witness :
  entry 3 (closure_loops 3 [0; 1; 0; 0; 0; 1; 0; 0; 0]%Z) 0 2 = true.
Proof.
  destruct (closure_loops_closure 3 [0; 1; 0; 0; 0; 1; 0; 0; 0]%Z eq_refl)
    as (Hext & Htrans & _).
  apply (Htrans 0 1 2); [lia..| |]; apply Hext; (lia || reflexivity).
Defined.

(** ** The numbering of the nodes *)

(** X10.  [CGN2Num] numbers the nodes of the graph and the node for
    external calls with the distinct indices below [TotNumOfCGN], which is
    one more than the number of nodes of the graph; the node for external
    calls has the last index and no other node is numbered. *)
Theorem CGN2Num_dense CG :
  TotNumOfCGN CG = S (size (FunctionMap CG)) ∧
  CGN2Num CG !! CallsExternal = Some (size (FunctionMap CG)) ∧
  (∀ k, is_Some (CGN2Num CG !! NodeOf k) ↔ is_Some (FunctionMap CG !! k)) ∧
  (∀ u i, CGN2Num CG !! u = Some i → i < TotNumOfCGN CG) ∧
  (∀ u v i, CGN2Num CG !! u = Some i → CGN2Num CG !! v = Some i → u = v) ∧
  (∀ i, i < TotNumOfCGN CG → ∃ u, CGN2Num CG !! u = Some i).
Proof.
  split_and!.
  - apply TotNumOfCGN_size.
  - unfold CGN2Num. rewrite lookup_insert_eq. f_equal.
    pose proof (TotNumOfCGN_size CG) as Hsize. unfold TotNumOfCGN in Hsize.
    by injection Hsize.
  - intros k. split.
    + intros [i Hi]. apply CGN2Num_lookup, list_elem_of_lookup_2 in Hi.
      apply vertices_elem in Hi as [?|(k' & [= <-] & ?)]; done.
    + intros [recs Hk]. apply CGN2Num_is_Some. by eapply key_vertex.
  - apply CGN2Num_lt.
  - apply CGN2Num_inj.
  - intros i Hi. rewrite <- vertices_length in Hi.
    destruct (lookup_lt_is_Some_2 _ _ Hi) as [u Hu].
    exists u. by apply CGN2Num_lookup.
Qed.

(** ** Bounds of the transitive in-degree *)

Lemma tc_first {V} (R : relation V) u v : tc R u v → ∃ w, R u w.
Proof. destruct 1; eauto. Qed.

Lemma tc_last {V} (R : relation V) u v : tc R u v → ∃ w, R w v.
Proof. induction 1 as [x y Hxy|x y z _ _ IH]; eauto. Qed.

Lemma reaching_nodes_length CG (l : list CallGraphNode) v :
  NoDup l → (∀ u, u ∈ l → tc (calls CG) u v) →
  length l ≤ size (FunctionMap CG).
Proof.
  intros Hnd Hl.
  assert (length (NodeOf <$> (CallGraph_nodes CG).*1) = size (FunctionMap CG))
    as <-.
  { rewrite !length_fmap. apply length_map_to_list. }
  apply submseteq_length, NoDup_submseteq; [done|].
  intros u Hu. destruct (tc_first _ _ _ (Hl u Hu)) as [w Hc].
  apply calls_vertex_l, elem_of_app in Hc as [?|Hc]; [done|].
  apply list_elem_of_singleton in Hc as ->.
  by destruct (tc_first _ _ _ (Hl _ Hu)) as [w' (k & _ & _ & [=] & _)].
Qed.

(** X11.  The node for external calls reaches no node, so that a call
    through a function pointer adds to no transitive in-degree, and the
    [TransClosureInDeg] the closure stage stores is between 0 and the
    number of nodes of the graph. *)
Theorem TransClosureInDeg_bounds CG (m : Result) :
  closure_ok CG = true → in_CallGraph CG m = true →
  (∀ v, ¬ tc (calls CG) CallsExternal v) ∧
  ∃ m', computeCallGraphTransClosure CG m = Returns m' ∧
    ∀ F MF', m' !! F = Some MF' →
      (0 ≤ TransClosureInDeg MF' ≤ Z.of_nat (size (FunctionMap CG)))%Z.
Proof.
  intros Hclo Hin. split.
  { intros v [w (k & _ & _ & [=] & _)]%tc_first. }
  destruct (computeCallGraphTransClosure_nodes CG m Hclo Hin)
    as (A & m' & _ & Hm' & Hdom & _ & Hent).
  exists m'. split; [done|]. intros F MF' HF'.
  assert (is_Some (m !! F)) as [MF HF].
  { apply elem_of_dom. rewrite <- Hdom. apply elem_of_dom. eauto. }
  destruct (Hent F MF HF) as (_ & l & _ & _ & Hnd & Hl & _ & HF'').
  simplify_eq/=. split; [lia|]. apply inj_le.
  eapply reaching_nodes_length; [done|]. intros u. apply Hl.
Qed.

Lemma TransClosureInDeg_bounds_witness :
  ∃ m', computeCallGraphTransClosure Chain.CG Chain.stale = Returns m' ∧
    ∀ F MF', m' !! F = Some MF' → (0 ≤ TransClosureInDeg MF' ≤ 14)%Z.
Proof.
  destruct (TransClosureInDeg_bounds Chain.CG Chain.stale)
    as (_ & m' & Hm' & Hb); [vm_compute; reflexivity..|].
  exists m'. split; [exact Hm'|]. exact Hb.
Defined.

(** ** The directory stage on any registry *)

Lemma callGraphBasedHalIdent_lookup CG (m : Result) :
  closure_ok CG = true → records_ok CG = true →
  (∀ F MF, m !! F = Some MF → is_Some (FunctionMap CG !! Some F)) →
  ∃ A (m3 : Result),
    reachable CG = Returns A ∧
    (∀ F, m3 !! F =
       (λ MF, set_TransClosureInDeg (degree_of CG A F)
                (set_InDegree (calls_of CG F) MF)) <$> m !! F) ∧
    callGraphBasedHalIdent CG m
    = Returns (mark_HalDir (collect_HalDirs m3) <$> m3).
Proof.
  intros Hclo Hrec%bool_decide_eq_true Hreg.
  destruct (closure_ok_spec CG Hclo) as [Hguard Hclosed].
  destruct (computeCallGraphInDegrees_lookup CG m Hrec) as (m2 & Hm2 & Hl2).
  destruct (computeCallGraphTransClosure_lookup CG m2 Hguard Hclosed)
    as (A & m3 & HA & Hm3 & Hl3).
  { intros F MF. rewrite Hl2. destruct (m !! F) as [MF0|] eqn:HF; [|done].
    intros _. by eapply Hreg. }
  exists A, m3. split_and!; [done| |].
  - intros F. rewrite Hl3, Hl2. by destruct (m !! F).
  - rewrite callGraphBasedHalIdent_unfold, Hm2, bind_Returns, Hm3,
      bind_Returns. reflexivity.
Qed.

Lemma in_CallGraph_lookup {V} CG (m : gmap Function V) :
  in_CallGraph CG m = true →
  ∀ F v, m !! F = Some v → is_Some (FunctionMap CG !! Some F).
Proof. intros Hin F v. by apply in_CallGraph_spec. Qed.

(** X12.  The directory stage recomputes both degrees and only ever sets
    [IsHal2]: an entry whose [IsHal2] was set before the stage keeps it,
    whatever the degrees are, and an entry whose [IsHal2] was clear gets it
    iff an entry of its [Dirname] has a [TransClosureInDeg] of at least 10;
    the other fields and the functions of the registry stay. *)
Theorem callGraphBasedHalIdent_only_sets_IsHal2 CG (m : Result) :
  closure_ok CG = true → records_ok CG = true → in_CallGraph CG m = true →
  ∃ R : Result, callGraphBasedHalIdent CG m = Returns R ∧
    dom R = dom m ∧
    ∀ F MF, m !! F = Some MF →
      ∃ MF', R !! F = Some MF' ∧
        Parent MF' = Parent MF ∧ IsHal MF' = IsHal MF ∧
        FullPath MF' = FullPath MF ∧ Dirname MF' = Dirname MF ∧
        InDegree MF' = calls_of CG F ∧
        (IsHal2 MF' = true ↔
           IsHal2 MF = true ∨
           ∃ G MG', R !! G = Some MG' ∧ Dirname MG' = Dirname MF
                    ∧ (10 ≤ TransClosureInDeg MG')%Z).
Proof.
  intros Hclo Hrec Hin.
  destruct (callGraphBasedHalIdent_lookup CG m Hclo Hrec
              (in_CallGraph_lookup CG m Hin)) as (A & m3 & _ & Hl3 & HR).
  eexists. split; [exact HR|]. split.
  { apply set_eq. intros F.
    by rewrite !elem_of_dom, lookup_fmap, Hl3, !fmap_is_Some. }
  assert (∀ d, d ∈ collect_HalDirs m3 ↔
            ∃ G MG', (mark_HalDir (collect_HalDirs m3) <$> m3) !! G = Some MG'
                     ∧ Dirname MG' = d ∧ (10 ≤ TransClosureInDeg MG')%Z)
    as Hdirs.
  { intros d. rewrite collect_HalDirs_elem. split.
    - intros (G & MG & HG & Hten & Hd).
      exists G, (mark_HalDir (collect_HalDirs m3) MG).
      rewrite lookup_fmap, HG. unfold mark_HalDir.
      split_and!; [done|by case_bool_decide..].
    - intros (G & MG' & HG & Hd & Hten). rewrite lookup_fmap in HG.
      destruct (m3 !! G) as [MG|] eqn:HG3; [|done]. injection HG as <-.
      exists G, MG. unfold mark_HalDir in *.
      split_and!; [done|by case_bool_decide..]. }
  intros F MF HF. eexists. rewrite lookup_fmap, Hl3, HF. simpl.
  split; [done|]. unfold mark_HalDir at 1 2 3 4 5 6 7.
  split_and!; try by case_bool_decide.
  rewrite <- Hdirs. case_bool_decide as Hd; simpl in *.
  - split; [by right|done].
  - split; [by left|]. by intros [?|?].
Qed.

Lemma callGraphBasedHalIdent_only_sets_IsHal2_witness :
  ∃ R MF',
    callGraphBasedHalIdent Broken.CG_small {[ Chain.fA := Chain.stale_entry ]}
    = Returns R ∧
    R !! Chain.fA = Some MF' ∧ TransClosureInDeg MF' = 0%Z ∧
    IsHal2 MF' = true.
Proof.
  destruct (callGraphBasedHalIdent_only_sets_IsHal2 Broken.CG_small
              {[ Chain.fA := Chain.stale_entry ]})
    as (R & HR & _ & Hent); [vm_compute; reflexivity..|].
  destruct (Hent Chain.fA Chain.stale_entry eq_refl)
    as (MF' & HF' & _ & _ & _ & _ & _ & Hiff).
  exists R, MF'. split_and!; [exact HR|exact HF'| |apply Hiff; by left].
  revert HF'. by_running HR. intros [= <-]. reflexivity.
Defined.

Lemma set_degrees_idemp t c (MF : MMIOFunc) HalDirs :
  let MF3 := set_TransClosureInDeg t (set_InDegree c MF) in
  set_TransClosureInDeg t (set_InDegree c (mark_HalDir HalDirs MF3))
  = mark_HalDir HalDirs MF3.
Proof. cbv zeta. unfold mark_HalDir. by case_bool_decide. Qed.

Lemma mark_HalDir_idemp HalDirs HalDirs' (MF : MMIOFunc) :
  (Dirname MF ∈ HalDirs' ↔ Dirname MF ∈ HalDirs) →
  mark_HalDir HalDirs' (mark_HalDir HalDirs MF) = mark_HalDir HalDirs MF.
Proof.
  intros Hiff. unfold mark_HalDir.
  destruct (bool_decide (Dirname MF ∈ HalDirs)) eqn:Hd.
  - apply bool_decide_eq_true in Hd. simpl.
    by rewrite bool_decide_eq_true_2 by by apply Hiff.
  - apply bool_decide_eq_false in Hd.
    by rewrite bool_decide_eq_false_2 by by rewrite Hiff.
Qed.

(** X13.  The directory stage is idempotent: run on the registry it has
    returned, over the same graph, it returns this registry again. *)
Theorem callGraphBasedHalIdent_idempotent CG (m R : Result) :
  closure_ok CG = true → records_ok CG = true → in_CallGraph CG m = true →
  callGraphBasedHalIdent CG m = Returns R →
  callGraphBasedHalIdent CG R = Returns R.
Proof.
  intros Hclo Hrec Hin HR.
  destruct (callGraphBasedHalIdent_lookup CG m Hclo Hrec
              (in_CallGraph_lookup CG m Hin)) as (A & m3 & HA & Hl3 & HR').
  rewrite HR in HR'. injection HR' as ->.
  set (R := mark_HalDir (collect_HalDirs m3) <$> m3) in *.
  destruct (callGraphBasedHalIdent_lookup CG R Hclo Hrec)
    as (A' & m3' & HA' & Hl3' & HR').
  { intros F MF. unfold R. rewrite lookup_fmap, Hl3.
    destruct (m !! F) as [MF0|] eqn:HF; [|done]. intros _.
    by eapply in_CallGraph_lookup. }
  assert (A' = A) as -> by congruence.
  rewrite HR'. f_equal. apply map_eq. intros F.
  assert (∀ G, m3' !! G = R !! G) as H33.
  { intros G. rewrite Hl3'. unfold R. rewrite lookup_fmap, Hl3.
    destruct (m !! G) as [MG|]; [|done]. simpl. f_equal.
    apply set_degrees_idemp. }
  rewrite lookup_fmap, H33. destruct (R !! F) as [MF|] eqn:HF; [|done].
  simpl. f_equal. unfold R in HF. rewrite lookup_fmap in HF.
  destruct (m3 !! F) as [MF3|] eqn:HF3; [|done]. injection HF as <-.
  apply mark_HalDir_idemp. rewrite !collect_HalDirs_elem.
  split; intros (G & MG & HG & Hten & Hd).
  - rewrite H33 in HG. unfold R in HG. rewrite lookup_fmap in HG.
    destruct (m3 !! G) as [MG3|] eqn:HG3; [|done]. injection HG as <-.
    exists G, MG3. unfold mark_HalDir in *.
    case_bool_decide; by split_and!.
  - exists G, (mark_HalDir (collect_HalDirs m3) MG).
    rewrite H33. unfold R. rewrite lookup_fmap, HG. simpl.
    unfold mark_HalDir. case_bool_decide; by split_and!.
Qed.

Lemma callGraphBasedHalIdent_idempotent_witness :
  ∃ R, callGraphBasedHalIdent Chain.CG Chain.stale = Returns R ∧
       callGraphBasedHalIdent Chain.CG R = Returns R.
Proof.
  destruct (callGraphBasedHalIdent_lookup Chain.CG Chain.stale)
    as (A & m3 & _ & _ & HR); [vm_compute; reflexivity..| |].
  { apply in_CallGraph_lookup. vm_compute. reflexivity. }
  eexists. split; [exact HR|].
  apply (callGraphBasedHalIdent_idempotent Chain.CG Chain.stale);
    [vm_compute; reflexivity..|exact HR].
Defined.

(** ** Relations between the results of a run *)

Lemma records_calls CG F :
  (∃ J, J ∈ CallGraph_records CG ∧ calls_to F J) ↔
  ∃ u, calls CG u (NodeOf (Some F)).
Proof.
  unfold CallGraph_records, calls_to. split.
  - intros (J & HJ & Hto). apply list_elem_of_In, in_concat in HJ
      as (recs & Hrecs & HJ). rewrite <- !list_elem_of_In in *.
    apply list_elem_of_fmap in Hrecs as ([k recs'] & -> & HI).
    apply elem_of_map_to_list in HI. exists (NodeOf k), k, recs', J.
    split_and!; [done..|]. by destruct (second J) as [[F'|]|]; simplify_eq/=.
  - intros (u & k & recs & J & -> & Hk & HJ & Hv). exists J. split.
    + apply list_elem_of_In, in_concat. exists recs.
      rewrite <- !list_elem_of_In. split; [|done].
      apply list_elem_of_fmap. exists (k, recs).
      split; [done|by apply elem_of_map_to_list].
    + by rewrite Hv.
Qed.

(** X14.  In the registry a run returns, a function has [InDegree] 0
    exactly when it has [TransClosureInDeg] 0: both say that no call record
    calls its node. *)
Theorem runOnModule_degrees_zero (m0 : Result) CG
    (MMIOFuncs : FindMMIOFunc_Result) errs :
  inputs_ok CG MMIOFuncs = true →
  ∃ R : Result, runOnModule m0 CG MMIOFuncs errs = Returns (R, errs) ∧
    ∀ F MF, R !! F = Some MF →
      (InDegree MF = 0%Z ↔ TransClosureInDeg MF = 0%Z) ∧
      (InDegree MF = 0%Z ↔ ∀ u, ¬ calls CG u (NodeOf (Some F))).
Proof.
  intros Hok.
  destruct (runOnModule_entries m0 CG MMIOFuncs errs Hok)
    as (R & HR & Hnone & Hent).
  exists R. split; [done|]. intros F MF HF.
  destruct (MMIOFuncs !! F) as [P|] eqn:HP;
    [|by rewrite (Hnone F HP) in HF].
  destruct (Hent F P HP)
    as (_ & l & MF' & _ & _ & Hl & HF' & _ & _ & _ & _ & Hin & Htc & _).
  simplify_eq. rewrite Hin, Htc.
  assert (Z.of_nat (length (filter (calls_to F) (CallGraph_records CG))) = 0%Z
          ↔ ∀ u, ¬ calls CG u (NodeOf (Some F))) as Hzero.
  { split.
    - intros Hlen u Hu.
      destruct (proj2 (records_calls CG F) (ex_intro _ u Hu)) as (J & HJ & Hto).
      assert (J ∈ filter (calls_to F) (CallGraph_records CG)) as HJ'
        by by apply list_elem_of_filter.
      destruct (filter _ _); [by apply elem_of_nil in HJ'|simpl in Hlen; lia].
    - intros Hno. destruct (filter _ _) as [|J rest] eqn:Hf; [done|].
      exfalso. assert (J ∈ filter (calls_to F) (CallGraph_records CG)) as HJ
        by (rewrite Hf; left).
      apply list_elem_of_filter in HJ as [Hto HJ].
      destruct (proj1 (records_calls CG F) (ex_intro _ J (conj HJ Hto)))
        as [u Hu]. by eapply Hno. }
  split; [|done]. rewrite Hzero. split.
  - intros Hno. destruct l as [|u l]; [done|]. exfalso.
    destruct (tc_last _ _ _ (proj1 (Hl u) ltac:(left))) as [w Hw].
    by eapply Hno.
  - intros Hlen u Hu. assert (u ∈ l) as Hin' by by apply Hl, tc_once.
    destruct l; [by apply elem_of_nil in Hin'|simpl in Hlen; lia].
Qed.

Lemma runOnModule_degrees_zero_witness :
  ∃ R : Result,
    runOnModule ∅ Chain.CG Chain.MMIOFuncs [] = Returns (R, []) ∧
    ∀ F MF, R !! F = Some MF →
      (InDegree MF = 0%Z ↔ TransClosureInDeg MF = 0%Z).
Proof.
  destruct (runOnModule_degrees_zero ∅ Chain.CG Chain.MMIOFuncs [])
    as (R & HR & Hall); [vm_compute; reflexivity|].
  exists R. split; [exact HR|]. intros F MF HF. exact (proj1 (Hall F MF HF)).
Defined.

(** X15.  When the graph has fewer than 10 nodes, no function of the
    registry a run returns has [IsHal2] set. *)
Theorem runOnModule_small_graph (m0 : Result) CG
    (MMIOFuncs : FindMMIOFunc_Result) errs :
  inputs_ok CG MMIOFuncs = true → size (FunctionMap CG) < 10 →
  ∃ R : Result, runOnModule m0 CG MMIOFuncs errs = Returns (R, errs) ∧
    ∀ F MF, R !! F = Some MF → IsHal2 MF = false.
Proof.
  intros Hok Hsmall.
  destruct (runOnModule_entries m0 CG MMIOFuncs errs Hok)
    as (R & HR & Hnone & Hent).
  exists R. split; [done|]. intros F MF HF.
  destruct (MMIOFuncs !! F) as [P|] eqn:HP;
    [|by rewrite (Hnone F HP) in HF].
  destruct (Hent F P HP)
    as (_ & _ & MF' & _ & _ & _ & HF' & _ & _ & _ & _ & _ & _ & Hiff).
  simplify_eq. apply not_true_is_false. intros (G & MG & HG & _ & Hten)%Hiff.
  destruct (MMIOFuncs !! G) as [PG|] eqn:HPG;
    [|by rewrite (Hnone G HPG) in HG].
  destruct (Hent G PG HPG)
    as (_ & l & MG' & _ & Hnd & Hl & HG' & _ & _ & _ & _ & _ & Htc & _).
  simplify_eq. rewrite Htc in Hten.
  pose proof (reaching_nodes_length CG l (NodeOf (Some G)) Hnd
                (λ u, proj1 (Hl u))). lia.
Qed.

Lemma runOnModule_small_graph_witness :
  ∃ R : Result,
    runOnModule Chain.stale Broken.CG_small
      (list_to_map [(Chain.fA, Chain.ins)]) [] = Returns (R, []) ∧
    ∀ F MF, R !! F = Some MF → IsHal2 MF = false.
Proof.
  apply runOnModule_small_graph.
  - vm_compute. reflexivity.
  - vm_compute. lia.
Defined.

(** X16.  Adding a call record never clears [IsHal2]: a function whose
    [IsHal2] a run sets over a graph has it set by the run over the graph
    with one more call record. *)
Theorem runOnModule_IsHal2_monotone (m0 : Result) CG k J
    (MMIOFuncs : FindMMIOFunc_Result) errs :
  inputs_ok CG MMIOFuncs = true →
  inputs_ok (add_call CG k J) MMIOFuncs = true →
  ∃ R1 R2 : Result,
    runOnModule m0 CG MMIOFuncs errs = Returns (R1, errs) ∧
    runOnModule m0 (add_call CG k J) MMIOFuncs errs = Returns (R2, errs) ∧
    ∀ F MF1, R1 !! F = Some MF1 → IsHal2 MF1 = true →
      ∃ MF2, R2 !! F = Some MF2 ∧ IsHal2 MF2 = true.
Proof.
  intros Hok1 Hok2.
  destruct (runOnModule_entries m0 CG MMIOFuncs errs Hok1)
    as (R1 & HR1 & Hnone1 & Hent1).
  destruct (runOnModule_entries m0 (add_call CG k J) MMIOFuncs errs Hok2)
    as (R2 & HR2 & Hnone2 & Hent2).
  exists R1, R2. split_and!; [done..|]. intros F MF1 HF1 Hhal.
  destruct (MMIOFuncs !! F) as [P|] eqn:HP;
    [|by rewrite (Hnone1 F HP) in HF1].
  destruct (Hent1 F P HP)
    as (MF0 & _ & MF1' & Hnew & _ & _ & HF1' & _ & _ & _ & Hd1 & _ & _ & Hiff1).
  destruct (Hent2 F P HP)
    as (MF0' & _ & MF2 & Hnew' & _ & _ & HF2 & _ & _ & _ & Hd2 & _ & _ & Hiff2).
  simplify_eq. exists MF2. split; [done|]. apply Hiff2.
  apply Hiff1 in Hhal as (G & MG1 & HG1 & HdG & Hten).
  destruct (MMIOFuncs !! G) as [PG|] eqn:HPG;
    [|by rewrite (Hnone1 G HPG) in HG1].
  destruct (Hent1 G PG HPG)
    as (MG0 & l1 & MG1' & HnewG & Hnd1 & Hl1 & HG1' & _ & _ & _ & HdG1 & _
        & Htc1 & _).
  destruct (Hent2 G PG HPG)
    as (MG0' & l2 & MG2 & HnewG' & Hnd2 & Hl2 & HG2 & _ & _ & _ & HdG2 & _
        & Htc2 & _).
  simplify_eq. exists G, MG2. split_and!; [done|congruence|].
  rewrite Htc2. rewrite Htc1 in Hten.
  assert (length l1 ≤ length l2); [|lia].
  apply submseteq_length, NoDup_submseteq; [done|].
  intros u Hu%Hl1. apply Hl2. eapply tc_mono; [|done].
  intros ??. apply add_call_calls.
Qed.

Lemma runOnModule_IsHal2_monotone_witness :
  ∃ R1 R2 : Result,
    runOnModule ∅ Chain.CG Chain.MMIOFuncs [] = Returns (R1, []) ∧
    runOnModule ∅ Chain.CG_self_call Chain.MMIOFuncs [] = Returns (R2, []) ∧
    IsHal2 <$> R1 !! Chain.fC = Some true ∧
    IsHal2 <$> R2 !! Chain.fC = Some true.
Proof.
  destruct (runOnModule_IsHal2_monotone ∅ Chain.CG (Some Chain.fC)
              (Chain.call Chain.fC) Chain.MMIOFuncs [])
    as (R1 & R2 & HR1 & HR2 & Hmono); [vm_compute; reflexivity..|].
  exists R1, R2. split; [exact HR1|]. split; [exact HR2|].
  assert (IsHal2 <$> R1 !! Chain.fC = Some true) as H1.
  { by_running HR1. reflexivity. }
  split; [exact H1|].
  destruct (R1 !! Chain.fC) as [MF1|] eqn:HF1; [|discriminate H1].
  injection H1 as H1.
  destruct (Hmono Chain.fC MF1 HF1 H1) as (MF2 & HF2 & H2).
  by rewrite HF2, <- H2.
Defined.

(** ** What a run keeps of its input *)

(** X17.  A run returns a registry with exactly the functions of the
    [FindMMIOFunc] result, each with the data it had there and the path of
    its source file. *)
Theorem runOnModule_same_functions (m0 : Result) CG
    (MMIOFuncs : FindMMIOFunc_Result) errs :
  inputs_ok CG MMIOFuncs = true →
  ∃ R : Result, runOnModule m0 CG MMIOFuncs errs = Returns (R, errs) ∧
    dom R = dom MMIOFuncs ∧
    ∀ F MF, R !! F = Some MF →
      MMIOFuncs !! F = Some (Parent MF) ∧
      ∃ DISub File, getSubprogram F = Some DISub ∧ getFile DISub = Some File ∧
        FullPath MF
        = DIFile_getDirectory File +:+ "/" +:+ DIFile_getFilename File.
Proof.
  intros Hok.
  destruct (runOnModule_entries m0 CG MMIOFuncs errs Hok)
    as (R & HR & Hnone & Hent).
  exists R. split; [done|]. split.
  - apply set_eq. intros F. rewrite !elem_of_dom.
    destruct (MMIOFuncs !! F) as [P|] eqn:HP.
    + destruct (Hent F P HP) as (_ & _ & MF & _ & _ & _ & -> & _). by split.
    + rewrite (Hnone F HP). by split; intros [? ?].
  - intros F MF HF. destruct (MMIOFuncs !! F) as [P|] eqn:HP;
      [|by rewrite (Hnone F HP) in HF].
    destruct (Hent F P HP)
      as (MF0 & _ & MF' & Hnew & _ & _ & HF' & HP' & _ & Hpath & _).
    simplify_eq.
    destruct (new_MMIOFunc_fields P F MF0 Hnew)
      as (DISub & File & HD & HFi & HP0 & _ & _ & Hpath0 & _).
    split; [by rewrite HP', HP0|]. exists DISub, File.
    split_and!; [done..|congruence].
Qed.

Lemma runOnModule_same_functions_witness :
  ∃ R : Result,
    runOnModule Chain.stale Chain.CG Chain.MMIOFuncs [] = Returns (R, []) ∧
    dom R = dom Chain.MMIOFuncs.
Proof.
  destruct (runOnModule_same_functions Chain.stale Chain.CG Chain.MMIOFuncs [])
    as (R & HR & Hdom & _); [vm_compute; reflexivity|].
  exists R. split; [exact HR|exact Hdom].
Defined.

(** X18.  In the registry a run returns, [IsHal2] is a property of the
    directory: two functions with the same [Dirname] have the same
    [IsHal2]. *)
Theorem runOnModule_IsHal2_by_directory (m0 : Result) CG
    (MMIOFuncs : FindMMIOFunc_Result) errs :
  inputs_ok CG MMIOFuncs = true →
  ∃ R : Result, runOnModule m0 CG MMIOFuncs errs = Returns (R, errs) ∧
    ∀ F G MF MG, R !! F = Some MF → R !! G = Some MG →
      Dirname MF = Dirname MG → IsHal2 MF = IsHal2 MG.
Proof.
  intros Hok.
  destruct (runOnModule_entries m0 CG MMIOFuncs errs Hok)
    as (R & HR & Hnone & Hent).
  exists R. split; [done|].
  assert (∀ F MF, R !! F = Some MF →
            IsHal2 MF = true ↔
              ∃ G MG, R !! G = Some MG ∧ Dirname MG = Dirname MF
                      ∧ (10 ≤ TransClosureInDeg MG)%Z) as Hiff.
  { intros F MF HF. destruct (MMIOFuncs !! F) as [P|] eqn:HP;
      [|by rewrite (Hnone F HP) in HF].
    destruct (Hent F P HP)
      as (_ & _ & MF' & _ & _ & _ & HF' & _ & _ & _ & _ & _ & _ & Hiff).
    by simplify_eq. }
  intros F G MF MG HF HG Hd.
  apply eq_true_iff_eq. rewrite (Hiff F MF HF), (Hiff G MG HG), Hd. done.
Qed.

Lemma runOnModule_IsHal2_by_directory_witness :
  ∃ R : Result,
    runOnModule ∅ Shared.CG Shared.MMIOFuncs [] = Returns (R, []) ∧
    IsHal2 <$> R !! Shared.fD = IsHal2 <$> R !! Chain.fC.
Proof.
  destruct (runOnModule_IsHal2_by_directory ∅ Shared.CG Shared.MMIOFuncs [])
    as (R & HR & Hdir); [vm_compute; reflexivity|].
  exists R. split; [exact HR|].
  assert (∃ MD MC, R !! Shared.fD = Some MD ∧ R !! Chain.fC = Some MC
                   ∧ Dirname MD = Dirname MC) as (MD & MC & HD & HC & Hd).
  { by_running HR. eexists _, _. split_and!; reflexivity. }
  rewrite HD, HC. simpl. f_equal. exact (Hdir _ _ MD MC HD HC Hd).
Defined.

(** ** The order of the two degree stages *)

(** X19.  The two degree computations are independent: in either order
    they return the same registry. *)
Theorem degree_stages_commute CG (m : Result) :
  closure_ok CG = true → records_ok CG = true → in_CallGraph CG m = true →
  ∃ R : Result,
    computeCallGraphInDegrees CG m ≫= computeCallGraphTransClosure CG
    = Returns R ∧
    computeCallGraphTransClosure CG m ≫= computeCallGraphInDegrees CG
    = Returns R.
Proof.
  intros Hclo Hrec%bool_decide_eq_true Hin.
  pose proof (in_CallGraph_lookup CG m Hin) as Hreg.
  destruct (closure_ok_spec CG Hclo) as [Hguard Hclosed].
  destruct (computeCallGraphInDegrees_lookup CG m Hrec) as (m2 & Hm2 & Hl2).
  destruct (computeCallGraphTransClosure_lookup CG m2 Hguard Hclosed)
    as (A & m3 & HA & Hm3 & Hl3).
  { intros F MF. rewrite Hl2. destruct (m !! F) as [MF0|] eqn:HF; [|done].
    intros _. by eapply Hreg. }
  destruct (computeCallGraphTransClosure_lookup CG m Hguard Hclosed Hreg)
    as (A' & m2' & HA' & Hm2' & Hl2').
  destruct (computeCallGraphInDegrees_lookup CG m2' Hrec)
    as (m3' & Hm3' & Hl3').
  assert (A' = A) as -> by congruence.
  exists m3. rewrite Hm2, Hm2', !bind_Returns. split; [done|].
  rewrite Hm3'. f_equal. apply map_eq. intros F.
  rewrite Hl3', Hl2', Hl3, Hl2. by destruct (m !! F) as [[]|].
Qed.

Lemma degree_stages_commute_witness :
  ∃ R : Result,
    computeCallGraphInDegrees Chain.CG Chain.stale
      ≫= computeCallGraphTransClosure Chain.CG = Returns R ∧
    computeCallGraphTransClosure Chain.CG Chain.stale
      ≫= computeCallGraphInDegrees Chain.CG = Returns R.
Proof.
  apply degree_stages_commute; vm_compute; reflexivity.
Defined.

(** ** The two sections of the report *)

(** X20.  The loop of [printHALBypassResult] divides the registry: the two
    maps are disjoint, their union is the registry, and the two numbers of
    functions the report gives add up to the size of the registry. *)
Theorem split_Result_partition (R : Result) :
  (split_Result R).1 ##ₘ (split_Result R).2 ∧
  (split_Result R).1 ∪ (split_Result R).2 = R ∧
  size (split_Result R).1 + size (split_Result R).2 = size R.
Proof.
  rewrite split_Result_filter. simpl.
  assert ((filter (λ I : Function * MMIOFunc, IsHal I.2 = false) R : Result)
          = filter (λ I, ¬ IsHal I.2 = true) R) as ->.
  { apply map_filter_ext. intros F MF _. simpl.
    split; [by intros ->|apply not_true_is_false]. }
  assert (filter (λ I : Function * MMIOFunc, ¬ IsHal I.2 = true) R
          ##ₘ filter (λ I, IsHal I.2 = true) R) as Hdisj.
  { symmetry. apply map_disjoint_filter_complement. }
  split; [done|]. split.
  - rewrite map_union_comm by done. apply map_filter_union_complement.
  - rewrite <- map_size_disj_union by done.
    rewrite map_union_comm by done. by rewrite map_filter_union_complement.
Qed.

(** ** The sum of the in-degrees *)

Lemma filter_length_disj {A} (P Q R : A → Prop)
    `{!∀ x, Decision (P x)} `{!∀ x, Decision (Q x)} `{!∀ x, Decision (R x)}
    (l : list A) :
  (∀ x, R x ↔ P x ∨ Q x) → (∀ x, P x → Q x → False) →
  length (filter R l) = length (filter P l) + length (filter Q l).
Proof.
  intros HR Hdisj. induction l as [|x l IH]; [done|].
  rewrite !filter_cons.
  destruct (decide (R x)) as [Hr|Hr], (decide (P x)) as [Hp|Hp],
    (decide (Q x)) as [Hq|Hq]; simpl; rewrite ?IH; try lia.
  - destruct (Hdisj x Hp Hq).
  - apply HR in Hr as [?|?]; done.
  - destruct Hr. apply HR. by left.
  - destruct Hr. apply HR. by left.
  - destruct Hr. apply HR. by right.
Qed.

Lemma foldr_InDegree_Permutation (l1 l2 : list (Function * MMIOFunc)) :
  l1 ≡ₚ l2 →
  foldr (λ I s, InDegree I.2 + s)%Z 0%Z l1
  = foldr (λ I s, InDegree I.2 + s)%Z 0%Z l2.
Proof. induction 1; simpl; lia. Qed.

Lemma calls_sum (recs : list CallRecord) (ks : list Function) :
  NoDup ks →
  foldr (λ F s, Z.of_nat (length (filter (calls_to F) recs)) + s)%Z 0%Z ks
  = Z.of_nat (length (filter (calls_among ks) recs)).
Proof.
  induction 1 as [|F ks HF Hnd IH]; simpl.
  - rewrite (list_filter_iff _ (λ _, False)).
    + by induction recs.
    + intros J. unfold calls_among.
      destruct (CallGraphNode_getFunction _); [|done].
      split; [by intros ?%elem_of_nil|done].
  - rewrite IH.
    rewrite (filter_length_disj (calls_to F) (calls_among ks)
               (calls_among (F :: ks))); [lia| |].
    + intros J. unfold calls_to, calls_among.
      destruct (CallGraphNode_getFunction _) as [F0|].
      * rewrite elem_of_cons. split; (intros [?|?]; [left|right]);
          congruence.
      * split; [done|by intros [?|?]].
    + unfold calls_to, calls_among. intros J HJ. rewrite HJ. done.
Qed.

(** X21.  [computeCallGraphInDegrees] counts every call record of a
    function of the registry once: the [InDegree]s it leaves add up to the
    number of call records that call a function of the registry. *)
Theorem computeCallGraphInDegrees_total CG (m : Result) :
  records_ok CG = true →
  ∃ m' : Result, computeCallGraphInDegrees CG m = Returns m' ∧
    total_InDegree m'
    = Z.of_nat (length (filter (calls_into m) (CallGraph_records CG))).
Proof.
  intros Hrec%bool_decide_eq_true.
  destruct (computeCallGraphInDegrees_lookup CG m Hrec) as (m' & Hm' & Hl).
  exists m'. split; [done|]. unfold total_InDegree.
  set (c F := Z.of_nat (length (filter (calls_to F) (CallGraph_records CG)))).
  set (g := λ I : Function * MMIOFunc, (I.1, set_InDegree (c I.1) I.2)).
  assert (map_to_list m' ≡ₚ g <$> map_to_list m) as Hperm.
  { apply NoDup_Permutation.
    - apply NoDup_map_to_list.
    - apply (NoDup_fmap_1 fst). rewrite <- list_fmap_compose.
      apply NoDup_fst_map_to_list.
    - intros [F MF']. rewrite elem_of_map_to_list, Hl, list_elem_of_fmap.
      split.
      + destruct (m !! F) as [MF|] eqn:HF; [|done]. intros [= <-].
        exists (F, MF). split; [done|]. by apply elem_of_map_to_list.
      + intros ([F0 MF] & [= -> ->] & HF%elem_of_map_to_list).
        by rewrite HF. }
  rewrite (foldr_InDegree_Permutation _ _ Hperm), foldr_fmap.
  transitivity (foldr (λ F s, c F + s)%Z 0%Z (map_to_list m).*1).
  { by rewrite foldr_fmap. }
  unfold c. rewrite calls_sum by apply NoDup_fst_map_to_list.
  f_equal. f_equal. apply list_filter_iff. intros J. unfold calls_into.
  unfold calls_among.
  destruct (CallGraphNode_getFunction (second J)) as [F|]; [|done].
  split.
  - intros ([F0 MF] & -> & HF%elem_of_map_to_list)%list_elem_of_fmap.
    by eexists.
  - intros [MF HF]. apply list_elem_of_fmap. exists (F, MF).
    split; [done|]. by apply elem_of_map_to_list.
Qed.

Lemma computeCallGraphInDegrees_total_witness :
  ∃ m' : Result,
    computeCallGraphInDegrees Chain.CG Chain.stale = Returns m' ∧
    total_InDegree m' = 6%Z.
Proof.
  destruct (computeCallGraphInDegrees_total Chain.CG Chain.stale)
    as (m' & Hm' & Htot); [vm_compute; reflexivity|].
  exists m'. split; [exact Hm'|]. rewrite Htot. vm_compute. reflexivity.
Defined.
